(** * BelexEmailer: the acquisition and extraction pipeline, verified

    A shallow embedding of the JavaScript sources

    - [Functions/functions.improved.cjs]: number extraction, the price
      locator, the puppeteer page pool, price alerts, atomic [prices.json],
      the IMAP reconnect scheduler;
    - [fetchHelpers.js] and [pdfAlertTracker.js]: [fetchWithRetries], the
      seen-set of processed PDF links, [writeJSON];
    - further parts of the same files and of [server.merged.js]: the
      selector paths of [fetchPriceForTicker] and its price URL,
      [loadPrices], [parseTickersFromSubject], [escapeHtml],
      [parseDateFromTd], [checkAllTickersOnce], the life of the IMAP
      listener, the reply of the mail handler;

    JavaScript numbers are IEEE-754 binary64 values and are modelled by
    Rocq's primitive floats, which are the same format with the same
    round-to-nearest-even arithmetic.  Strings are modelled by [string]
    (one [ascii] per code unit, read as Latin-1).  Asynchronous functions
    are modelled by explicit state passing: what the outside world answers
    (a fetch, a mail transport, a file system call, the clock) is an input
    of the model, what the function does to the outside world is recorded
    in a trace. *)

From Stdlib Require Import ZArith String Ascii List Bool Lia.
From Stdlib Require Import QArith Qround DecimalString.
From Stdlib Require Import Floats.PrimFloat Floats.SpecFloat Floats.FloatOps.
From Stdlib Require Floats.FloatAxioms Floats.FloatLemmas.
From stdpp Require Import base gmap strings list.
Import ListNotations.

Local Open Scope string_scope.
Local Open Scope list_scope.

(* ===================================================================== *)
(** * JavaScript strings *)
(* ===================================================================== *)

Module JsString.

Definition chars (s : string) : list ascii := list_ascii_of_string s.
Definition of_chars (l : list ascii) : string := string_of_list_ascii l.

Definition code (c : ascii) : nat := nat_of_ascii c.

(** [\d] *)
Definition isDigit (c : ascii) : bool :=
  (48 <=? code c)%nat && (code c <=? 57)%nat.

(** [\s], restricted to the code units below 256: TAB, LF, VT, FF, CR,
    SPACE and NBSP. *)
Definition isSpace (c : ascii) : bool :=
  ((9 <=? code c)%nat && (code c <=? 13)%nat)
  || (code c =? 32)%nat || (code c =? 160)%nat.

Definition isDot (c : ascii) : bool := (code c =? 46)%nat.
Definition isComma (c : ascii) : bool := (code c =? 44)%nat.
(** [[.,]] *)
Definition isSep (c : ascii) : bool := isDot c || isComma c.
(** [[^\d\n\r]] *)
Definition isGap (c : ascii) : bool :=
  negb (isDigit c || (code c =? 10)%nat || (code c =? 13)%nat).

(** ASCII case folding, which is what the [i] flag amounts to for the
    ASCII letters of the patterns used here. *)
Definition lower (c : ascii) : ascii :=
  if ((65 <=? code c)%nat && (code c <=? 90)%nat)
  then ascii_of_nat (code c + 32) else c.

Fixpoint dropWhile (p : ascii -> bool) (l : list ascii) : list ascii :=
  match l with
  | [] => []
  | c :: l' => if p c then dropWhile p l' else l
  end.

(** [String.prototype.trim] *)
Definition trim_chars (l : list ascii) : list ascii :=
  rev (dropWhile isSpace (rev (dropWhile isSpace l))).
Definition trim (s : string) : string := of_chars (trim_chars (chars s)).

(** [s.replace(/\s+/g, ' ')]: every maximal run of white space becomes
    one space. [in_run] tells that the previous character was white
    space, whose run has already been replaced. *)
Fixpoint collapse_chars (in_run : bool) (l : list ascii) : list ascii :=
  match l with
  | [] => []
  | c :: l' =>
      if isSpace c
      then (if in_run then collapse_chars true l'
            else " "%char :: collapse_chars true l')
      else c :: collapse_chars false l'
  end.
Definition collapse_spaces (s : string) : string :=
  of_chars (collapse_chars false (chars s)).

(** [s.replace(a, b)] with a one-character string pattern: only the first
    occurrence is replaced. *)
Fixpoint replace_first_chars (a : ascii) (b : list ascii) (l : list ascii)
  : list ascii :=
  match l with
  | [] => []
  | c :: l' =>
      if Ascii.eqb c a then b ++ l' else c :: replace_first_chars a b l'
  end.
Definition replace_first (a : ascii) (b : string) (s : string) : string :=
  of_chars (replace_first_chars a (chars b) (chars s)).

(** [s.includes(c)] for a one-character needle *)
Definition includes_char (c : ascii) (s : string) : bool :=
  existsb (Ascii.eqb c) (chars s).

(** [s.split(c)[1]] for a one-character separator: the text between the
    first and the second occurrence of [c]; [None] when [c] does not
    occur ([undefined] in the source). *)
Fixpoint takeUntil (c : ascii) (l : list ascii) : list ascii :=
  match l with
  | [] => []
  | x :: l' => if Ascii.eqb x c then [] else x :: takeUntil c l'
  end.
Fixpoint split_second_chars (c : ascii) (l : list ascii)
  : option (list ascii) :=
  match l with
  | [] => None
  | x :: l' =>
      if Ascii.eqb x c then Some (takeUntil c l')
      else split_second_chars c l'
  end.

Fixpoint prefix_of (ci : bool) (p l : list ascii) : bool :=
  match p, l with
  | [], _ => true
  | _ :: _, [] => false
  | a :: p', c :: l' =>
      (if ci then Ascii.eqb (lower a) (lower c) else Ascii.eqb a c)
      && prefix_of ci p' l'
  end.

Definition substring (from to : nat) (l : list ascii) : list ascii :=
  firstn (to - from) (skipn from l).

(** A text without any digit. *)
Definition digitless (l : list ascii) : Prop :=
  Forall (fun c => isDigit c = false) l.

End JsString.

(* ===================================================================== *)
(** * Regular expressions

    The patterns of the sources are sequences of greedy, bounded
    repetitions of a character class, alternatives of literal words, group
    boundaries and the end anchor.  [exec] is the backtracking matcher of
    ECMAScript restricted to these: a repetition first takes as many
    characters as it can and gives them back one at a time, alternatives
    are tried from left to right. *)
(* ===================================================================== *)

Module Regex.
Import JsString.

Inductive atom : Type :=
| Rep (cls : ascii -> bool) (lo : nat) (hi : option nat)
| Alt (words : list (list ascii)) (ci : bool)
| Mark
| Eos.

Definition regex : Type := list atom.

(** Number of leading characters in the class, at most [hi]. *)
Fixpoint run (cls : ascii -> bool) (hi : option nat) (l : list ascii) : nat :=
  match hi with
  | Some 0%nat => 0%nat
  | _ =>
      match l with
      | [] => 0%nat
      | c :: l' =>
          if cls c
          then S (run cls (option_map Nat.pred hi) l')
          else 0%nat
      end
  end.

(** [exec re l pos]: match [re] at the head of [l], which starts at
    offset [pos] of the subject; the result is the end offset and the
    offsets of the group boundaries passed. *)
Fixpoint exec (re : regex) (l : list ascii) (pos : nat)
  : option (nat * list nat) :=
  match re with
  | [] => Some (pos, [])
  | Mark :: re' =>
      match exec re' l pos with
      | Some (e, ms) => Some (e, pos :: ms)
      | None => None
      end
  | Eos :: re' =>
      match l with
      | [] => exec re' l pos
      | _ :: _ => None
      end
  | Rep cls lo hi :: re' =>
      (fix give_back (n : nat) : option (nat * list nat) :=
         match (if (lo <=? n)%nat
                then exec re' (skipn n l) (pos + n)%nat else None) with
         | Some r => Some r
         | None =>
             match n with
             | O => None
             | S n' => give_back n'
             end
         end) (run cls hi l)
  | Alt words ci :: re' =>
      (fix alternatives (ws : list (list ascii)) : option (nat * list nat) :=
         match ws with
         | [] => None
         | w :: ws' =>
             match (if prefix_of ci w l
                    then exec re' (skipn (length w) l) (pos + length w)%nat
                    else None) with
             | Some r => Some r
             | None => alternatives ws'
             end
         end) words
  end.

(** Leftmost match: the first start offset at which [exec] succeeds. *)
Fixpoint search_from (re : regex) (l : list ascii) (pos : nat)
  : option (nat * list nat) :=
  match exec re l pos with
  | Some r => Some r
  | None =>
      match l with
      | [] => None
      | _ :: l' => search_from re l' (S pos)
      end
  end.

Fixpoint groups (subject : list ascii) (marks : list nat) : list string :=
  match marks with
  | a :: b :: rest => of_chars (substring a b subject) :: groups subject rest
  | _ => []
  end.

(** [s.match(re)]: the captured groups of the leftmost match. The
    patterns below never nest groups, so consecutive boundaries pair up. *)
Definition matches (re : regex) (s : string) : option (list string) :=
  match search_from re (chars s) 0 with
  | Some (_, marks) => Some (groups (chars s) marks)
  | None => None
  end.

(** [re.test(s)] *)
Definition test (re : regex) (s : string) : bool :=
  match search_from re (chars s) 0 with
  | Some _ => true
  | None => false
  end.

(** [re.test(s)] for a pattern that starts with [^] *)
Definition test_anchored (re : regex) (s : string) : bool :=
  match exec re (chars s) 0 with
  | Some _ => true
  | None => false
  end.

Definition word (s : string) : list ascii := chars s.

End Regex.

(* ===================================================================== *)
(** * JavaScript numbers *)
(* ===================================================================== *)

Module JsNumber.
Import JsString.
Local Open Scope Z_scope.

Fixpoint span (p : ascii -> bool) (l : list ascii)
  : list ascii * list ascii :=
  match l with
  | [] => ([], [])
  | c :: l' =>
      if p c then let '(a, b) := span p l' in (c :: a, b) else ([], l)
  end.

Definition digit_value (c : ascii) : Z := Z.of_nat (code c) - 48.
Definition digits_value (l : list ascii) : Z :=
  fold_left (fun acc c => 10 * acc + digit_value c) l 0.

(** The binary64 value nearest to [m * 10^e10] (ties to even), computed
    as one correctly rounded division of two integers. *)
Definition of_decimal (neg : bool) (m : Z) (e10 : Z) : float :=
  match m with
  | Zpos p =>
      SF2Prim
        (if 0 <=? e10
         then SFdiv prec emax
                (S754_finite neg (p * Z.to_pos (10 ^ e10)) 0)
                (S754_finite false 1 0)
         else SFdiv prec emax
                (S754_finite neg p 0)
                (S754_finite false (Z.to_pos (10 ^ (- e10))) 0))
  | _ => if neg then neg_zero else zero
  end.

(** The value of an exponent part [[eE][+-]?\d+] at the head of [l], 0
    when there is none. *)
Definition exponent (l : list ascii) : Z :=
  match l with
  | e :: r =>
      if Ascii.eqb (lower e) "e"%char then
        let '(sg, r') :=
          match r with
          | c :: r' =>
              if Ascii.eqb c "+"%char then (false, r')
              else if Ascii.eqb c "-"%char then (true, r')
              else (false, r)
          | [] => (false, r)
          end in
        match fst (span isDigit r') with
        | [] => 0
        | ds => if sg then - digits_value ds else digits_value ds
        end
      else 0
  | [] => 0
  end.

(** [parseFloat]: skip leading white space, read the longest prefix that
    is a decimal literal, [NaN] when there is none. *)
Definition parseFloat (s : string) : float :=
  let l := dropWhile isSpace (chars s) in
  let '(neg, l1) :=
    match l with
    | c :: r =>
        if Ascii.eqb c "+"%char then (false, r)
        else if Ascii.eqb c "-"%char then (true, r)
        else (false, l)
    | [] => (false, l)
    end in
  if prefix_of false (chars "Infinity") l1
  then (if neg then neg_infinity else infinity)
  else
    let '(ip, r1) := span isDigit l1 in
    let '(fp, r2) :=
      match r1 with
      | c :: r => if isDot c then span isDigit r else ([], r1)
      | [] => ([], r1)
      end in
    match (ip ++ fp)%list with
    | [] => nan
    | ds => of_decimal neg (digits_value ds)
              (exponent r2 - Z.of_nat (length fp))
    end.

Definition isNaN (x : float) : bool := is_nan x.

(** A template literal: literal text and interpolated numbers, which the
    engine renders with [ToString]. *)
Inductive piece : Type :=
| Lit (s : string)
| Num (x : float).
Definition template : Type := list piece.

Definition decimal_string (n : Z) : string :=
  DecimalString.NilZero.string_of_uint (N.to_uint (Z.to_N n)).

(** The integer [n] for which [n / 100] is nearest to [m * 2^e], the
    larger one on a tie. *)
Definition hundredths (m : positive) (e : Z) : Z :=
  if 0 <=? e then 100 * Zpos m * 2 ^ e
  else (200 * Zpos m + 2 ^ (- e)) / (2 * 2 ^ (- e)).

Definition fixed2_digits (n : Z) : string :=
  let d := chars (decimal_string n) in
  let d := (repeat "0"%char (3 - length d) ++ d)%list in
  of_chars (firstn (length d - 2) d ++ "."%char :: skipn (length d - 2) d)%list.

(** [x.toFixed(2)]. Values that are not finite or reach [1e21] are
    rendered by [ToString]. *)
Definition toFixed2 (x : float) : piece :=
  match Prim2SF x with
  | S754_zero _ => Lit "0.00"
  | S754_finite s m e =>
      if (abs x <? 1e21)%float
      then Lit ((if s then "-" else "") ++ fixed2_digits (hundredths m e))%string
      else Num x
  | _ => Num x
  end.

End JsNumber.

(* ===================================================================== *)
(** * Number extraction ([extractNumberFromString]) *)
(* ===================================================================== *)

Module Extract.
Import JsString Regex JsNumber.

(** The pattern [\d+[.,]?\d*], captured as group 1. *)
Definition re_number : regex :=
  [Mark; Rep isDigit 1 None; Rep isSep 0 (Some 1%nat); Rep isDigit 0 None;
   Mark].

(** [/^\d{1,3}\.\d{3}$/] *)
Definition re_grouped : regex :=
  [Rep isDigit 1 (Some 3%nat); Rep isDot 1 (Some 1%nat);
   Rep isDigit 3 (Some 3%nat); Eos].

(** [/\d\.\d{1,3}/] *)
Definition re_fraction : regex :=
  [Rep isDigit 1 (Some 1%nat); Rep isDot 1 (Some 1%nat);
   Rep isDigit 1 (Some 3%nat)].

(** [numStr.split('.')[1].length], 0 when there is no dot. *)
Definition fraction_length (numStr : string) : nat :=
  match split_second_chars "."%char (chars numStr) with
  | Some f => length f
  | None => 0
  end.

Definition extractNumberFromString (txt : string) : float :=
  if String.eqb txt "" then nan
  else
    let cleaned :=
      replace_first ","%char "." (collapse_spaces (trim txt)) in
    match matches re_number cleaned with
    | None => nan
    | Some m =>
        let numStr := nth 0 m "" in
        let value := parseFloat (replace_first ","%char "." numStr) in
        (* 8.400 -> 8400 *)
        let value :=
          if test_anchored re_grouped numStr
          then parseFloat (replace_first "."%char "" numStr)
          else value in
        (* 8.4 (which stands for 8400) *)
        let value :=
          if (value <? 50)%float && test re_fraction numStr
          then (value * 1000)%float
          else value in
        (* 1.020442 -> 1020.442 *)
        let value :=
          if (value <? 50)%float && includes_char "."%char numStr
             && (2 <? fraction_length numStr)%nat
          then (value * 1000)%float
          else value in
        value
    end.

End Extract.

(* ===================================================================== *)
(** * The retrying transport ([fetchWithRetries])

    [fetchHelpers.js] and [pdfAlertTracker.js] carry the same loop. *)
(* ===================================================================== *)

Module Transport.
Import JsString JsNumber.
Local Open Scope Z_scope.

(** An [Error] object as the loop reads it. *)
Record error : Type := mkError {
  err_code : option string;     (* err.code *)
  err_message : string;         (* err.message || '' *)
  err_status : option Z         (* err.status *)
}.

(** What one call of [fetch] does: it resolves with a response of some
    status, or it rejects (a network failure, or the abort fired by the
    timeout). *)
Inductive attempt_result : Type :=
| Responded (status : Z)
| Rejected (e : error).

(** [res.ok] *)
Definition ok (status : Z) : bool := (200 <=? status) && (status <=? 299).

(** [new Error(`fetch ${url} failed ${res.status}`)] with [err.status] set *)
Definition http_error (url : string) (status : Z) : error :=
  mkError None
    ("fetch " ++ url ++ " failed " ++ decimal_string status)%string
    (Some status).

(** [hay.includes(needle)] *)
Fixpoint includes_chars (needle hay : list ascii) : bool :=
  prefix_of false needle hay
  || match hay with
     | [] => false
     | _ :: hay' => includes_chars needle hay'
     end.
Definition includes (needle hay : string) : bool :=
  includes_chars (chars needle) (chars hay).

Definition code_is (e : error) (c : string) : bool :=
  match err_code e with
  | Some c' => String.eqb c' c
  | None => false
  end.

Definition isTransient (e : error) : bool :=
  code_is e "ECONNRESET" || code_is e "EPIPE" || code_is e "ETIMEDOUT"
  || includes "socket hang up" (err_message e)
  || includes "network timeout" (err_message e)
  || includes "aborted" (err_message e)
  || includes "fetch" (err_message e).

(** [Math.min(1000 * Math.pow(2, attempt - 1), 10000)]; the operands are
    integers that binary64 represents exactly (or [Infinity], which the
    minimum discards like the unbounded integer here). *)
Definition backoffBase (attempt : Z) : Z :=
  Z.min (1000 * 2 ^ (attempt - 1)) 10000.

(** The rounding of binary64 on the numerator of a fraction over a power
    of two: the nearest integer with at most 53 significant bits, a tie
    going to the even mantissa. *)
Definition round53 (P : Z) : Z :=
  let s := Z.log2 P + 1 - 53 in
  if s <=? 0 then P
  else
    let q := P / 2 ^ s in
    let rest := P mod 2 ^ s in
    let half := 2 ^ (s - 1) in
    if (half <? rest) || ((rest =? half) && Z.odd q)
    then (q + 1) * 2 ^ s
    else q * 2 ^ s.

(** The fractions in lowest terms that are binary64 numbers from 0 on: a
    mantissa below [2^53] over a power of two up to [2^1074]. *)
Definition is_binary64 (r : Q) : bool :=
  (0 <=? Qnum r) && (Qnum r <? 2 ^ 53)
  && (Zpos (Qden r) =? 2 ^ Z.log2 (Zpos (Qden r)))
  && (Z.log2 (Zpos (Qden r)) <=? 1074).

(** [Math.floor(r * 500)] for a draw [r] of [Math.random()], given as the
    rational number that the draw is. The product is rounded to binary64
    before the floor, as the multiplication of the language does. A
    rational number that is no binary64 number, which [Math.random] never
    gives, is multiplied exactly. *)
Definition jitter (r : Q) : Z :=
  let q := Qred r in
  if is_binary64 q then round53 (Qnum q * 500) / Zpos (Qden q)
  else Qfloor (r * 500).

Inductive event : Type :=
| Fetch (attempt : Z)
| Sleep (ms : Z).

Inductive outcome : Type :=
| Returned (status : Z)
| Thrown (lastErr : option error).

Section Loop.
(** The world: what the [attempt]-th call of [fetch] does, and what the
    draw of [Math.random] after the [attempt]-th failure gives.
    [retries] is the integer that [parseInt] made of MAX_FETCH_RETRIES,
    or the caller's [options.retries]. *)
Variable fetch : Z -> attempt_result.
Variable random : Z -> Q.
Variable url : string.
Variable retries : Z.

(** The [for] loop from [attempt] on. [fuel] bounds the iterations. *)
Fixpoint attempts_from (fuel : nat) (attempt : Z) (lastErr : option error)
  (trace : list event) : option (outcome * list event) :=
  if attempt <=? retries then
    match fuel with
    | O => None
    | S fuel' =>
        let trace := (trace ++ [Fetch attempt])%list in
        let failed (err : error) :=
          if negb (isTransient err) || (attempt =? retries)
          then Some (Thrown (Some err), trace)
          else
            let wait := backoffBase attempt + jitter (random attempt) in
            attempts_from fuel' (attempt + 1) (Some err)
              (trace ++ [Sleep wait])%list in
        match fetch attempt with
        | Responded status =>
            if ok status then Some (Returned status, trace)
            else failed (http_error url status)
        | Rejected err => failed err
        end
    end
  else Some (Thrown lastErr, trace).

Definition fetchWithRetries : option (outcome * list event) :=
  attempts_from (Z.to_nat retries) 1 None [].
End Loop.

(** The error with which one attempt fails, if it fails. *)
Definition failure (url : string) (r : attempt_result) : option error :=
  match r with
  | Responded status => if ok status then None else Some (http_error url status)
  | Rejected err => Some err
  end.

Definition fails_transiently (url : string) (r : attempt_result) : bool :=
  match failure url r with
  | Some err => isTransient err
  | None => false
  end.

(** What [n] failed attempts in a row, each followed by its delay, leave
    in the trace, the first of them being attempt number [attempt]. *)
Fixpoint retried (random : Z -> Q) (n : nat) (attempt : Z) : list event :=
  match n with
  | O => []
  | S n' =>
      Fetch attempt :: Sleep (backoffBase attempt + jitter (random attempt))
      :: retried random n' (attempt + 1)
  end.

Definition fetches (trace : list event) : list Z :=
  omap (fun e => match e with Fetch a => Some a | Sleep _ => None end) trace.
Definition sleeps (trace : list event) : list Z :=
  omap (fun e => match e with Sleep ms => Some ms | Fetch _ => None end) trace.

End Transport.

(* ===================================================================== *)
(** * Settled promises *)
(* ===================================================================== *)

Module Async.

(** How an awaited call ends: with a value, or with a thrown [Error] of
    which the model keeps the message. *)
Inductive settled (A : Type) : Type :=
| Fulfilled (a : A)
| Failed (message : string).
Arguments Fulfilled {A} a.
Arguments Failed {A} message.

End Async.

(* ===================================================================== *)
(** * The price locator ([autodetectPriceFromPage] and the fallbacks of
      [fetchPriceForTicker]) *)
(* ===================================================================== *)

Module Locator.
Import JsString Regex JsNumber Extract Async.

(** The loaded page as the locator sees it. For each XPath query: [None]
    when [page.$x] throws, otherwise the matched elements in document
    order, each given by what [page.evaluate(e => e.textContent, el)]
    does. [innerText] is [document.body.innerText || '']. *)
Record page : Type := mkPage {
  xpathRow : option (list (settled string));
  xpathLabelNext : option (list (settled string));
  xpathContainer : option (list (settled string));
  innerText : settled string
}.

(** The [for (const el of els)] loop of one strategy, inside its [try]:
    the first element whose trimmed text extracts to a number is
    returned; an exception abandons the strategy. *)
Fixpoint first_number (els : list (settled string)) : option float :=
  match els with
  | [] => None
  | Failed _ :: _ => None
  | Fulfilled textContent :: els' =>
      let num := extractNumberFromString (trim textContent) in
      if negb (isNaN num) then Some num else first_number els'
  end.

Definition strategy (query : option (list (settled string))) : option float :=
  match query with
  | Some els => first_number els
  | None => None
  end.

(** [autodetectPriceFromPage]; [None] is [null]. *)
Definition autodetectPriceFromPage (p : page) : option float :=
  match strategy (xpathRow p) with
  | Some num => Some num
  | None =>
      match strategy (xpathLabelNext p) with
      | Some num => Some num
      | None =>
          match strategy (xpathContainer p) with
          | Some num => Some num
          | None => None
          end
      end
  end.

(** [/(?:Price|Cena)[^\d\n\r]{0,30}([0-9]+[.,][0-9]{1,6})/i] *)
Definition nearPattern : regex :=
  [Alt [word "Price"; word "Cena"] true; Rep isGap 0 (Some 30%nat);
   Mark; Rep isDigit 1 None; Rep isSep 1 (Some 1%nat);
   Rep isDigit 1 (Some 6%nat); Mark].

(** [/([0-9]+[.,][0-9]{1,6})/] *)
Definition tokenPattern : regex :=
  [Mark; Rep isDigit 1 None; Rep isSep 1 (Some 1%nat);
   Rep isDigit 1 (Some 6%nat); Mark].

(** [parseFloat(m[1].replace(',', '.'))] *)
Definition parse_group (m : list string) : float :=
  parseFloat (replace_first ","%char "." (nth 0 m "")).

Definition could_not_extract (ticker : string) : string :=
  "Could not extract price for " ++ ticker
  ++ " (no selector matched and fallback failed)".

(** The number that follows the word Price or Cena in the page text. *)
Definition near_number (body : string) : option float :=
  match matches nearPattern body with
  | Some m =>
      let val := parse_group m in
      if negb (isNaN val) then Some val else None
  | None => None
  end.

(** The first token of the page text that looks like a number. *)
Definition token_number (body : string) : option float :=
  match matches tokenPattern body with
  | Some m2 => Some (parse_group m2)
  | None => None
  end.

(** The two page-text fallbacks that follow autodetection. *)
Definition body_fallback (ticker : string) (body : string) : settled float :=
  match near_number body with
  | Some val => Fulfilled val
  | None =>
      match token_number body with
      | Some val2 => Fulfilled val2
      | None => Failed (could_not_extract ticker)
      end
  end.

(** [fetchPriceForTicker] when no selector is configured, from the
    loaded page on (taking and releasing the page is [Pool]). *)
Definition fetchPriceForTicker (ticker : string) (p : page) : settled float :=
  match autodetectPriceFromPage p with
  | Some auto => Fulfilled auto
  | None =>
      match innerText p with
      | Failed e => Failed e
      | Fulfilled body => body_fallback ticker body
      end
  end.

(** The five strategies in the order of the source, each with the number
    it finds. The last two read the page text. *)
Definition on_body (f : string -> option float) (body : settled string)
  : option float :=
  match body with
  | Fulfilled b => f b
  | Failed _ => None
  end.

Definition strategies (p : page) : list (option float) :=
  [strategy (xpathRow p); strategy (xpathLabelNext p);
   strategy (xpathContainer p);
   on_body near_number (innerText p); on_body token_number (innerText p)].

Fixpoint first_some (l : list (option float)) : option float :=
  match l with
  | [] => None
  | Some v :: _ => Some v
  | None :: l' => first_some l'
  end.

(** The texts of the elements that come before the first one whose
    evaluation throws. *)
Fixpoint readable (els : list (settled string)) : list string :=
  match els with
  | Fulfilled textContent :: els' => textContent :: readable els'
  | _ => []
  end.

End Locator.

(* ===================================================================== *)
(** * The puppeteer page pool ([getPage], [releasePage])

    Calls are modelled one at a time: a call runs to its end before the
    next one starts, as when every call is awaited. *)
(* ===================================================================== *)

Module Pool.
Local Open Scope Z_scope.

Definition page_id : Type := nat.

Record page_info : Type := mkInfo {
  location : string;   (* the document the page shows *)
  closed : bool
}.

(** The module state: [browser] (launched or [null]), [pagePool], and
    the pages the browser has handed out so far. *)
Record state : Type := mkState {
  browser : bool;
  pagePool : list page_id;
  pages : gmap page_id page_info;
  fresh : page_id
}.

Definition initial : state := mkState false [] ∅ 0%nat.

Inductive event : Type :=
| Launch
| NewPage (p : page_id)
| Goto (p : page_id) (target : string)
| Close (p : page_id).

(** [opts.PUPPETEER_MAX_PAGES || DEFAULTS.PUPPETEER_MAX_PAGES]: an
    option that is absent or 0 gives way to the default, which is the
    integer that [parseInt] makes of the setting in the environment. (A
    setting without digits makes the default [NaN], below which no
    length lies: the pool then keeps no page, as with a default of 0.) *)
Definition max_pages (opt : option Z) (default : Z) : Z :=
  match opt with
  | Some n => if n =? 0 then default else n
  | None => default
  end.

(** [pagePool.pop()] takes the last element. *)
Definition pop (l : list page_id) : option (page_id * list page_id) :=
  match rev l with
  | [] => None
  | p :: r => Some (p, rev r)
  end.

Definition set_location (p : page_id) (target : string) (s : state) : state :=
  let was_closed := from_option closed false (pages s !! p) in
  mkState (browser s) (pagePool s)
    (<[p := mkInfo target was_closed]> (pages s)) (fresh s).

Definition set_closed (p : page_id) (s : state) : state :=
  let shown := from_option location "" (pages s !! p) in
  mkState (browser s) (pagePool s)
    (<[p := mkInfo shown true]> (pages s)) (fresh s).

Definition push (p : page_id) (s : state) : state :=
  mkState (browser s) (pagePool s ++ [p]) (pages s) (fresh s).

(** [ensureBrowser]: a launch empties the pool. *)
Definition ensureBrowser (s : state) : state * list event :=
  if browser s then (s, [])
  else (mkState true [] (pages s) (fresh s), [Launch]).

(** [getPage], with a browser that launches and opens pages without
    error. The result is the page handed out. *)
Definition getPage (s : state) : page_id * state * list event :=
  let '(s, tr) := ensureBrowser s in
  match pop (pagePool s) with
  | Some (p, rest) =>
      (p, mkState (browser s) rest (pages s) (fresh s), tr)
  | None =>
      let p := fresh s in
      (p,
       mkState (browser s) (pagePool s)
         (<[p := mkInfo "about:blank" false]> (pages s)) (S p),
       tr ++ [NewPage p])
  end.

(** What the page does during one [releasePage]: whether
    [p.goto('about:blank')] resolves, whether [p.close()] resolves, and
    whether the [p.close()] of the [catch] handler resolves. *)
Record page_world : Type := mkWorld {
  goto_ok : bool;
  close_ok : bool;
  reclose_ok : bool
}.

(** The [catch] handler: one more [close], whose own failure is
    swallowed. *)
Definition handler (p : page_id) (w : page_world) (s : state)
  (tr : list event) : state * list event :=
  ((if reclose_ok w then set_closed p s else s), tr ++ [Close p]).

(** [releasePage(p, opts)] has an [await] in its middle. Up to it the
    call tests the capacity and starts the navigation to about:blank, or
    the close; while it waits, other calls run. What a call waits for: *)
Inductive pending : Type :=
| Keeping (p : page_id)    (* there was room: [await p.goto('about:blank')] *)
| Closing (p : page_id).   (* there was none: [await p.close()] *)

Definition page_of (pd : pending) : page_id :=
  match pd with
  | Keeping p | Closing p => p
  end.

(** Up to the [await]: the test [pagePool.length < max]. *)
Definition release_begin (p : page_id) (opt : option Z) (default : Z)
  (s : state) : pending :=
  if Z.of_nat (length (pagePool s)) <? max_pages opt default
  then Keeping p else Closing p.

(** From the [await] on, in the state that the module has by then:
    [pagePool.push(p)] after the navigation, nothing more after the
    close, and the [catch] handler when the awaited call fails. *)
Definition release_end (pd : pending) (w : page_world) (s : state)
  : state * list event :=
  match pd with
  | Keeping p =>
      if goto_ok w
      then (push p (set_location p "about:blank" s), [Goto p "about:blank"])
      else handler p w s [Goto p "about:blank"]
  | Closing p =>
      if close_ok w
      then (set_closed p s, [Close p])
      else handler p w s [Close p]
  end.

(** [releasePage(p, opts)] when no other call runs during its [await];
    [None] is a missing page ([!p]). *)
Definition releasePage (p : option page_id) (opt : option Z) (default : Z)
  (w : page_world) (s : state) : state * list event :=
  match p with
  | None => (s, [])
  | Some p => release_end (release_begin p opt default s) w s
  end.

(** The calls that the module receives, in the order in which their
    steps run. [Get] is a [getPage]; [Release] is a [releasePage] during
    whose [await] nothing else runs; [Begin] is a [releasePage] up to its
    [await] and [End] is the rest of the earliest such call for the page,
    with any steps of other calls in between. *)
Inductive op : Type :=
| Get
| Release (p : option page_id) (w : page_world)
| Begin (p : page_id)
| End (p : page_id) (w : page_world).

(** The earliest waiting call for the page [p], taken out of the
    list. *)
Fixpoint take_pending (p : page_id) (waiting : list pending)
  : option (pending * list pending) :=
  match waiting with
  | [] => None
  | pd :: rest =>
      if (page_of pd =? p)%nat then Some (pd, rest)
      else
        match take_pending p rest with
        | Some (found, others) => Some (found, pd :: others)
        | None => None
        end
  end.

Section Run.
Variable opt : option Z.
Variable default : Z.

(** The module state and the [releasePage] calls that wait. *)
Definition step (c : state * list pending) (o : op) : state * list pending :=
  let '(s, waiting) := c in
  match o with
  | Get => (snd (fst (getPage s)), waiting)
  | Release p w => (fst (releasePage p opt default w s), waiting)
  | Begin p => (s, waiting ++ [release_begin p opt default s])
  | End p w =>
      match take_pending p waiting with
      | Some (pd, others) => (fst (release_end pd w s), others)
      | None => (s, waiting)
      end
  end.

Definition run (s : state) (ops : list op) : state * list pending :=
  fold_left step ops (s, []).

(** A [releasePage] with a page starts here. *)
Definition starts_release (o : op) : bool :=
  match o with
  | Release (Some _) _ | Begin _ => true
  | _ => false
  end.

(** The calls do not overlap in their releases: no [releasePage] starts
    while another one waits. *)
Fixpoint apart (c : state * list pending) (ops : list op) : bool :=
  match ops with
  | [] => true
  | o :: rest =>
      (if starts_release o
       then match snd c with [] => true | _ :: _ => false end
       else true)
      && apart (step c o) rest
  end.
(** While the calls do not overlap in their releases, at most one
    [releasePage] waits, and the pool has room for the page that it is
    about to push. *)
Definition within (c : state * list pending) : Prop :=
  let cap := max_pages opt default in
  match snd c with
  | [] => Z.of_nat (length (pagePool (fst c))) <= cap
  | [Keeping _] => Z.of_nat (length (pagePool (fst c))) + 1 <= cap
  | [Closing _] => Z.of_nat (length (pagePool (fst c))) <= cap
  | _ => False
  end.
End Run.

End Pool.

(* ===================================================================== *)
(** * Persisted state files ([savePrices], [writeJSON]) *)
(* ===================================================================== *)

Module Persist.

(** The files of interest: path to content. *)
Abbreviation files := (gmap string string).

(** How one [writeFile] goes: to its end, or failing after some
    characters have reached the file, or failing before the file is
    opened. *)
Inductive write_world : Type :=
| Completes
| FailsAfter (n : nat)
| CannotOpen.

Definition written (data : string) (w : write_world) : nat :=
  match w with
  | Completes => String.length data
  | FailsAfter n => Nat.min n (String.length data)
  | CannotOpen => 0
  end.

(** [writeFile(path, data)] opens the file for writing, which empties
    it, and then appends the data. The result lists the states of the
    file system that another reader, or the next start of the process,
    may find, in order. *)
Definition writeFile (fs : files) (path data : string) (w : write_world)
  : list files :=
  match w with
  | CannotOpen => []
  | _ =>
      map (fun k => <[path := String.substring 0 k data]> fs)
        (seq 0 (S (written data w)))
  end.

Definition succeeds (w : write_world) : bool :=
  match w with
  | Completes => true
  | _ => false
  end.

(** [rename(from, to)] replaces [to] in one step. *)
Definition rename (from to : string) (fs : files) : files :=
  match fs !! from with
  | Some content => <[to := content]> (delete from fs)
  | None => fs
  end.

Record world : Type := mkWorld {
  write : write_world;
  rename_ok : bool;
  unlink_ok : bool
}.

(** The [catch] branch of [savePrices]: the temporary file is removed
    when it exists, and a failure to do so is swallowed. *)
Definition cleanup (tmp : string) (w : world) (fs : files) : list files :=
  match fs !! tmp with
  | Some _ => if unlink_ok w then [delete tmp fs] else []
  | None => []
  end.

(** [savePrices(data, filename)], where [f] is the resolved path and
    [text] is [JSON.stringify(data, null, 2)], for a call during which
    no other call of [savePrices] runs. The result lists the successive
    states of the file system. Calls that overlap are taken step by step
    in [Saves]. *)
Definition savePrices (w : world) (fs : files) (f text : string)
  : list files :=
  let tmp := (f ++ ".tmp")%string in
  let during := writeFile fs tmp text (write w) in
  let fs1 := List.last during fs in
  if succeeds (write w) && rename_ok w
  then during ++ [rename tmp f fs1]
  else during ++ cleanup tmp w fs1.

(** [writeJSON(filePath, data)] of [pdfAlertTracker.js]: after
    [ensureDir], the document is written in place. *)
Definition writeJSON (w : write_world) (fs : files) (filePath text : string)
  : list files :=
  writeFile fs filePath text w.

End Persist.

(* ===================================================================== *)
(** * Calls of [savePrices] that overlap *)
(* ===================================================================== *)

Module Saves.
Import Persist.

(** Every call of [savePrices] writes the same file [f + '.tmp'], and
    the calls of the workers of the mail listener and of the periodic
    check are not queued: the steps of one call can run between the
    steps of another. A file that is open stays the same file object
    when its name is given to another object or removed, so the model
    keeps the objects apart from the two names: [objects] holds the
    content of every file object there has been, [target] is the object
    that the name [f] stands for, [temp] the object that [f + '.tmp']
    stands for. *)
Record disk : Type := mkDisk {
  objects : list string;
  target : option nat;
  temp : option nat
}.

Definition read_target (d : disk) : option string :=
  target d ≫= fun i => objects d !! i.
Definition read_temp (d : disk) : option string :=
  temp d ≫= fun i => objects d !! i.

(** The disk on which [f] holds [old] and [f + '.tmp'] holds
    [leftover], each in a file of its own. *)
Definition disk_of (old leftover : option string) : disk :=
  match old, leftover with
  | Some a, Some b => mkDisk [a; b] (Some 0) (Some 1)
  | Some a, None => mkDisk [a] (Some 0) None
  | None, Some b => mkDisk [b] None (Some 0)
  | None, None => mkDisk [] None None
  end.

(** [write] through a descriptor, at the position of the descriptor.
    When the file has been emptied meanwhile the position lies beyond
    its end, and the gap reads as NUL characters. *)
Definition write_at (content : string) (pos : nat) (chunk : list ascii)
  : string :=
  let old := list_ascii_of_string content in
  string_of_list_ascii
    (take pos (old ++ replicate (pos - length old) Ascii.zero)
     ++ chunk ++ drop (pos + length chunk) old).

(** Where a call of [savePrices] is: not started; inside
    [await writeFile(tmp, ...)] with the file open and [pos] characters
    written, which is before [await rename(tmp, f)] once the whole text
    is written; or returned. *)
Inductive stage : Type :=
| Idle
| Writing (fd : nat) (pos : nat)
| Finished.

(** The steps of a call. [Open]: [writeFile] opens [tmp] for writing,
    which empties the file or creates it. [Write n]: [writeFile] writes
    the next [n] characters. [Rename]: [rename(tmp, f)]; without a file
    of that name it fails and the [catch] branch finds nothing to
    remove. [Throw]: the awaited call fails and the [catch] branch runs,
    [unlink_ok] telling whether its [unlinkSync] works. *)
Inductive action : Type :=
| Open
| Write (n : nat)
| Rename
| Throw (unlink_ok : bool).

Record call : Type := mkCall {
  doc : string;        (* JSON.stringify(data, null, 2) *)
  at_stage : stage
}.

Definition catch_branch (unlink_ok : bool) (d : disk) : disk :=
  match temp d with
  | Some _ => if unlink_ok then mkDisk (objects d) (target d) None else d
  | None => d
  end.

Definition act (c : call) (a : action) (d : disk) : call * disk :=
  match at_stage c, a with
  | Idle, Open =>
      match temp d with
      | Some i =>
          (mkCall (doc c) (Writing i 0),
           mkDisk (<[i := ""]> (objects d)) (target d) (temp d))
      | None =>
          let i := length (objects d) in
          (mkCall (doc c) (Writing i 0),
           mkDisk (objects d ++ [""]) (target d) (Some i))
      end
  | Writing fd pos, Write n =>
      let chunk := take n (drop pos (list_ascii_of_string (doc c))) in
      (mkCall (doc c) (Writing fd (pos + length chunk)),
       mkDisk (alter (fun old => write_at old pos chunk) fd (objects d))
         (target d) (temp d))
  | Writing fd pos, Rename =>
      if (pos <? String.length (doc c))%nat then (c, d)
      else
        (mkCall (doc c) Finished,
         match temp d with
         | Some i => mkDisk (objects d) (Some i) None
         | None => d
         end)
  | Idle, Throw unlink_ok | Writing _ _, Throw unlink_ok =>
      (mkCall (doc c) Finished, catch_branch unlink_ok d)
  | _, _ => (c, d)
  end.

(** The disk and the calls of [savePrices] made on it. *)
Record system : Type := mkSystem {
  on_disk : disk;
  calls : list call
}.

Definition save_step (s : system) (e : nat * action) : system :=
  match calls s !! fst e with
  | Some c =>
      let '(c', d') := act c (snd e) (on_disk s) in
      mkSystem d' (<[fst e := c']> (calls s))
  | None => s
  end.

(** The states that a reader, or the next start of the process, may
    find, in order. *)
Fixpoint save_states (s : system) (schedule : list (nat * action))
  : list system :=
  match schedule with
  | [] => []
  | e :: rest => save_step s e :: save_states (save_step s e) rest
  end.

Definition busy (c : call) : bool :=
  match at_stage c with
  | Writing _ _ => true
  | _ => false
  end.

(** The calls do not overlap: a call takes a step only while no other
    call is between its start and its return. *)
Fixpoint saves_apart (s : system) (schedule : list (nat * action)) : bool :=
  match schedule with
  | [] => true
  | e :: rest =>
      forallb (fun c => negb (busy c)) (delete (fst e) (calls s))
      && saves_apart (save_step s e) rest
  end.

Definition save_start (old leftover : option string) (texts : list string)
  : system :=
  mkSystem (disk_of old leftover) (map (fun t => mkCall t Idle) texts).

(** What links a call that is under way to the disk, while the calls do
    not overlap: its descriptor is the file that [tmp] names, and that
    file holds what the call has written so far. *)
Definition writing_own (d : disk) (c : call) : Prop :=
  match at_stage c with
  | Writing fd pos =>
      temp d = Some fd
      /\ objects d !! fd
         = Some (string_of_list_ascii
                   (take pos (list_ascii_of_string (doc c))))
      /\ pos <= String.length (doc c)
  | _ => True
  end.

Record save_sound (old : option string) (texts : list string) (s : system)
  : Prop := mkSound {
  target_exists : forall i, target (on_disk s) = Some i ->
                            i < length (objects (on_disk s));
  temp_exists : forall i, temp (on_disk s) = Some i ->
                          i < length (objects (on_disk s));
  two_files : forall i j, target (on_disk s) = Some i ->
                          temp (on_disk s) = Some j -> i <> j;
  whole : read_target (on_disk s) = old
          \/ exists t, t ∈ texts /\ read_target (on_disk s) = Some t;
  same_docs : map doc (calls s) = texts;
  own_file : Forall (writing_own (on_disk s)) (calls s)
}.

(** The steps of a call of which [Persist.savePrices] lists the states:
    the world of the call tells how far the write gets, taken one
    character at a time, and whether the rename and the removal work. *)
Definition script (w : world) (text : string) : list action :=
  match write w with
  | CannotOpen => [Throw (unlink_ok w)]
  | FailsAfter n =>
      Open :: repeat (Write 1) (Nat.min n (String.length text))
      ++ [Throw (unlink_ok w)]
  | Completes =>
      Open :: repeat (Write 1) (String.length text)
      ++ [if rename_ok w then Rename else Throw (unlink_ok w)]
  end.

(** What the two names show. *)
Definition view (d : disk) : option string * option string :=
  (read_target d, read_temp d).

(** A call alone on the disk, in the middle of its write. *)
Definition writing_alone (old : option string) (text : string) (p : nat)
  (s : system) : Prop :=
  exists objs tgt fd,
    s = mkSystem (mkDisk objs tgt (Some fd)) [mkCall text (Writing fd p)]
    /\ objs !! fd = Some (String.substring 0 p text)
    /\ tgt <> Some fd
    /\ tgt ≫= (fun i => objs !! i) = old.

End Saves.

(* ===================================================================== *)
(** * Price alerts ([pctChange], [checkTickersAndAlert]) *)
(* ===================================================================== *)

Module Alerts.
Import JsNumber Async.

(** An entry of [prices.json]; a [price] that is missing or [null] is
    [None]. *)
Record entry : Type := mkEntry {
  price : option float;
  updated : string
}.

Abbreviation prices := (gmap string entry).

(** [pctChange]; [None] is [null]. *)
Definition pctChange (oldP newP : option float) : option float :=
  match oldP, newP with
  | Some oldP, Some newP =>
      if (oldP =? 0)%float then None
      else Some (((newP - oldP) / oldP) * 100)%float
  | _, _ => None
  end.

(** [pricesState[t] ? pricesState[t].price : null] *)
Definition previous (data : prices) (t : string) : option float :=
  match data !! t with
  | Some e => price e
  | None => None
  end.

(** There is nothing to compare the new price with: no previous price,
    or a previous price of 0. *)
Definition baseless (prev : option float) : bool :=
  match prev with
  | Some oldP => (oldP =? 0)%float
  | None => true
  end.

Inductive report : Type :=
| Quote (price : float) (prev change : option float)
| Error (message : string).

Inductive event : Type :=
| Mail (to : string) (subject text : template)
| SavePrices (data : prices) (filename : string).

(** What the world does during the turn of one ticker: the outcome of
    [fetchPriceForTicker], the outcome of [sendMail] if it is called,
    and the time [new Date().toISOString()] reads. *)
Record turn : Type := mkTurn {
  fetched : settled float;
  mailed : settled unit;
  now : string
}.

Record state : Type := mkState {
  pricesState : prices;
  results : gmap string report;
  trace : list event
}.

Section Check.
Variable up down : float.        (* the parsed thresholds *)
Variable receiver : string.
Variable filename : string.      (* opts.PRICES_FILE || 'prices.json' *)

(** [pricesState[t] = { price, updated }; await savePrices(...)] *)
Definition record_price (t : string) (price : float) (w : turn) (s : state)
  : state :=
  let data := <[t := mkEntry (Some price) (now w)]> (pricesState s) in
  mkState data (results s) (trace s ++ [SavePrices data filename]).

Definition alert (sign : string) (threshold : float) (verb : string)
  (t : string) (prev price change : float) : event :=
  Mail receiver
    [Lit "ALERT "; Lit sign; Num threshold; Lit "% "; Lit t; Lit " (";
     toFixed2 change; Lit "%)"]
    [Lit t; Lit verb; Num prev; Lit " to "; Num price; Lit " (";
     toFixed2 change; Lit "%)"].

(** [await sendMail(...)] followed by the update, inside the [try]. *)
Definition notify_then_record (m : event) (t : string) (price : float)
  (w : turn) (s : state) : state :=
  let s := mkState (pricesState s) (results s) (trace s ++ [m]) in
  match mailed w with
  | Fulfilled _ => record_price t price w s
  | Failed e =>
      mkState (pricesState s) (<[t := Error e]> (results s)) (trace s)
  end.

(** The body of the [for] loop for ticker [t]. *)
Definition check_ticker (t : string) (w : turn) (s : state) : state :=
  match fetched w with
  | Failed e =>
      mkState (pricesState s) (<[t := Error e]> (results s)) (trace s)
  | Fulfilled price =>
      let prev := previous (pricesState s) t in
      let change :=
        match prev with
        | Some _ => pctChange prev (Some price)
        | None => None
        end in
      let s :=
        mkState (pricesState s)
          (<[t := Quote price prev change]> (results s)) (trace s) in
      match prev, change with
      | Some prev, Some change =>
          if (up <=? change)%float then
            notify_then_record
              (alert "+" up " jumped from " t prev price change)
              t price w s
          else if (change <=? - down)%float then
            notify_then_record
              (alert "-" down " dropped from " t prev price change)
              t price w s
          else record_price t price w s
      | _, _ => record_price t price w s
      end
  end.

(** [checkTickersAndAlert]: the tickers in order, the [i]-th of them
    in the world [world i]. *)
Fixpoint check_from (i : nat) (tickers : list string) (world : nat -> turn)
  (s : state) : state :=
  match tickers with
  | [] => s
  | t :: rest => check_from (S i) rest world (check_ticker t (world i) s)
  end.

Definition checkTickersAndAlert (tickers : list string)
  (pricesState : prices) (world : nat -> turn) : state :=
  check_from 0 tickers world (mkState pricesState ∅ []).
End Check.

(** The scenario of the specification: one ticker with a previous
    price, thresholds of 5 percent both ways, a new price, and a mail
    transport that accepts the alert or fails. *)
Definition scenario (oldP newP : float) (mail : settled unit) : state :=
  checkTickersAndAlert 5 5 "alerts@example.com" "prices.json" ["NIIS"]
    {[ "NIIS" := mkEntry (Some oldP) "2025-09-25T08:00:00.000Z" ]}
    (fun _ => mkTurn (Fulfilled newP) mail "2025-09-26T08:00:00.000Z").

Definition scenario_saved (newP : float) : event :=
  SavePrices {[ "NIIS" := mkEntry (Some newP) "2025-09-26T08:00:00.000Z" ]}
    "prices.json".

End Alerts.

(* ===================================================================== *)
(** * The IMAP reconnect scheduler ([startImapPolling]) *)
(* ===================================================================== *)

Module Mailbox.
Local Open Scope Z_scope.

(** The variables of the closure. [reconnectTimer] holds the delay of
    the pending timer. *)
Record state : Type := mkState {
  stopped : bool;
  connection : bool;               (* a connection object, or [null] *)
  pollInterval : bool;             (* the poll timer, or [null] *)
  reconnectTimer : option Z;
  reconnectAttempts : Z
}.

Definition initial : state := mkState false false false None 0.

Definition MAX_RECONNECT : Z := 10.

(** [scheduleReconnect]: the poll timer is cleared, the connection is
    dropped, the counter is bumped and a timer replaces the pending
    one. *)
Definition scheduleReconnect (s : state) : state :=
  if stopped s then s
  else
    let attempts := reconnectAttempts s + 1 in
    if attempts >? MAX_RECONNECT
    then mkState false false false (Some 60000) 0
    else mkState false false false
           (Some (Z.min 30000 (1000 * 2 ^ attempts))) attempts.

(** The delay [scheduleReconnect] chooses in state [s]. *)
Definition delay (s : state) : option Z :=
  reconnectTimer (scheduleReconnect s).

(** What the server does during one [connect]. *)
Record world : Type := mkWorld {
  connect_ok : bool;     (* imaps.connect resolves *)
  openBox_ok : bool      (* connection.openBox('INBOX') resolves *)
}.

Definition connect (w : world) (s : state) : state :=
  if stopped s then s
  else if connect_ok w then
    let s := mkState (stopped s) true (pollInterval s) (reconnectTimer s) 0 in
    if openBox_ok w
    then mkState (stopped s) true true (reconnectTimer s) (reconnectAttempts s)
    else scheduleReconnect s
  else scheduleReconnect s.

(** The pending timer fires. *)
Definition timer_fires (w : world) (s : state) : state :=
  connect w
    (mkState (stopped s) (connection s) (pollInterval s) None
       (reconnectAttempts s)).

(** [n] calls of [scheduleReconnect] in a row. *)
Fixpoint failures (n : nat) (s : state) : state :=
  match n with
  | O => s
  | S n' => scheduleReconnect (failures n' s)
  end.

End Mailbox.

(* ===================================================================== *)
(** * The news watcher ([processFirstItemIfToday] of pdfAlertTracker.js) *)
(* ===================================================================== *)

Module News.
Import JsString Regex JsNumber Async.
Local Open Scope Z_scope.

Record date : Type := mkDate { day : Z; month : Z; year : Z }.

(** [/(\d{1,2})\.(\d{1,2})\.(\d{4})\.?/] *)
Definition re_date : regex :=
  [Mark; Rep isDigit 1 (Some 2%nat); Mark; Rep isDot 1 (Some 1%nat);
   Mark; Rep isDigit 1 (Some 2%nat); Mark; Rep isDot 1 (Some 1%nat);
   Mark; Rep isDigit 4 (Some 4%nat); Mark; Rep isDot 0 (Some 1%nat)].

Definition parseInt10 (s : string) : Z := digits_value (chars s).

Definition parseDateFromTd (text : string) : option date :=
  match matches re_date text with
  | Some [d; m; y] => Some (mkDate (parseInt10 d) (parseInt10 m) (parseInt10 y))
  | _ => None
  end.

Definition same_day (a b : date) : bool :=
  (day a =? day b) && (month a =? month b) && (year a =? year b).

Definition escape_char (c : ascii) : list ascii :=
  let n := code c in
  if (n =? 38)%nat then chars "&amp;"
  else if (n =? 60)%nat then chars "&lt;"
  else if (n =? 62)%nat then chars "&gt;"
  else if (n =? 34)%nat then chars "&quot;"
  else if (n =? 39)%nat then chars "&#039;"
  else [c].

(** [escapeHtml]: the five replacements in a row, the ampersand first,
    come to one replacement per character. *)
Definition escapeHtml (unsafe : string) : string :=
  of_chars (flat_map escape_char (chars unsafe)).

(** The double quote character, as a string. *)
Definition dquote : string := String (ascii_of_nat 34) "".

(** [a || b] on strings *)
Definition or_else (a b : string) : string :=
  if String.eqb a "" then b else a.

(** The first PDF link of the row. *)
Record link : Type := mkLink {
  pdfUrl : string;       (* new URL(href, url).href *)
  title : string;        (* linkEl.attr('title') || '' *)
  text : string          (* linkEl.text() *)
}.

(** The row of the first [td.date] of the page. [ticker] is what the
    row's [data-ticker] attribute, then [findTickerFromText] on the row
    text, then [findTickerFromText] on the PDF file name give for the
    given alert keys. *)
Record row : Type := mkRow {
  date_text : string;
  pdf_link : option link;
  ticker : list string -> option string;
  tekst : string
}.

(** What the world does during one call. *)
Record world : Type := mkWorld {
  html : settled (option row);      (* fetchHTML, then the first td.date *)
  today : date;                     (* getTodayPartsInBelgrade() *)
  downloaded : settled string;      (* downloadPDF: the local path *)
  extracted : option string;        (* extractTextFromPDFBuffer *)
  quoted : option string;           (* fetchPriceForTicker *)
  smtp : option (settled unit)      (* no transporter, or what sendMail does *)
}.

Inductive event : Type :=
| FetchHTML (url : string)
| Download (url : string)
| Email (to : list string) (subject htmlBody : string) (attachment : string)
| WriteSeen (seen : list string).

(** [alerts]: the JSON object, key by key in order. *)
Definition alerts_t : Type := list (string * list string).

Definition recipients_of (alerts : alerts_t) (t : option string) : list string :=
  match t with
  | Some t =>
      match find (fun kv => String.eqb (fst kv) t) alerts with
      | Some kv => snd kv
      | None => []
      end
  | None => []
  end.

(** The seen-set, in insertion order. *)
Definition has (seenSet : list string) (x : string) : bool :=
  existsb (String.eqb x) seenSet.
Definition add (seenSet : list string) (x : string) : list string :=
  if has seenSet x then seenSet else seenSet ++ [x].

Definition subject_of (t : option string) (l : link) (localPath : string)
  : string :=
  "VEST: " ++ match t with Some t => t ++ " - " | None => "" end
  ++ escapeHtml (or_else (title l) (or_else (text l) localPath)).

Definition body_of (t : option string) (tr : row) (subject : string)
  (w : world) : string :=
  "<h3>" ++ escapeHtml (or_else (trim (tekst tr)) subject) ++ "</h3>"
  ++ match quoted w, t with
     | Some price, Some t =>
         if String.eqb price "" then ""
         else "<p><strong>Trenutna cena za " ++ t ++ ":</strong> "
              ++ escapeHtml price ++ "</p>"
     | _, _ => ""
     end
  ++ match extracted w with
     | Some e =>
         if String.eqb e "" then ""
         else "<pre style=" ++ dquote ++ "white-space:pre-wrap" ++ dquote
              ++ ">" ++ String.substring 0 (100 * 100) (escapeHtml e)
              ++ "</pre>"
     | None => ""
     end
  ++ "<p>U prilogu je originalni PDF.</p>".

(** After the download: the part inside the [try]. *)
Definition deliver (alerts : alerts_t) (seenSet : list string) (tr : row)
  (l : link) (t : option string) (localPath : string) (w : world)
  : list string * list event :=
  let recipients := recipients_of alerts t in
  match recipients with
  | [] =>
      let seen := add seenSet (pdfUrl l) in
      (seen, [WriteSeen seen])
  | _ :: _ =>
      let subject := subject_of t l localPath in
      let mail := Email recipients subject (body_of t tr subject w) localPath in
      match smtp w with
      | None =>
          let seen := add seenSet (pdfUrl l) in
          (seen, [WriteSeen seen])
      | Some (Fulfilled _) =>
          let seen := add seenSet (pdfUrl l) in
          (seen, [mail; WriteSeen seen])
      | Some (Failed _) => (seenSet, [mail])
      end
  end.

(** [processFirstItemIfToday(alerts, seenSet, url)]: the seen-set after
    the call and what the call did. *)
Definition processFirstItemIfToday (alerts : alerts_t)
  (seenSet : list string) (url : string) (w : world)
  : list string * list event :=
  match html w with
  | Failed _ | Fulfilled None => (seenSet, [FetchHTML url])
  | Fulfilled (Some tr) =>
      match parseDateFromTd (trim (date_text tr)) with
      | None => (seenSet, [FetchHTML url])
      | Some parsedDate =>
          if negb (same_day parsedDate (today w))
          then (seenSet, [FetchHTML url])
          else
            match pdf_link tr with
            | None => (seenSet, [FetchHTML url])
            | Some linkEl =>
                if has seenSet (pdfUrl linkEl)
                then (seenSet, [FetchHTML url])
                else
                  let t := ticker tr (map fst alerts) in
                  match downloaded w with
                  | Failed _ =>
                      (seenSet, [FetchHTML url; Download (pdfUrl linkEl)])
                  | Fulfilled localPath =>
                      let '(seen, did) :=
                        deliver alerts seenSet tr linkEl t localPath w in
                      (seen,
                       FetchHTML url :: Download (pdfUrl linkEl) :: did)
                  end
            end
      end
  end.

(** [JSON.stringify({ seen: Array.from(seenSet) }, null, 2)], the text
    that [writeJSON] puts into the seen file, for identifiers that need no
    escaping (the identifiers are [href]s of URL objects). *)
Definition newline : string := String (ascii_of_nat 10) "".

Fixpoint stringify_items (items : list string) : string :=
  match items with
  | [] => ""
  | [x] => "    " ++ dquote ++ x ++ dquote ++ newline
  | x :: rest =>
      "    " ++ dquote ++ x ++ dquote ++ "," ++ newline ++ stringify_items rest
  end.

Definition stringify_seen (seen : list string) : string :=
  match seen with
  | [] => "{" ++ newline ++ "  " ++ dquote ++ "seen" ++ dquote ++ ": []"
          ++ newline ++ "}"
  | _ :: _ =>
      "{" ++ newline ++ "  " ++ dquote ++ "seen" ++ dquote ++ ": [" ++ newline
      ++ stringify_items seen ++ "  ]" ++ newline ++ "}"
  end.

(** The row of the example in the header of the tracker: a news item of
    26.09.2025 with its PDF, on the page of NIIS. *)
Definition sample_link : link :=
  mkLink "https://www.belex.rs/data/2025/09/00143497.pdf" ""
    "Izvestaj o znacajnom dogadjaju".

Definition sample_row : row :=
  mkRow "26.09.2025." (Some sample_link)
    (fun keys => if existsb (String.eqb "NIIS") keys then Some "NIIS" else None)
    "NIS a.d. Novi Sad - Izvestaj".

Definition sample_world : world :=
  mkWorld (Fulfilled (Some sample_row)) (mkDate 26 9 2025)
    (Fulfilled "pdfs/1758873600000-00143497.pdf") None (Some "812")
    (Some (Fulfilled tt)).

Definition sample_alerts : alerts_t := [("NIIS", ["trader@example.com"])].

Definition sample_url : string :=
  "https://www.belex.rs/trgovanje/vesti/hartija/NIIS".

(** The call wrote the seen file. *)
Definition marked (did : list event) : bool :=
  existsb (fun e => match e with WriteSeen _ => true | _ => false end) did.

Definition emails (trace : list event) : list event :=
  List.filter
    (fun e => match e with Email _ _ _ _ => true | _ => false end) trace.
Definition downloads (trace : list event) : list event :=
  List.filter
    (fun e => match e with Download _ => true | _ => false end) trace.

(** What a [WriteSeen] does to the disk:
    [writeJSON(SEEN_FILE, { seen: Array.from(seenSet) })]. The other
    events leave the seen file alone. *)
Definition write_seen (ww : Persist.write_world) (fs : Persist.files)
  (SEEN_FILE : string) (e : event) : list Persist.files :=
  match e with
  | WriteSeen seen => Persist.writeJSON ww fs SEEN_FILE (stringify_seen seen)
  | _ => []
  end.

End News.

(* ===================================================================== *)
(** * Readings of the alert trace *)
(* ===================================================================== *)

Module AlertsLog.
Import Alerts.

(** The data of the last [savePrices] call of a trace. *)
Definition last_saved (trace : list event) : option prices :=
  List.last
    (map (fun e => match e with
                   | SavePrices data _ => Some data
                   | Mail _ _ _ => None
                   end)
       (List.filter (fun e => match e with
                              | SavePrices _ _ => true
                              | Mail _ _ _ => false
                              end) trace))
    None.

(** The mails of a trace. *)
Definition mails (trace : list event) : list event :=
  List.filter (fun e => match e with
                        | Mail _ _ _ => true
                        | SavePrices _ _ => false
                        end) trace.

(** The turns of a run in which the price was fetched. *)
Definition fetched_turns (world : nat -> turn) (i n : nat) : list nat :=
  List.filter (fun j => match fetched (world j) with
                        | Async.Fulfilled _ => true
                        | Async.Failed _ => false
                        end) (seq i n).

(** The worlds of a run from which the [i]-th ticker is taken out. *)
Definition without (i : nat) (world : nat -> turn) : nat -> turn :=
  fun j => if (j <? i)%nat then world j else world (S j).

End AlertsLog.

(* ===================================================================== *)
(** * One pass of the news tracker ([checkAllTickersOnce]) *)
(* ===================================================================== *)

Module Tracker.
Import Async News.

(** The [for (const url of NEWS_LIST_URLS)] loop over the one seen-set of
    the closure; the [i]-th call of [processFirstItemIfToday] meets the
    world [world i]. *)
Fixpoint check_urls (alerts : alerts_t) (urls : list string)
  (world : nat -> world) (i : nat) (seenSet : list string)
  : list string * list event :=
  match urls with
  | [] => (seenSet, [])
  | url :: rest =>
      let '(seen, did) := processFirstItemIfToday alerts seenSet url (world i) in
      let '(seen', did') := check_urls alerts rest world (S i) seen in
      (seen', did ++ did')
  end.

Definition checkAllTickersOnce (alerts : alerts_t) (seenSet : list string)
  (urls : list string) (world : nat -> world) : list string * list event :=
  check_urls alerts urls world 0 seenSet.

(** The documents handed to [writeJSON] for the seen file, in order. *)
Definition writes (trace : list event) : list (list string) :=
  omap (fun e => match e with WriteSeen seen => Some seen | _ => None end)
    trace.

End Tracker.

(* ===================================================================== *)
(** * The life of the IMAP listener ([startImapPolling], [stop]) *)
(* ===================================================================== *)

Module Listener.
Import Mailbox.
Local Open Scope Z_scope.

(** The returned [stop] function, with [safeEndConnection] taken to its
    end. *)
Definition stop (s : state) : state :=
  mkState true false false None (reconnectAttempts s).

(** What can happen to the listener: a [connect] runs, the connection
    reports an error, a close or an end or a poll fails (each of these
    calls [scheduleReconnect]), the pending timer fires, [stop] is
    called. *)
Inductive event : Type :=
| Connect (w : world)
| Dropped
| TimerFires (w : world)
| Stop.

Definition step (s : state) (e : event) : state :=
  match e with
  | Connect w => connect w s
  | Dropped => scheduleReconnect s
  | TimerFires w =>
      match reconnectTimer s with
      | Some _ => timer_fires w s
      | None => s
      end
  | Stop => stop s
  end.

Definition run (s : state) (events : list event) : state :=
  fold_left step events s.

(** The delays the scheduler can choose. *)
Definition delays : list Z := [2000; 4000; 8000; 16000; 30000; 60000].

(** What every event keeps true. *)
Definition sound (s : state) : Prop :=
  0 <= reconnectAttempts s <= MAX_RECONNECT
  /\ (forall d, reconnectTimer s = Some d -> In d delays)
  /\ (stopped s = true -> reconnectTimer s = None).

End Listener.

(* ===================================================================== *)
(** * Callers of the page pool

    What [fetchPriceForTicker] and the workers of the server do with the
    pool: a page is taken with [getPage], sent to a document, and given
    back with [releasePage]. Several callers may hold pages at the same
    time; the calls themselves run one at a time, as in [Pool]. *)
(* ===================================================================== *)

Module PoolUse.
Import Pool.

Inductive action : Type :=
| Take
| Visit (p : page_id) (target : string)     (* [p.goto(url)] resolves *)
| GiveBack (p : page_id) (w : page_world).

Section Use.
Variable opt : option Z.
Variable default : Z.

(** One action on the pool and on the pages that are held. A caller
    visits and gives back only a page it holds; [None] is a script that
    does otherwise. *)
Definition act (sh : state * list page_id) (a : action)
  : option (state * list page_id) :=
  let '(s, held) := sh in
  match a with
  | Take =>
      let '(p, s', _) := getPage s in Some (s', p :: held)
  | Visit p target =>
      if decide (p ∈ held) then Some (set_location p target s, held) else None
  | GiveBack p w =>
      if decide (p ∈ held)
      then Some (fst (releasePage (Some p) opt default w s),
                 filter (fun q => q <> p) held)
      else None
  end.

Fixpoint use (sh : state * list page_id) (script : list action)
  : option (state * list page_id) :=
  match script with
  | [] => Some sh
  | a :: script' =>
      match act sh a with
      | Some sh' => use sh' script'
      | None => None
      end
  end.
End Use.

Definition blank : page_info := mkInfo "about:blank" false.

(** The pool and the pages held are two separate sets of open pages,
    and the pages of the pool show about:blank. *)
Record tidy (s : state) (held : list page_id) : Prop := mkTidy {
  pool_nodup : NoDup (pagePool s);
  held_nodup : NoDup held;
  pool_not_held : forall p, p ∈ pagePool s -> p ∉ held;
  pool_blank : forall p, p ∈ pagePool s -> pages s !! p = Some blank;
  held_open : forall p, p ∈ held -> closed <$> pages s !! p = Some false;
  known : forall p, p ∈ pagePool s \/ p ∈ held -> (p < fresh s)%nat
}.

End PoolUse.

(* ===================================================================== *)
(** * Digits in texts and patterns *)
(* ===================================================================== *)

Module Digits.
Import JsString Regex.

(** The text holds a digit. *)
Definition has_digit (l : list ascii) : bool := existsb isDigit l.

(** The shape of the number groups of the sources: a mark, one digit or
    more, two more repetitions, a mark. *)
Definition number_group (h1 : option nat) (c2 : ascii -> bool) (l2 : nat)
  (h2 : option nat) (c3 : ascii -> bool) (l3 : nat) (h3 : option nat)
  : regex :=
  [Mark; Rep isDigit 1 h1; Rep c2 l2 h2; Rep c3 l3 h3; Mark].

End Digits.

(* ===================================================================== *)
(** * The selector paths of [fetchPriceForTicker]

    What [fetchPriceForTicker] does with the loaded page when a selector
    is configured: the [xpath:] path with its three steps, and the CSS
    path. As in [Locator], the page is given by what its queries do. *)
(* ===================================================================== *)

Module Selector.
Import JsString Regex JsNumber Extract Async Locator.

(** [[:\s]] *)
Definition isColonSpace (c : ascii) : bool := (code c =? 58)%nat || isSpace c.

(** [/(?:Price|Cena)[:\s]*([0-9]+[.,][0-9]{1,6})/i] *)
Definition insidePattern : regex :=
  [Alt [word "Price"; word "Cena"] true; Rep isColonSpace 0 None;
   Mark; Rep isDigit 1 None; Rep isSep 1 (Some 1%nat);
   Rep isDigit 1 (Some 6%nat); Mark].

(** [/(?:Price|Cena)([0-9]+[.,][0-9]{1,6})/i] *)
Definition adjacentPattern : regex :=
  [Alt [word "Price"; word "Cena"] true;
   Mark; Rep isDigit 1 None; Rep isSep 1 (Some 1%nat);
   Rep isDigit 1 (Some 6%nat); Mark].

(** [m ? m[1] : null] *)
Definition group1 (m : option (list string)) : option string :=
  match m with
  | Some m => Some (nth 0 m "")
  | None => None
  end.

(** The callback of the second [evaluate], on [el.textContent || '']. *)
Definition candidate_inside (t : string) : option string :=
  group1 (matches insidePattern t).

(** The callback of the third [evaluate], on the page text: the two
    patterns in turn. *)
Definition page_candidate (body : string) : option string :=
  match matches insidePattern body with
  | Some m => Some (nth 0 m "")
  | None => group1 (matches adjacentPattern body)
  end.

(** [if (candidate) { const val = parseFloat(candidate.replace(',', '.'));
    if (!isNaN(val)) return val; }] *)
Definition parsed (candidate : option string) : option float :=
  match candidate with
  | Some c =>
      if String.eqb c "" then None
      else
        let val := parseFloat (replace_first ","%char "." c) in
        if negb (isNaN val) then Some val else None
  | None => None
  end.

(** An [evaluate] whose failure is swallowed by its [try]. *)
Definition attempt (read : settled string) (f : string -> option string)
  : option string :=
  match read with
  | Fulfilled t => f t
  | Failed _ => None
  end.

(** The first element matched by the XPath: what the two reads of its
    [textContent] give. *)
Record element : Type := mkElement {
  textContent : settled string;
  textAgain : settled string
}.

(** The page as the selector paths see it. *)
Record page : Type := mkPage {
  found : settled (list element);      (* [p.$x(xp)] *)
  waited : settled unit;               (* [p.waitForSelector(selector)] *)
  selected : settled string;           (* [p.$eval(selector, ...)], untrimmed *)
  content : Locator.page
}.

(** The three steps on the first matched element. *)
Definition xpath_steps (el : element) (body : settled string) : settled float :=
  match textContent el with
  | Failed e => Failed e
  | Fulfilled t =>
      let txt := trim t in
      let num := extractNumberFromString txt in
      if negb (isNaN num) then Fulfilled num
      else
        match parsed (attempt (textAgain el) candidate_inside) with
        | Some val => Fulfilled val
        | None =>
            match parsed (attempt body page_candidate) with
            | Some val2 => Fulfilled val2
            | None =>
                Failed
                  ("XPath found element but text could not be parsed as number: "
                   ++ txt)
            end
        end
  end.

(** The [catch] that rewraps the error of a selector path. *)
Definition rewrap (prefix : string) (selector url : string)
  (r : settled float) : settled float :=
  match r with
  | Fulfilled v => Fulfilled v
  | Failed m =>
      Failed (prefix ++ "'" ++ selector ++ "' on " ++ url ++ ": " ++ m)
  end.

Definition xpath_price (selector url : string) (p : page) : settled float :=
  let xp := of_chars (skipn 6 (chars selector)) in
  rewrap "Failed to extract price using xpath selector " selector url
    match found p with
    | Failed e => Failed e
    | Fulfilled [] => Failed ("XPath did not match any elements: " ++ xp)
    | Fulfilled (el :: _) => xpath_steps el (innerText (content p))
    end.

Definition css_price (selector url : string) (p : page) : settled float :=
  rewrap "Failed to extract price using selector " selector url
    match waited p with
    | Failed e => Failed e
    | Fulfilled _ =>
        match selected p with
        | Failed e => Failed e
        | Fulfilled t =>
            let txt := trim t in
            let num := extractNumberFromString txt in
            if negb (isNaN num) then Fulfilled num
            else
              Failed
                ("Parsed selector text but could not convert to number: "
                 ++ News.dquote ++ txt ++ News.dquote)
        end
    end.

(** [fetchPriceForTicker] from the loaded page on; the selector is a
    string, the empty one standing for no selector ([null], [undefined]
    or ['']). *)
Definition price_from_page (ticker selector url : string) (p : page)
  : settled float :=
  if String.eqb selector "" then Locator.fetchPriceForTicker ticker (content p)
  else if prefix_of false (chars "xpath:") (chars selector)
       then xpath_price selector url p
       else css_price selector url p.

(** The [xpath:] path without its second step and without the second
    page pattern. *)
Definition xpath_steps_short (el : element) (body : settled string)
  : settled float :=
  match textContent el with
  | Failed e => Failed e
  | Fulfilled t =>
      let txt := trim t in
      let num := extractNumberFromString txt in
      if negb (isNaN num) then Fulfilled num
      else
        match parsed (attempt body candidate_inside) with
        | Some val2 => Fulfilled val2
        | None =>
            Failed
              ("XPath found element but text could not be parsed as number: "
               ++ txt)
        end
  end.

End Selector.

(* ===================================================================== *)
(** * Loading the persisted prices ([loadPrices]) *)
(* ===================================================================== *)

Module Store.
Import Persist.

(** What [JSON.parse] does with a text: it throws, or it returns a value
    that is falsy ([null], [0], [false], an empty string), or it returns
    any other value. *)
Inductive parsed (data : Type) : Type :=
| SyntaxError
| Falsy
| Value (d : data).
Arguments SyntaxError {data}.
Arguments Falsy {data}.
Arguments Value {data} d.

(** What the world does during one [loadPrices]: whether [readFile]
    resolves, how the three writes go (the file that is created, the
    backup, the file that is reset), and what [Date.now()] reads. *)
Record load_world : Type := mkLoad {
  read_ok : bool;
  create : write_world;
  backup : write_world;
  reset : write_world;
  now : string
}.

Section Load.
Variable data : Type.
Variable empty : data.                    (* the object [{}] *)
Variable parse : string -> parsed data.   (* [JSON.parse] *)

(** [loadPrices(filename)], where [f] is the resolved path: the value
    returned and the file system it leaves. The text of
    [JSON.stringify({}, null, 2)] is [{}]. A write that fails throws, and
    the error is swallowed like every other. *)
Definition loadPrices (w : load_world) (fs : files) (f : string)
  : data * files :=
  match fs !! f with
  | None => (empty, List.last (writeFile fs f "{}" (create w)) fs)
  | Some txt =>
      if read_ok w then
        match parse txt with
        | Value d => (d, fs)
        | Falsy => (empty, fs)
        | SyntaxError =>
            let fs1 :=
              List.last
                (writeFile fs (f ++ ".bak." ++ now w) txt (backup w)) fs in
            (empty, List.last (writeFile fs1 f "{}" (reset w)) fs1)
        end
      else (empty, fs)
  end.
End Load.

(** A stand-in for [JSON.parse] in examples: the documents are taken as
    they are, and a document parses when it starts with a brace. *)
Definition sample_parse (s : string) : parsed string :=
  match s with
  | String "{" _ => Value s
  | _ => SyntaxError
  end.

End Store.

(* ===================================================================== *)
(** * Escaping for the mail body ([escapeHtml]), as the source has it *)
(* ===================================================================== *)

Module Html.
Import JsString.

(** [s.replace(/a/g, b)] for a one-character pattern and a replacement
    without dollar signs. *)
Definition replace_all_chars (a : ascii) (b l : list ascii) : list ascii :=
  flat_map (fun c => if Ascii.eqb c a then b else [c]) l.
Definition replace_all (a : ascii) (b s : string) : string :=
  of_chars (replace_all_chars a (chars b) (chars s)).

(** [escapeHtml]: the five replacements in a row. *)
Definition escapeHtml (unsafe : string) : string :=
  if String.eqb unsafe "" then ""
  else
    replace_all "'"%char "&#039;"
      (replace_all (ascii_of_nat 34) "&quot;"
         (replace_all ">"%char "&gt;"
            (replace_all "<"%char "&lt;"
               (replace_all "&"%char "&amp;" unsafe)))).

(** The characters that open or close a tag or an attribute value. *)
Definition markup (c : ascii) : bool :=
  (code c =? 60)%nat || (code c =? 62)%nat || (code c =? 34)%nat
  || (code c =? 39)%nat.

End Html.

(* ===================================================================== *)
(** * Tickers from texts and in URLs ([parseTickersFromSubject], the
      ticker list of the server, the price URL) *)
(* ===================================================================== *)

Module Tickers.
Import JsString.

(** [[ ,;|]] *)
Definition isDelim (c : ascii) : bool :=
  (code c =? 32)%nat || (code c =? 44)%nat || (code c =? 59)%nat
  || (code c =? 124)%nat.

(** [s.split(/[...]+/)] for a character class: the pieces between the
    maximal runs of the class, with an empty piece before a run at the
    start and after a run at the end. [in_run] tells that the previous
    character was in the class. *)
Fixpoint split_runs (cls : ascii -> bool) (in_run : bool) (l : list ascii)
  : list (list ascii) :=
  match l with
  | [] => [[]]
  | c :: l' =>
      if cls c
      then (if in_run then split_runs cls true l'
            else [] :: split_runs cls true l')
      else
        match split_runs cls false l' with
        | p :: ps => (c :: p) :: ps
        | [] => [[c]]
        end
  end.

(** [toUpperCase] on the ASCII letters. The texts are taken to be ASCII:
    outside ASCII the function of the language also maps letters that
    this one leaves alone. *)
Definition upper (c : ascii) : ascii :=
  if ((97 <=? code c)%nat && (code c <=? 122)%nat)
  then ascii_of_nat (code c - 32) else c.
Definition toUpperCase (l : list ascii) : list ascii := map upper l.

Definition ascii_only (s : string) : Prop :=
  Forall (fun c => (code c < 128)%nat) (chars s).

(** [Boolean] on a string *)
Definition nonempty (l : list ascii) : bool :=
  match l with
  | [] => false
  | _ :: _ => true
  end.

(** [parseTickersFromSubject] *)
Definition parseTickersFromSubject (subject : string) : list string :=
  if String.eqb subject "" then []
  else
    let parts :=
      List.filter nonempty
        (map trim_chars (split_runs isDelim false (chars subject))) in
    map (fun p => of_chars (toUpperCase p)) parts.

(** The tickers the server tracks from the start:
    [(process.env.TRACK_TICKERS || '').split(/[ ,;|]+/)
       .map(s => s.trim().toUpperCase()).filter(Boolean)] *)
Definition envTickers (TRACK_TICKERS : string) : list string :=
  map of_chars
    (List.filter nonempty
       (map (fun s => toUpperCase (trim_chars s))
          (split_runs isDelim false (chars TRACK_TICKERS)))).

(** [A-Z a-z 0-9 - _ . ! ~ * ' ( )] *)
Definition unreserved (c : ascii) : bool :=
  let n := code c in
  ((65 <=? n)%nat && (n <=? 90)%nat) || ((97 <=? n)%nat && (n <=? 122)%nat)
  || ((48 <=? n)%nat && (n <=? 57)%nat)
  || (n =? 45)%nat || (n =? 95)%nat || (n =? 46)%nat || (n =? 33)%nat
  || (n =? 126)%nat || (n =? 42)%nat || (n =? 39)%nat || (n =? 40)%nat
  || (n =? 41)%nat.

Definition hex_digit (n : nat) : ascii :=
  nth n (chars "0123456789ABCDEF") "0"%char.

(** One byte, percent-encoded. *)
Definition percent (byte : nat) : list ascii :=
  ["%"%char; hex_digit (byte / 16); hex_digit (byte mod 16)].

(** [encodeURIComponent] on the code units below 256: what is not
    unreserved is written as the bytes of its UTF-8 encoding, one byte
    below 128 and two bytes from 128 on. *)
Definition encode_char (c : ascii) : list ascii :=
  let n := code c in
  if unreserved c then [c]
  else if (n <? 128)%nat then percent n
  else (percent (192 + n / 64) ++ percent (128 + n mod 64))%list.

Definition encodeURIComponent (s : string) : string :=
  of_chars (flat_map encode_char (chars s)).

(** [s.replace(pattern, replacement)] for a string pattern and a
    replacement without dollar sign: the first occurrence is replaced. *)
Fixpoint replace_str (pattern replacement l : list ascii) : list ascii :=
  if prefix_of false pattern l
  then (replacement ++ skipn (length pattern) l)%list
  else
    match l with
    | [] => []
    | c :: l' => c :: replace_str pattern replacement l'
    end.

(** [urlTemplate.replace('{TICKER}', encodeURIComponent(ticker))] *)
Definition price_url (urlTemplate ticker : string) : string :=
  of_chars
    (replace_str (chars "{TICKER}") (chars (encodeURIComponent ticker))
       (chars urlTemplate)).

(** What may stand in an encoded component. *)
Definition component_char (c : ascii) : bool :=
  unreserved c || Ascii.eqb c "%"%char.

End Tickers.

(* ===================================================================== *)
(** * The reply to a price request (the mail handler of the server) *)
(* ===================================================================== *)

Module Reply.
Import JsString JsNumber.

(** An entry of the [results] object of the handler; a ticker without
    entry reads [undefined]. *)
Inductive result : Type :=
| Price (price : float)
| Failure (error : string).

Definition line_feed : ascii := ascii_of_nat 10.
Definition backslash : ascii := ascii_of_nat 92.

(** The string that ['\\n'] denotes: a backslash and the letter n. *)
Definition separator : string := String backslash "n".

(** The line of one ticker. An error that is the empty string is falsy,
    and the line then shows the missing price. *)
Definition line (t : string) (r : option result) : template :=
  match r with
  | None => [Lit t; Lit ": no data"]
  | Some (Failure error) =>
      if String.eqb error "" then [Lit t; Lit ": "; Lit "undefined"]
      else [Lit t; Lit ": error ("; Lit error; Lit ")"]
  | Some (Price price) => [Lit t; Lit ": "; Num price]
  end.

(** [lines.join(sep)] *)
Fixpoint join (sep : string) (lines : list template) : template :=
  match lines with
  | [] => []
  | [l] => l
  | l :: rest => l ++ Lit sep :: join sep rest
  end.

(** [replyText] *)
Definition replyText (tickers : list string) (results : gmap string result)
  : template :=
  Lit "Current prices for requested tickers:"
  :: Lit (String line_feed (String line_feed ""))
  :: join separator (map (fun t => line t (results !! t)) tickers).

(** The line feeds of the literal text of a template. (A number is
    rendered without line feed.) *)
Definition line_feeds_of (s : string) : nat :=
  length (List.filter (Ascii.eqb line_feed) (chars s)).
Fixpoint line_feeds (t : template) : nat :=
  match t with
  | [] => 0
  | Lit s :: t' => line_feeds_of s + line_feeds t'
  | Num _ :: t' => line_feeds t'
  end.

End Reply.

(* ===================================================================== *)
(** * [fetchPriceForTicker] as a whole: a page is taken, sent to the
      price URL, read, and given back *)
(* ===================================================================== *)

Module PriceFetch.
Import Async Pool Selector Tickers.

(** What the world does during one call: whether [p.goto(url)]
    resolves, what the loaded page shows, and how the release goes. *)
Record visit : Type := mkVisit {
  goto : settled unit;
  shown : Selector.page;
  release : page_world
}.

Section Fetch.
Variable opt : option Z.          (* opts.PUPPETEER_MAX_PAGES *)
Variable default : Z.             (* DEFAULTS.PUPPETEER_MAX_PAGES *)
Variable selector : string.       (* the selector in force, [""] for none *)
Variable urlTemplate : string.

(** The [try] block. A navigation that fails leaves the page where the
    model does not follow it; the release sends it to about:blank or
    closes it. *)
Definition visit_page (ticker url : string) (p : page_id) (w : visit)
  (s : state) : settled float * state :=
  match goto w with
  | Failed e => (Failed e, s)
  | Fulfilled _ =>
      (price_from_page ticker selector url (shown w), set_location p url s)
  end.

(** [fetchPriceForTicker(ticker, opts)]: [getPage], the [try] block, and
    [releasePage] in the [finally]. *)
Definition fetchPriceForTicker (ticker : string) (w : visit) (s : state)
  : settled float * state * list event :=
  let url := price_url urlTemplate ticker in
  let '(p, s1, tr1) := getPage s in
  let '(r, s2) := visit_page ticker url p w s1 in
  let '(s3, tr3) := releasePage (Some p) opt default (release w) s2 in
  (r, s3, tr1 ++ Goto p url :: tr3).

(** Calls made one after the other, as in the loop of
    [checkTickersAndAlert]; the [i]-th call meets the world [world i]. *)
Fixpoint fetch_all (tickers : list string) (world : nat -> visit) (i : nat)
  (s : state) : list (settled float) * state * list event :=
  match tickers with
  | [] => ([], s, [])
  | t :: rest =>
      let '(r, s1, tr1) := fetchPriceForTicker t (world i) s in
      let '(rs, s2, tr2) := fetch_all rest world (S i) s1 in
      (r :: rs, s2, tr1 ++ tr2)
  end.
End Fetch.

(** The pages the browser was asked to open, and the launches. *)
Definition opened (trace : list event) : list page_id :=
  omap (fun e => match e with NewPage p => Some p | _ => None end) trace.
Definition launches (trace : list event) : nat :=
  length (List.filter (fun e => match e with Launch => true | _ => false end)
            trace).

(** The module between two calls made one after the other: a running
    browser whose one page waits in the pool. *)
Definition ready : state :=
  mkState true [0%nat] {[ 0%nat := mkInfo "about:blank" false ]} 1%nat.

End PriceFetch.

(* ===================================================================== *)
(** * The sender of a request (the poll loop of [startImapPolling]) *)
(* ===================================================================== *)

Module Sender.
Import JsString Regex.

Definition isLt (c : ascii) : bool := (code c =? 60)%nat.
Definition isGt (c : ascii) : bool := (code c =? 62)%nat.
(** [[^>]] *)
Definition notGt (c : ascii) : bool := negb (isGt c).

(** The pattern [<([^>]+)>]. *)
Definition re_angle : regex :=
  [Rep isLt 1 (Some 1%nat); Mark; Rep notGt 1 None; Mark;
   Rep isGt 1 (Some 1%nat)].

(** [const m = fromRaw.match(...); const fromEmail = m ? m[1] : fromRaw] *)
Definition fromEmail (fromRaw : string) : string :=
  match matches re_angle fromRaw with
  | Some m => nth 0 m ""
  | None => fromRaw
  end.

End Sender.

(* ===================================================================== *)
(** * Releases that overlap

    [releasePage] tests the capacity, awaits [p.goto('about:blank')] and
    then pushes the page. Between the test and the push other calls can
    run. Here are the two halves of a release that keeps its page. *)
(* ===================================================================== *)

Module PoolRace.
Import Pool.
Local Open Scope Z_scope.

(** The test [pagePool.length < max], before the [await]. *)
Definition has_room (opt : option Z) (default : Z) (s : state) : bool :=
  Z.of_nat (length (pagePool s)) <? max_pages opt default.

(** After the [await], when the navigation has resolved:
    [pagePool.push(p)]. *)
Definition resume (s : state) (p : page_id) : state :=
  push p (set_location p "about:blank" s).

(** Releases that overlap: every call makes its test before the
    navigation of any of them resolves; the navigations then resolve in
    the order of the list. Only the case where the test finds room is of
    interest. *)
Definition overlapping_releases (opt : option Z) (default : Z)
  (ps : list page_id) (s : state) : option state :=
  if has_room opt default s then Some (fold_left resume ps s) else None.

End PoolRace.

(* ===================================================================== *)
(** * Part II: verification *)
(* ===================================================================== *)

Module ExtractFacts.
Import JsString Regex JsNumber Extract.

Lemma chars_of_chars (l : list ascii) : chars (of_chars l) = l.
Proof. apply list_ascii_of_string_of_list_ascii. Qed.

Lemma digitless_dropWhile (p : ascii -> bool) (l : list ascii) :
  digitless l -> digitless (dropWhile p l).
Proof.
  induction 1 as [|c l Hc Hl IH]; simpl.
  - constructor.
  - destruct (p c); [exact IH | constructor; assumption].
Qed.

Lemma digitless_trim (l : list ascii) :
  digitless l -> digitless (trim_chars l).
Proof.
  intros H. unfold trim_chars.
  apply Forall_rev, digitless_dropWhile, Forall_rev, digitless_dropWhile, H.
Qed.

Lemma digitless_collapse (l : list ascii) (in_run : bool) :
  digitless l -> digitless (collapse_chars in_run l).
Proof.
  intros H. revert in_run.
  induction H as [|c l Hc Hl IH]; intros in_run; simpl.
  - constructor.
  - destruct (isSpace c).
    + destruct in_run; [apply IH | constructor; [reflexivity | apply IH]].
    + constructor; [assumption | apply IH].
Qed.

Lemma digitless_replace_first (a : ascii) (b l : list ascii) :
  digitless b -> digitless l -> digitless (replace_first_chars a b l).
Proof.
  intros Hb H.
  induction H as [|c l Hc Hl IH]; simpl.
  - constructor.
  - destruct (Ascii.eqb c a).
    + apply Forall_app; split; assumption.
    + constructor; assumption.
Qed.

(** The number pattern needs a digit where it starts. *)
Lemma exec_number_nil (pos : nat) : exec re_number [] pos = None.
Proof. reflexivity. Qed.

Lemma exec_number_other (c : ascii) (l : list ascii) (pos : nat) :
  isDigit c = false -> exec re_number (c :: l) pos = None.
Proof. intros H. unfold re_number. simpl. rewrite H. reflexivity. Qed.

Lemma search_number_digitless (l : list ascii) (pos : nat) :
  digitless l -> search_from re_number l pos = None.
Proof.
  intros H. revert pos.
  induction H as [|c l Hc Hl IH]; intros pos.
  - reflexivity.
  - cbn [search_from]. rewrite (exec_number_other c l pos Hc). apply IH.
Qed.

(** A text without digits extracts to [NaN], the value by which the
    source reports that there is no number. *)
Lemma extract_digitless (txt : string) :
  digitless (chars txt) -> extractNumberFromString txt = nan.
Proof.
  intros H. unfold extractNumberFromString.
  destruct (String.eqb txt ""); [reflexivity|].
  unfold matches, replace_first, collapse_spaces, trim.
  rewrite !chars_of_chars.
  rewrite search_number_digitless; [reflexivity|].
  apply digitless_replace_first.
  - repeat constructor.
  - apply digitless_collapse, digitless_trim, H.
Qed.

Example extract_letters : isNaN (extractNumberFromString "n/a") = true.
Proof. reflexivity. Qed.

Example extract_8_400 : extractNumberFromString "8.400" = 8400%float.
Proof. vm_compute. reflexivity. Qed.

Example extract_5_002 : extractNumberFromString "5,002" = 5002%float.
Proof. vm_compute. reflexivity. Qed.

(** C1. [extractNumberFromString] gives 8400 on "8.400" and 5002 on
    "5,002", but on "1.020442" it gives the binary64 product of 1.020442
    and 1000, which is 1020.4420000000001 (0x1.fe389374bc6a9p+9) and not
    the number 1020.442 (0x1.fe389374bc6a8p+9) that the fixture and the
    comment in the source name. *)
Theorem extract_1_020442 :
  extractNumberFromString "8.400" = 8400%float
  /\ extractNumberFromString "5,002" = 5002%float
  /\ extractNumberFromString "1.020442" = 0x1.fe389374bc6a9p+9%float
  /\ extractNumberFromString "1.020442" <> 0x1.fe389374bc6a8p+9%float
  /\ isNaN (extractNumberFromString "no digits here") = true.
Proof.
  repeat split; try (vm_compute; reflexivity).
  intros H. apply (f_equal Prim2SF) in H. vm_compute in H. discriminate H.
Qed.

End ExtractFacts.

Module TransportFacts.
Import JsString JsNumber Transport.
Local Open Scope Z_scope.

Section Loop.
Variable fetch : Z -> attempt_result.
Variable random : Z -> Q.
Variable url : string.
Variable retries : Z.

Lemma attempts_from_done (fuel : nat) (attempt : Z) (lastErr : option error)
  (trace : list event) :
  retries < attempt ->
  attempts_from fetch random url retries fuel attempt lastErr trace
  = Some (Thrown lastErr, trace).
Proof.
  intros H. destruct fuel; simpl;
    destruct (Z.leb_spec attempt retries); try lia; reflexivity.
Qed.

(** An attempt that fails with a transient error and is not the last one
    is followed by its delay and by the next attempt. *)
Lemma attempts_from_retry (fuel : nat) (attempt : Z) (lastErr : option error)
  (trace : list event) :
  attempt < retries ->
  fails_transiently url (fetch attempt) = true ->
  exists err,
    failure url (fetch attempt) = Some err
    /\ attempts_from fetch random url retries (S fuel) attempt lastErr trace
       = attempts_from fetch random url retries fuel (attempt + 1) (Some err)
           (trace ++ retried random 1 attempt).
Proof.
  intros Hlt Hf. unfold fails_transiently in Hf.
  destruct (failure url (fetch attempt)) as [err|] eqn:Hfail; [|discriminate].
  exists err. split; [reflexivity|].
  cbn [attempts_from retried].
  destruct (Z.leb_spec attempt retries); [|lia].
  destruct (Z.eqb_spec attempt retries); [lia|].
  rewrite <- app_assoc. cbn [app].
  unfold failure in Hfail.
  destruct (fetch attempt) as [status|e].
  - destruct (ok status); [discriminate|].
    injection Hfail as <-. rewrite Hf. reflexivity.
  - injection Hfail as <-. rewrite Hf. reflexivity.
Qed.

(** [n] transient failures in a row, none of them on the last attempt. *)
Lemma attempts_from_retried (n : nat) :
  forall (fuel : nat) (attempt : Z) (lastErr : option error)
    (trace : list event),
    attempt + Z.of_nat n <= retries ->
    (forall a, attempt <= a < attempt + Z.of_nat n ->
               fails_transiently url (fetch a) = true) ->
    exists lastErr',
      attempts_from fetch random url retries (n + fuel) attempt lastErr trace
      = attempts_from fetch random url retries fuel (attempt + Z.of_nat n)
          lastErr' (trace ++ retried random n attempt).
Proof.
  induction n as [|n IH]; intros fuel attempt lastErr trace Hle Hall.
  - exists lastErr. cbn [retried Nat.add]. rewrite app_nil_r.
    replace (attempt + Z.of_nat 0) with attempt by lia. reflexivity.
  - destruct (attempts_from_retry (n + fuel) attempt lastErr trace)
      as (err & _ & Hstep); [lia | apply Hall; lia |].
    destruct (IH fuel (attempt + 1) (Some err)
                (trace ++ retried random 1 attempt)) as (lastErr' & Hrest).
    + lia.
    + intros a Ha. apply Hall. lia.
    + exists lastErr'. cbn [Nat.add]. rewrite Hstep, Hrest.
      replace (attempt + 1 + Z.of_nat n) with (attempt + Z.of_nat (S n)) by lia.
      rewrite <- app_assoc. reflexivity.
Qed.

(** A failure on the last attempt is thrown, transient or not. *)
Lemma attempts_from_last (fuel : nat) (lastErr : option error)
  (trace : list event) (err : error) :
  failure url (fetch retries) = Some err ->
  attempts_from fetch random url retries (S fuel) retries lastErr trace
  = Some (Thrown (Some err), trace ++ [Fetch retries]).
Proof.
  intros Hfail. cbn [attempts_from].
  rewrite Z.leb_refl.
  unfold failure in Hfail.
  destruct (fetch retries) as [status|e].
  - destruct (ok status); [discriminate|]. injection Hfail as <-.
    rewrite Z.eqb_refl, orb_true_r. reflexivity.
  - injection Hfail as <-. rewrite Z.eqb_refl, orb_true_r. reflexivity.
Qed.

(** A failure that is not transient is thrown at once. *)
Lemma attempts_from_permanent (fuel : nat) (attempt : Z)
  (lastErr : option error) (trace : list event) (err : error) :
  attempt <= retries ->
  failure url (fetch attempt) = Some err ->
  isTransient err = false ->
  attempts_from fetch random url retries (S fuel) attempt lastErr trace
  = Some (Thrown (Some err), trace ++ [Fetch attempt]).
Proof.
  intros Hle Hfail Hperm. cbn [attempts_from].
  destruct (Z.leb_spec attempt retries); [|lia].
  unfold failure in Hfail.
  destruct (fetch attempt) as [status|e].
  - destruct (ok status); [discriminate|]. injection Hfail as <-.
    rewrite Hperm. reflexivity.
  - injection Hfail as <-. rewrite Hperm. reflexivity.
Qed.

End Loop.

(** The trace of [n] retried attempts: the attempts and the delays. *)
Lemma fetches_retried (random : Z -> Q) (n : nat) (attempt : Z) :
  fetches (retried random n attempt) = seqZ attempt (Z.of_nat n).
Proof.
  revert attempt. induction n as [|n IH]; intros attempt.
  - reflexivity.
  - cbn [retried]. unfold fetches in *. cbn [omap list_omap].
    rewrite IH, (seqZ_cons attempt (Z.of_nat (S n))) by lia.
    do 2 f_equal. lia.
Qed.

Lemma sleeps_retried (random : Z -> Q) (n : nat) (attempt : Z) :
  sleeps (retried random n attempt)
  = map (fun k => backoffBase k + jitter (random k)) (seqZ attempt (Z.of_nat n)).
Proof.
  revert attempt. induction n as [|n IH]; intros attempt.
  - reflexivity.
  - cbn [retried]. unfold sleeps in *. cbn [omap list_omap].
    rewrite IH, (seqZ_cons attempt (Z.of_nat (S n))) by lia.
    cbn [map]. do 3 f_equal. lia.
Qed.

(** The rounding moves a product of a draw by less than one unit of
    [1/500]. *)
Lemma round53_range (P : Z) :
  0 <= P < 2 ^ 62 -> 0 <= round53 P <= P + 256.
Proof.
  intros [H0 H62]. unfold round53.
  destruct (Z.leb_spec (Z.log2 P + 1 - 53) 0) as [Hs|Hs]; [lia|].
  assert (HP : 0 < P).
  { destruct (Z.eq_dec P 0) as [->|]; [|lia].
    change (Z.log2 0) with 0 in Hs. lia. }
  set (s := Z.log2 P + 1 - 53) in *.
  assert (Hs9 : s <= 9).
  { pose proof (proj1 (Z.log2_lt_pow2 P 62 HP) H62). lia. }
  assert (Hpow : 0 < 2 ^ s) by (apply Z.pow_pos_nonneg; lia).
  assert (Hhalf : 2 ^ s = 2 * 2 ^ (s - 1)).
  { rewrite <- Z.pow_succ_r by lia. f_equal. lia. }
  assert (Hsmall : 2 ^ (s - 1) <= 256).
  { change 256 with (2 ^ 8). apply Z.pow_le_mono_r; lia. }
  pose proof (Z.div_mod P (2 ^ s) ltac:(lia)) as Hdm.
  pose proof (Z.mod_pos_bound P (2 ^ s) Hpow) as Hrest.
  assert (Hq : 0 <= P / 2 ^ s) by (apply Z.div_pos; lia).
  destruct ((2 ^ (s - 1) <? P mod 2 ^ s)
            || ((P mod 2 ^ s =? 2 ^ (s - 1)) && Z.odd (P / 2 ^ s))) eqn:Hup.
  - assert (Hge : 2 ^ (s - 1) <= P mod 2 ^ s).
    { apply orb_true_iff in Hup as [Hup|Hup].
      - apply Z.ltb_lt in Hup. lia.
      - apply andb_true_iff in Hup as [Hup _]. apply Z.eqb_eq in Hup. lia. }
    nia.
  - nia.
Qed.

Lemma jitter_range (r : Q) : (0 <= r)%Q -> (r < 1)%Q -> 0 <= jitter r < 500.
Proof.
  intros H0 H1. unfold jitter.
  destruct (is_binary64 (Qred r)) eqn:Hb.
  - assert (Hq0 : (0 <= Qred r)%Q) by (rewrite Qred_correct; exact H0).
    assert (Hq1 : (Qred r < 1)%Q) by (rewrite Qred_correct; exact H1).
    unfold is_binary64 in Hb.
    apply andb_true_iff in Hb as [Hb _]. apply andb_true_iff in Hb as [Hb _].
    apply andb_true_iff in Hb as [Hn0 Hn53].
    apply Z.leb_le in Hn0. apply Z.ltb_lt in Hn53.
    unfold Qlt in Hq1. cbn in Hq1.
    set (n := Qnum (Qred r)) in *. set (d := Zpos (Qden (Qred r))) in *.
    assert (Hd : 0 < d) by (subst d; lia).
    assert (HP : 0 <= n * 500 < 2 ^ 62).
    { change (2 ^ 62) with (2 ^ 53 * 512). lia. }
    pose proof (round53_range (n * 500) HP) as [Hr0 Hr1].
    split.
    + apply Z.div_pos; lia.
    + apply Z.div_lt_upper_bound; lia.
  - split.
    + change 0 with (Qfloor 0). apply Qfloor_resp_le.
      rewrite <- (Qmult_0_l 500).
      apply Qmult_le_compat_r; [exact H0 | discriminate].
    + apply Z.lt_nge. intros Hge.
      assert (H : (inject_Z 500 <= r * 500)%Q).
      { eapply Qle_trans; [|apply Qfloor_le].
        rewrite <- Zle_Qle. exact Hge. }
      assert (H' : (r * 500 < 1 * 500)%Q).
      { apply Qmult_lt_compat_r; [reflexivity | exact H1]. }
      apply (Qlt_irrefl (r * 500)).
      eapply Qlt_le_trans; [exact H'|]. exact H.
Qed.

(** The loop never runs out of fuel: [fetchWithRetries] settles in every
    world. *)
Lemma attempts_from_total (fetch : Z -> attempt_result) (random : Z -> Q)
  (url : string) (retries : Z) (fuel : nat) :
  forall (attempt : Z) (lastErr : option error) (trace : list event),
    retries - attempt + 1 <= Z.of_nat fuel ->
    exists r,
      attempts_from fetch random url retries fuel attempt lastErr trace = Some r.
Proof.
  induction fuel as [|fuel IH]; intros attempt lastErr trace Hfuel.
  - rewrite attempts_from_done by lia. eauto.
  - cbn [attempts_from].
    destruct (Z.leb_spec attempt retries); [|eauto].
    assert (Hnext : forall err,
      exists r,
        (if negb (isTransient err) || (attempt =? retries)
         then Some (Thrown (Some err), trace ++ [Fetch attempt])
         else attempts_from fetch random url retries fuel (attempt + 1)
                (Some err)
                ((trace ++ [Fetch attempt])
                 ++ [Sleep (backoffBase attempt + jitter (random attempt))]))
        = Some r).
    { intros err. destruct (negb (isTransient err) || (attempt =? retries)).
      - eauto.
      - apply IH. lia. }
    destruct (fetch attempt) as [status|err].
    + destruct (ok status); [eauto | apply Hnext].
    + apply Hnext.
Qed.

Lemma fetchWithRetries_total (fetch : Z -> attempt_result) (random : Z -> Q)
  (url : string) (retries : Z) :
  exists r, fetchWithRetries fetch random url retries = Some r.
Proof. apply attempts_from_total. lia. Qed.

(** In every world the attempts made are numbered from the first one on,
    without a gap, and none has a number above [retries]. *)
Lemma attempts_from_fetches (fetch : Z -> attempt_result) (random : Z -> Q)
  (url : string) (retries : Z) (fuel : nat) :
  forall (attempt : Z) (lastErr : option error) (trace : list event)
    (out : outcome) (tr : list event),
    attempt <= retries + 1 ->
    attempts_from fetch random url retries fuel attempt lastErr trace
    = Some (out, tr) ->
    exists (more : list event) (n : Z),
      tr = trace ++ more
      /\ fetches more = seqZ attempt n
      /\ 0 <= n <= retries - attempt + 1.
Proof.
  induction fuel as [|fuel IH]; intros attempt lastErr trace out tr Hle Hrun.
  - cbn [attempts_from] in Hrun.
    destruct (Z.leb_spec attempt retries); [discriminate|].
    injection Hrun as _ <-. exists [], 0.
    rewrite app_nil_r. repeat split; try reflexivity; lia.
  - cbn [attempts_from] in Hrun.
    destruct (Z.leb_spec attempt retries) as [Hin|Hout].
    + assert (Hone : exists (more : list event) (n : Z),
                (trace ++ [Fetch attempt]) = trace ++ more
                /\ fetches more = seqZ attempt n
                /\ 0 <= n <= retries - attempt + 1).
      { exists [Fetch attempt], 1. repeat split; try reflexivity; lia. }
      assert (Hnext : forall err,
        (if negb (isTransient err) || (attempt =? retries)
         then Some (Thrown (Some err), trace ++ [Fetch attempt])
         else attempts_from fetch random url retries fuel (attempt + 1)
                (Some err)
                ((trace ++ [Fetch attempt])
                 ++ [Sleep (backoffBase attempt + jitter (random attempt))]))
        = Some (out, tr) ->
        exists (more : list event) (n : Z),
          tr = trace ++ more
          /\ fetches more = seqZ attempt n
          /\ 0 <= n <= retries - attempt + 1).
      { intros err Herr.
        destruct (negb (isTransient err) || (attempt =? retries)).
        - injection Herr as _ <-. exact Hone.
        - assert (Hle' : attempt + 1 <= retries + 1) by lia.
          destruct (IH _ _ _ _ _ Hle' Herr) as (more & n & -> & Hf & Hn).
          exists (Fetch attempt
                  :: Sleep (backoffBase attempt + jitter (random attempt))
                  :: more), (n + 1).
          split; [rewrite <- !app_assoc; reflexivity|].
          split; [|lia].
          unfold fetches in *. cbn [omap list_omap]. rewrite Hf.
          rewrite (seqZ_cons attempt (n + 1)) by lia.
          do 2 f_equal. lia. }
      destruct (fetch attempt) as [status|err].
      * destruct (ok status); [|apply (Hnext _ Hrun)].
        injection Hrun as _ <-. exact Hone.
      * apply (Hnext _ Hrun).
    + injection Hrun as _ <-. exists [], 0.
      rewrite app_nil_r. repeat split; try reflexivity; lia.
Qed.

(** Every HTTP response outside 200..299 fails with a message that starts
    with the word [fetch], which the classification takes for transient. *)
Lemma http_error_transient (url : string) (status : Z) :
  isTransient (http_error url status) = true.
Proof.
  unfold isTransient, http_error. cbn [err_message].
  apply orb_true_iff. right. reflexivity.
Qed.

(** C3. With [retries] at least 1: after [N] transient failures in a
    row the call has slept, after attempt [k] and before attempt [k + 1],
    for [min(1000 * 2^(k-1), 10000)] plus a jitter, for every [k] up to
    [N]; the jitter lies in [0, 500); in every world the attempts are
    numbered 1, 2, ... and at most [retries] are made; and when all the
    [retries] attempts fail with a transient error the call makes exactly
    these attempts and throws the error of the last one. *)
Theorem retry_budget (fetch : Z -> attempt_result) (random : Z -> Q)
  (url : string) (retries : Z) :
  1 <= retries ->
  (forall a, (0 <= random a)%Q /\ (random a < 1)%Q) ->
  (forall N,
      0 <= N < retries ->
      (forall a, 1 <= a <= N -> fails_transiently url (fetch a) = true) ->
      exists (out : outcome) (more : list event),
        fetchWithRetries fetch random url retries
        = Some (out, retried random (Z.to_nat N) 1 ++ more)
        /\ sleeps (retried random (Z.to_nat N) 1)
           = map (fun k => Z.min (1000 * 2 ^ (k - 1)) 10000 + jitter (random k))
               (seqZ 1 N))
  /\ (forall k, 0 <= jitter (random k) < 500)
  /\ (forall out trace,
        fetchWithRetries fetch random url retries = Some (out, trace) ->
        exists n, fetches trace = seqZ 1 n /\ 0 <= n <= retries)
  /\ ((forall a, 1 <= a <= retries -> fails_transiently url (fetch a) = true) ->
      exists err : error,
        failure url (fetch retries) = Some err
        /\ fetchWithRetries fetch random url retries
           = Some (Thrown (Some err),
                   retried random (Z.to_nat (retries - 1)) 1 ++ [Fetch retries])
        /\ fetches (retried random (Z.to_nat (retries - 1)) 1 ++ [Fetch retries])
           = seqZ 1 retries).
Proof.
  intros Hretries Hrandom.
  split; [|split; [|split]].
  - intros N HN Hfail.
    destruct (attempts_from_retried fetch random url retries (Z.to_nat N)
                (Z.to_nat (retries - N)) 1 None [])
      as (lastErr' & Hrun); [lia | intros a Ha; apply Hfail; lia |].
    destruct (attempts_from_total fetch random url retries
                (Z.to_nat (retries - N)) (1 + Z.of_nat (Z.to_nat N)) lastErr'
                ([] ++ retried random (Z.to_nat N) 1))
      as ([out tr] & Hrest); [lia|].
    assert (Hle : 1 + Z.of_nat (Z.to_nat N) <= retries + 1) by lia.
    destruct (attempts_from_fetches fetch random url retries _ _ _ _ _ _
                Hle Hrest) as (more & n & -> & _).
    exists out, more. split.
    + unfold fetchWithRetries.
      replace (Z.to_nat retries)
        with (Z.to_nat N + Z.to_nat (retries - N))%nat by lia.
      rewrite Hrun, Hrest. reflexivity.
    + rewrite sleeps_retried, Z2Nat.id by lia. reflexivity.
  - intros k. apply jitter_range; apply Hrandom.
  - intros out trace Hrun.
    assert (Hle : 1 <= retries + 1) by lia.
    destruct (attempts_from_fetches fetch random url retries _ _ _ _ _ _
                Hle Hrun) as (more & n & -> & Hf & Hn).
    exists n. split; [exact Hf | lia].
  - intros Hfail.
    pose proof (Hfail retries ltac:(lia)) as Hlast.
    unfold fails_transiently in Hlast.
    destruct (failure url (fetch retries)) as [err|] eqn:Herr; [|discriminate].
    set (n := Z.to_nat (retries - 1)).
    destruct (attempts_from_retried fetch random url retries n 1%nat 1 None [])
      as (lastErr' & Hrun).
    { subst n. lia. }
    { intros a Ha. apply Hfail. subst n. lia. }
    exists err. split; [reflexivity|]. split.
    + unfold fetchWithRetries.
      replace (Z.to_nat retries) with (n + 1)%nat by (subst n; lia).
      rewrite Hrun. cbn [app].
      replace (1 + Z.of_nat n) with retries by (subst n; lia).
      apply attempts_from_last. exact Herr.
    + unfold fetches. rewrite omap_app. fold (fetches (retried random n 1)).
      rewrite fetches_retried. cbn [omap list_omap].
      assert (Hn : retries = Z.of_nat n + 1) by (subst n; lia).
      rewrite Hn at 2. rewrite seqZ_app by lia.
      f_equal. rewrite seqZ_cons, seqZ_nil by lia. f_equal. lia.
Qed.

(** C2, as the code has it. A failure that [isTransient] rejects ends the
    call at once: the error is thrown, and the trace ends with the failing
    attempt, so that no delay and no attempt follow it. But a response
    with a status outside 200..299, a 4xx included, is not such a failure:
    it is classified as transient, and retried. *)
Theorem permanent_failure_not_retried (fetch : Z -> attempt_result)
  (random : Z -> Q) (url : string) (retries k : Z) (err : error) :
  1 <= k <= retries ->
  (forall a, 1 <= a < k -> fails_transiently url (fetch a) = true) ->
  failure url (fetch k) = Some err ->
  isTransient err = false ->
  fetchWithRetries fetch random url retries
  = Some (Thrown (Some err), retried random (Z.to_nat (k - 1)) 1 ++ [Fetch k])
  /\ (forall status, isTransient (http_error url status) = true).
Proof.
  intros Hk Hbefore Hfail Hperm. split; [|apply http_error_transient].
  set (n := Z.to_nat (k - 1)).
  destruct (attempts_from_retried fetch random url retries n
              (S (Z.to_nat (retries - k))) 1 None [])
    as (lastErr' & Hrun).
  { subst n. lia. }
  { intros a Ha. apply Hbefore. subst n. lia. }
  unfold fetchWithRetries.
  replace (Z.to_nat retries) with (n + S (Z.to_nat (retries - k)))%nat
    by (subst n; lia).
  rewrite Hrun. cbn [app].
  replace (1 + Z.of_nat n) with k by (subst n; lia).
  apply attempts_from_permanent; [lia | exact Hfail | exact Hperm].
Qed.

(** A world in which every connection is refused with a certificate
    error, which no clause of [isTransient] matches. *)
Lemma permanent_failure_not_retried_witness :
  fetchWithRetries
    (fun _ => Rejected (mkError (Some "CERT_HAS_EXPIRED")
                          "certificate has expired" None))
    (fun _ => 0%Q) "https://www.belex.rs/data/2025/09/00143497.pdf" 3
  = Some (Thrown (Some (mkError (Some "CERT_HAS_EXPIRED")
                          "certificate has expired" None)),
          [Fetch 1])
  /\ (forall status,
        isTransient
          (http_error "https://www.belex.rs/data/2025/09/00143497.pdf" status)
        = true).
Proof.
  apply (permanent_failure_not_retried _ _ _ 3 1).
  - lia.
  - intros a Ha. lia.
  - reflexivity.
  - reflexivity.
Defined.

(** C2 fails as stated: a 404 response is retried, with the delays of the
    backoff, until the attempts are used up. *)
Lemma http_404_is_retried :
  fetchWithRetries (fun _ => Responded 404) (fun _ => 0%Q)
    "https://www.belex.rs/data/2025/09/00143497.pdf" 3
  = Some (Thrown (Some (http_error
                          "https://www.belex.rs/data/2025/09/00143497.pdf"
                          404)),
          [Fetch 1; Sleep 1000; Fetch 2; Sleep 2000; Fetch 3]).
Proof. vm_compute. reflexivity. Qed.

(** Three resets of the connection in a row, with three attempts
    allowed: delays of 1250 ms and 2250 ms, and the third error thrown. *)
Lemma retry_budget_witness :
  let reset := mkError (Some "ECONNRESET") "read ECONNRESET" None in
  fetchWithRetries (fun _ => Rejected reset) (fun _ => (1 # 2)%Q)
    "https://www.belex.rs/trgovanje/vesti/hartija/JESV" 3
  = Some (Thrown (Some reset),
          [Fetch 1; Sleep 1250; Fetch 2; Sleep 2250; Fetch 3]).
Proof.
  intros reset.
  destruct (retry_budget (fun _ => Rejected reset) (fun _ => (1 # 2)%Q)
              "https://www.belex.rs/trgovanje/vesti/hartija/JESV" 3)
    as (_ & _ & _ & Hall).
  - lia.
  - intros a. split; [discriminate | reflexivity].
  - destruct Hall as (err & Herr & Hrun & _).
    + intros a Ha. reflexivity.
    + injection Herr as <-. exact Hrun.
Defined.

(** The largest binary64 number below 1 is [1 - 2^-53]: its binary64
    product with 500 is below 500, and [jitter] gives 499. The binary64
    number nearest to 0.248 lies below 0.248: its binary64 product with
    500 is 124, which [jitter] gives, where the exact product has the
    floor 123. *)
Example jitter_largest_draw :
  (0x1.fffffffffffffp-1 <? 1)%float = true
  /\ (0x1.fffffffffffffp-1 * 500 <? 500)%float = true
  /\ jitter (9007199254740991 # 9007199254740992) = 499.
Proof. repeat split; vm_compute; reflexivity. Qed.

Example jitter_rounded_draw :
  (0x1.fbe76c8b43958p-3 * 500 =? 124)%float = true
  /\ jitter (1116892707587883 # 4503599627370496) = 124
  /\ Qfloor ((1116892707587883 # 4503599627370496) * 500) = 123.
Proof. repeat split; vm_compute; reflexivity. Qed.

End TransportFacts.

Module LocatorFacts.
Import JsString Regex JsNumber Extract Async Locator.

(** Within one strategy the candidates are tested in order, and the first
    one that extracts to a number is the result. *)
Lemma first_number_find (els : list (settled string)) :
  first_number els
  = find (fun num => negb (isNaN num))
      (map (fun textContent => extractNumberFromString (trim textContent))
         (readable els)).
Proof.
  induction els as [|[textContent|e] els IH]; cbn [first_number readable map find].
  - reflexivity.
  - destruct (negb (isNaN (extractNumberFromString (trim textContent))));
      [reflexivity | exact IH].
  - reflexivity.
Qed.

(** [autodetectPriceFromPage] is the first success of the three XPath
    strategies. *)
Lemma autodetect_first_some (p : page) :
  autodetectPriceFromPage p
  = first_some [strategy (xpathRow p); strategy (xpathLabelNext p);
                strategy (xpathContainer p)].
Proof.
  unfold autodetectPriceFromPage. cbn [first_some].
  destruct (strategy (xpathRow p)); [reflexivity|].
  destruct (strategy (xpathLabelNext p)); [reflexivity|].
  destruct (strategy (xpathContainer p)); reflexivity.
Qed.

(** The first success of a list of strategies: the one at index [k]
    when the strategies before it found nothing. *)
Lemma first_some_at (l : list (option float)) (k : nat) (v : float) :
  l !! k = Some (Some v) ->
  (forall j, (j < k)%nat -> l !! j = Some None) ->
  first_some l = Some v.
Proof.
  revert k. induction l as [|o l IH]; intros k Hk Hbefore.
  - rewrite lookup_nil in Hk. discriminate.
  - destruct k as [|k].
    + cbn in Hk. injection Hk as ->. reflexivity.
    + pose proof (Hbefore 0%nat ltac:(lia)) as H0. cbn in H0.
      injection H0 as ->. cbn [first_some].
      apply (IH k); [exact Hk|].
      intros j Hj. apply (Hbefore (S j)). lia.
Qed.


(** The short circuit of the specification: the first strategy has a
    candidate that is not a number, the third has one that is, and the
    page text would serve the fourth and the fifth. *)
Example locator_short_circuit :
  fetchPriceForTicker "NIIS"
    (mkPage (Some [Fulfilled "n/a"]) (Some [])
       (Some [Fulfilled "Price 812"]) (Fulfilled "Cena 7,25 Volume 3.5"))
  = Fulfilled 812%float.
Proof. vm_compute. reflexivity. Qed.


End LocatorFacts.

Module PoolFacts.
Import Pool.
Local Open Scope Z_scope.

Lemma pop_last (l rest : list page_id) (p : page_id) :
  pop l = Some (p, rest) -> l = rest ++ [p].
Proof.
  unfold pop. destruct (rev l) as [|q r] eqn:Hrev; [discriminate|].
  intros [= <- <-]. rewrite <- (rev_involutive l), Hrev. reflexivity.
Qed.

(** [getPage] never makes the pool longer. *)
Lemma getPage_pool (s : state) :
  (length (pagePool (snd (fst (getPage s)))) <= length (pagePool s))%nat.
Proof.
  unfold getPage, ensureBrowser.
  destruct (browser s); cbn [pagePool fst snd].
  - destruct (pop (pagePool s)) as [[p rest]|] eqn:Hpop; cbn [pagePool fst snd].
    + apply pop_last in Hpop. rewrite Hpop, length_app. lia.
    + lia.
  - cbn. lia.
Qed.

(** What the test before the [await] finds. *)
Lemma release_begin_full (p : page_id) (opt : option Z) (default : Z)
  (s : state) :
  max_pages opt default <= Z.of_nat (length (pagePool s)) ->
  release_begin p opt default s = Closing p.
Proof.
  intros Hfull. unfold release_begin.
  destruct (Z.ltb_spec (Z.of_nat (length (pagePool s))) (max_pages opt default));
    [lia | reflexivity].
Qed.

Lemma release_begin_room (p : page_id) (opt : option Z) (default : Z)
  (s : state) :
  Z.of_nat (length (pagePool s)) < max_pages opt default ->
  release_begin p opt default s = Keeping p.
Proof.
  intros Hroom. unfold release_begin.
  destruct (Z.ltb_spec (Z.of_nat (length (pagePool s))) (max_pages opt default));
    [reflexivity | lia].
Qed.

(** The three ways the rest of a [releasePage] can go, in whatever state
    the module is by then. *)
Lemma release_end_closing (p : page_id) (w : page_world) (s : state) :
  pagePool (fst (release_end (Closing p) w s)) = pagePool s
  /\ head (snd (release_end (Closing p) w s)) = Some (Close p)
  /\ (close_ok w || reclose_ok w = true ->
      closed <$> pages (fst (release_end (Closing p) w s)) !! p = Some true).
Proof.
  unfold release_end, handler.
  destruct (close_ok w), (reclose_ok w); cbn; repeat split; try discriminate;
    intros _; rewrite lookup_insert_eq; reflexivity.
Qed.

Lemma release_end_reset (p : page_id) (w : page_world) (s : state) :
  goto_ok w = true ->
  pagePool (fst (release_end (Keeping p) w s)) = pagePool s ++ [p]
  /\ snd (release_end (Keeping p) w s) = [Goto p "about:blank"]
  /\ location <$> pages (fst (release_end (Keeping p) w s)) !! p
     = Some "about:blank".
Proof.
  intros Hgoto. unfold release_end. rewrite Hgoto.
  cbn. rewrite lookup_insert_eq. repeat split.
Qed.

Lemma release_end_reset_fails (p : page_id) (w : page_world) (s : state) :
  goto_ok w = false ->
  pagePool (fst (release_end (Keeping p) w s)) = pagePool s
  /\ snd (release_end (Keeping p) w s) = [Goto p "about:blank"; Close p]
  /\ (reclose_ok w = true ->
      closed <$> pages (fst (release_end (Keeping p) w s)) !! p = Some true).
Proof.
  intros Hgoto. unfold release_end, handler. rewrite Hgoto.
  destruct (reclose_ok w); cbn; repeat split; try discriminate.
  intros _. rewrite lookup_insert_eq. reflexivity.
Qed.

(** The same for a [releasePage] that nothing interrupts. *)
Lemma releasePage_full (p : page_id) (opt : option Z) (default : Z)
  (w : page_world) (s : state) :
  max_pages opt default <= Z.of_nat (length (pagePool s)) ->
  pagePool (fst (releasePage (Some p) opt default w s)) = pagePool s
  /\ head (snd (releasePage (Some p) opt default w s)) = Some (Close p)
  /\ (close_ok w || reclose_ok w = true ->
      closed <$> pages (fst (releasePage (Some p) opt default w s)) !! p
      = Some true).
Proof.
  intros Hfull. unfold releasePage.
  rewrite (release_begin_full p opt default s Hfull).
  apply release_end_closing.
Qed.

Lemma releasePage_reset (p : page_id) (opt : option Z) (default : Z)
  (w : page_world) (s : state) :
  Z.of_nat (length (pagePool s)) < max_pages opt default ->
  goto_ok w = true ->
  pagePool (fst (releasePage (Some p) opt default w s)) = pagePool s ++ [p]
  /\ snd (releasePage (Some p) opt default w s) = [Goto p "about:blank"]
  /\ location <$> pages (fst (releasePage (Some p) opt default w s)) !! p
     = Some "about:blank".
Proof.
  intros Hroom Hgoto. unfold releasePage.
  rewrite (release_begin_room p opt default s Hroom).
  apply release_end_reset, Hgoto.
Qed.

Lemma releasePage_reset_fails (p : page_id) (opt : option Z) (default : Z)
  (w : page_world) (s : state) :
  Z.of_nat (length (pagePool s)) < max_pages opt default ->
  goto_ok w = false ->
  pagePool (fst (releasePage (Some p) opt default w s)) = pagePool s
  /\ snd (releasePage (Some p) opt default w s)
     = [Goto p "about:blank"; Close p]
  /\ (reclose_ok w = true ->
      closed <$> pages (fst (releasePage (Some p) opt default w s)) !! p
      = Some true).
Proof.
  intros Hroom Hgoto. unfold releasePage.
  rewrite (release_begin_room p opt default s Hroom).
  apply release_end_reset_fails, Hgoto.
Qed.

(** A [releasePage] that nothing interrupts keeps the pool within the
    capacity. *)
Lemma releasePage_capacity (opt : option Z) (default : Z) (s : state)
  (p : option page_id) (w : page_world) :
  Z.of_nat (length (pagePool s)) <= max_pages opt default ->
  Z.of_nat (length (pagePool (fst (releasePage p opt default w s))))
  <= max_pages opt default.
Proof.
  intros Hinv. destruct p as [p|]; [|exact Hinv].
  destruct (Z.ltb_spec (Z.of_nat (length (pagePool s))) (max_pages opt default))
    as [Hroom|Hfull].
  - destruct (goto_ok w) eqn:Hgoto.
    + destruct (releasePage_reset p opt default w s Hroom Hgoto) as (-> & _).
      rewrite length_app. cbn [length]. lia.
    + destruct (releasePage_reset_fails p opt default w s Hroom Hgoto)
        as (-> & _).
      exact Hinv.
  - destruct (releasePage_full p opt default w s Hfull) as (-> & _).
    exact Hinv.
Qed.

(** The capacity in force. *)
Lemma max_pages_value (default : Z) :
  (forall n, n <> 0 -> max_pages (Some n) default = n)
  /\ max_pages (Some 0) default = default
  /\ max_pages None default = default.
Proof.
  repeat split. intros n Hn. unfold max_pages.
  destruct (Z.eqb_spec n 0); [contradiction | reflexivity].
Qed.

(** One step of calls that do not overlap keeps the pool within the
    capacity, with room for the page of the call that waits. *)
Lemma step_within (opt : option Z) (default : Z) (c : state * list pending)
  (o : op) :
  within opt default c ->
  (if starts_release o
   then match snd c with [] => true | _ :: _ => false end
   else true) = true ->
  within opt default (step opt default c o).
Proof.
  destruct c as [s waiting]. unfold within. cbn [fst snd].
  intros Hc Hstart. destruct o as [|p w|p|p w]; cbn [step].
  - cbn [fst snd]. pose proof (getPage_pool s) as Hget.
    destruct waiting as [|[q|q] [|pd waiting]]; try contradiction; lia.
  - destruct p as [p|].
    + cbn [starts_release] in Hstart.
      destruct waiting as [|pd waiting]; [|discriminate Hstart].
      cbn [fst snd]. apply releasePage_capacity, Hc.
    + exact Hc.
  - cbn [starts_release] in Hstart.
    destruct waiting as [|pd waiting]; [|discriminate Hstart].
    cbn [fst snd app]. unfold release_begin.
    destruct (Z.ltb_spec (Z.of_nat (length (pagePool s)))
                (max_pages opt default)); lia.
  - destruct waiting as [|pd [|pd' waiting]]; try contradiction.
    + exact Hc.
    + cbn [take_pending]. destruct (page_of pd =? p)%nat; [|exact Hc].
      cbn [fst snd]. destruct pd as [q|q].
      * destruct (goto_ok w) eqn:Hgoto.
        -- destruct (release_end_reset q w s Hgoto) as (-> & _).
           rewrite length_app. cbn [length]. lia.
        -- destruct (release_end_reset_fails q w s Hgoto) as (-> & _). lia.
      * destruct (release_end_closing q w s) as (-> & _). exact Hc.
    + destruct pd; contradiction.
Qed.

Lemma run_within (opt : option Z) (default : Z) (ops : list op) :
  forall c : state * list pending,
    within opt default c ->
    apart opt default c ops = true ->
    within opt default (fold_left (step opt default) ops c).
Proof.
  induction ops as [|o ops IH]; intros c Hc Hap; [exact Hc|].
  cbn [apart] in Hap. apply andb_true_iff in Hap as [Hstart Hap].
  cbn [fold_left]. apply IH; [apply step_within; assumption | exact Hap].
Qed.

Lemma within_capacity (opt : option Z) (default : Z)
  (c : state * list pending) :
  within opt default c ->
  Z.of_nat (length (pagePool (fst c))) <= max_pages opt default.
Proof.
  unfold within. destruct (snd c) as [|[q|q] [|pd waiting]];
    try contradiction; lia.
Qed.

(** The calls made so far, at any time, do not overlap either. *)
Lemma apart_firstn (opt : option Z) (default : Z) (ops : list op) :
  forall (c : state * list pending) (k : nat),
    apart opt default c ops = true ->
    apart opt default c (firstn k ops) = true.
Proof.
  induction ops as [|o ops IH]; intros c k Hap.
  - destruct k; reflexivity.
  - destruct k as [|k]; [reflexivity|].
    cbn [apart firstn] in *. apply andb_true_iff in Hap as [Hstart Hap].
    rewrite Hstart. cbn [andb]. apply IH, Hap.
Qed.




Example pool_keeps_one :
  pagePool
    (fst (run (Some 1) 4 initial
            [Get; Get; Release (Some 0%nat) (mkWorld true true true);
             Release (Some 1%nat) (mkWorld true true true)]))
  = [0%nat].
Proof. reflexivity. Qed.

End PoolFacts.

Module PersistFacts.
Import Persist.

Lemma length_append (a b : string) :
  String.length (a ++ b) = (String.length a + String.length b)%nat.
Proof. induction a as [|c a IH]; simpl; [reflexivity | now rewrite IH]. Qed.

Lemma tmp_is_another_file (f : string) : (f ++ ".tmp")%string <> f.
Proof.
  intros H. apply (f_equal String.length) in H.
  rewrite length_append in H. simpl in H. lia.
Qed.

Lemma substring_all (s : string) : String.substring 0 (String.length s) s = s.
Proof. induction s as [|c s IH]; simpl; [reflexivity | now rewrite IH]. Qed.

(** While a file is written, the other files stay as they are. *)
Lemma writeFile_elsewhere (fs : files) (path data other : string)
  (w : write_world) :
  path <> other ->
  Forall (fun st : files => st !! other = fs !! other) (writeFile fs path data w).
Proof.
  intros Hne. unfold writeFile.
  destruct w; try (apply Forall_nil; exact I);
    apply Forall_map, Forall_forall; intros k _; cbn;
    apply lookup_insert_ne, Hne.
Qed.

Lemma last_elsewhere (fs : files) (path data other : string) (w : write_world) :
  path <> other ->
  List.last (writeFile fs path data w) fs !! other = fs !! other.
Proof.
  intros Hne.
  pose proof (writeFile_elsewhere fs path data other w Hne) as Hall.
  destruct (writeFile fs path data w) as [|st l] eqn:Hw; [reflexivity|].
  rewrite Forall_forall in Hall. apply Hall.
  apply list_elem_of_In.
  destruct (@List.exists_last _ (st :: l)) as (l' & x & Heq); [discriminate|].
  rewrite Heq, List.last_last. apply in_or_app. right. left. reflexivity.
Qed.

(** A write that completes leaves the whole text in the file. *)
Lemma last_complete (fs : files) (path data : string) :
  List.last (writeFile fs path data Completes) fs = <[path := data]> fs.
Proof.
  unfold writeFile. cbn [written].
  rewrite seq_S, List.map_app. cbn [map]. rewrite List.last_last.
  cbn. rewrite substring_all. reflexivity.
Qed.

(** A call of [savePrices] that runs alone: whatever fails, every state
    of the file system that a reader can come upon holds in
    [prices.json] the content from before the call or the whole new
    document, and when the write and the rename succeed the last state
    holds the new document and no temporary file. *)
Lemma savePrices_alone (w : world) (fs : files) (f text : string) :
  Forall (fun st : files => st !! f = fs !! f \/ st !! f = Some text)
    (savePrices w fs f text)
  /\ (let done :=
        List.last (savePrices (mkWorld Completes true (unlink_ok w)) fs f text)
          fs in
      done !! f = Some text /\ done !! (f ++ ".tmp")%string = None).
Proof.
  pose proof (tmp_is_another_file f) as Htmp.
  split.
  - assert (Hduring :
      Forall (fun st : files => st !! f = fs !! f \/ st !! f = Some text)
        (writeFile fs (f ++ ".tmp") text (write w))).
    { eapply Forall_impl; [apply writeFile_elsewhere, Htmp|].
      intros st Hst. left. exact Hst. }
    unfold savePrices.
    destruct (succeeds (write w) && rename_ok w) eqn:Hok;
      apply Forall_app_2; try exact Hduring.
    + apply andb_true_iff in Hok as [Hw _].
      destruct (write w); try discriminate.
      rewrite last_complete. unfold rename. rewrite lookup_insert_eq.
      apply Forall_cons. split; [|apply Forall_nil; exact I].
      right. apply lookup_insert_eq.
    + unfold cleanup.
      destruct (List.last _ fs !! (f ++ ".tmp")%string) eqn:Hl;
        [|apply Forall_nil; exact I].
      destruct (unlink_ok w); [|apply Forall_nil; exact I].
      apply Forall_cons. split; [|apply Forall_nil; exact I].
      left. rewrite lookup_delete_ne by exact Htmp.
      apply last_elsewhere, Htmp.
  - unfold savePrices. cbn [write rename_ok succeeds andb].
    rewrite List.last_last, last_complete. unfold rename.
    rewrite lookup_insert_eq. split.
    + apply lookup_insert_eq.
    + rewrite lookup_insert_ne by (intros H; apply Htmp; symmetry; exact H).
      apply lookup_delete_eq.
Qed.

(** A write of [prices.json] that breaks off after ten characters, and a
    temporary file that cannot be removed: [prices.json] is as before. *)
Example savePrices_interrupted :
  let states :=
    savePrices (mkWorld (FailsAfter 10) true false)
      {[ "/srv/prices.json" := "{}" ]} "/srv/prices.json"
      "{ NIIS: { price: 812 } }" in
  length states = 11%nat
  /\ List.last states ∅ !! "/srv/prices.json" = Some "{}"
  /\ List.last states ∅ !! "/srv/prices.json.tmp" = Some "{ NIIS: { ".
Proof.
  repeat split; vm_compute; reflexivity.
Qed.

(** The seen-set is written in place: while [writeJSON] replaces the
    document that lists one link by the document that lists two, the
    seen file is found empty. *)
Lemma writeJSON_partial :
  let old := News.stringify_seen ["https://www.belex.rs/data/a.pdf"] in
  let new := News.stringify_seen
               ["https://www.belex.rs/data/a.pdf";
                "https://www.belex.rs/data/b.pdf"] in
  let fs : files := {[ "pdf_seen_tracker.json" := old ]} in
  exists st : files,
    In st (writeJSON Completes fs "pdf_seen_tracker.json" new)
    /\ st !! "pdf_seen_tracker.json" = Some ""
    /\ st !! "pdf_seen_tracker.json" <> fs !! "pdf_seen_tracker.json"
    /\ st !! "pdf_seen_tracker.json" <> Some new.
Proof.
  intros old new fs.
  exists (<["pdf_seen_tracker.json" := ""]> fs).
  split; [left; reflexivity|].
  rewrite lookup_insert_eq. split; [reflexivity|].
  split.
  - subst fs. rewrite lookup_singleton_eq. discriminate.
  - discriminate.
Qed.

End PersistFacts.

Module SavesFacts.
Import Persist Saves PersistFacts.

Lemma length_chars (s : string) :
  length (list_ascii_of_string s) = String.length s.
Proof. induction s as [|c s IH]; cbn; [reflexivity | now rewrite IH]. Qed.

(** Writing on, at the end of what has been written. *)
Lemma write_at_end (T : list ascii) (pos n : nat) :
  pos <= length T ->
  write_at (string_of_list_ascii (take pos T)) pos (take n (drop pos T))
  = string_of_list_ascii (take (pos + length (take n (drop pos T))) T).
Proof.
  intros Hpos. unfold write_at.
  rewrite list_ascii_of_string_of_list_ascii.
  assert (Hlen : length (take pos T) = pos) by (rewrite length_take; lia).
  rewrite Hlen, Nat.sub_diag. cbn [replicate]. rewrite app_nil_r.
  rewrite take_idemp.
  rewrite (drop_ge (take pos T)) by (rewrite Hlen; lia).
  rewrite app_nil_r. f_equal.
  rewrite <- take_take_drop. f_equal.
  rewrite length_take. generalize (drop pos T) as D. intros D.
  destruct (Nat.le_ge_cases n (length D)).
  - rewrite Nat.min_l by lia. reflexivity.
  - rewrite Nat.min_r by lia. rewrite !take_ge by lia. reflexivity.
Qed.

Lemma others_idle (cs : list call) (i k : nat) (c : call) :
  forallb (fun c => negb (busy c)) (delete i cs) = true ->
  k <> i -> cs !! k = Some c -> busy c = false.
Proof.
  intros Hall Hk Hc. rewrite forallb_forall in Hall.
  apply negb_true_iff, Hall, list_elem_of_In.
  destruct (Nat.lt_ge_cases k i) as [Hlt|Hge].
  - apply (list_elem_of_lookup_2 _ k). rewrite list_lookup_delete_lt by exact Hlt.
    exact Hc.
  - apply (list_elem_of_lookup_2 _ (k - 1)).
    rewrite list_lookup_delete_ge by lia.
    replace (S (k - 1)) with k by lia. exact Hc.
Qed.

Lemma idle_own (d : disk) (c : call) : busy c = false -> writing_own d c.
Proof. unfold busy, writing_own. destruct (at_stage c); [easy|discriminate|easy]. Qed.

Lemma start_sound (old leftover : option string) (texts : list string) :
  save_sound old texts (save_start old leftover texts).
Proof.
  unfold save_start. split; cbn [on_disk calls].
  - intros i. destruct old, leftover; cbn; intros [= <-]; lia.
  - intros i. destruct old, leftover; cbn; intros [= <-]; lia.
  - intros i j. destruct old, leftover; cbn; intros [= <-] [= <-]; lia.
  - left. destruct old, leftover; reflexivity.
  - rewrite map_map. cbn. apply map_id.
  - apply Forall_map, Forall_forall. intros t _. exact I.
Qed.

(** The frame of a step: the call that steps keeps its document, and the
    other calls are not under way. *)
Lemma sound_update (old : option string) (texts : list string) (s : system)
  (i : nat) (c c' : call) (d' : disk) :
  save_sound old texts s ->
  calls s !! i = Some c ->
  forallb (fun c => negb (busy c)) (delete i (calls s)) = true ->
  doc c' = doc c ->
  (forall k, target d' = Some k -> k < length (objects d')) ->
  (forall k, temp d' = Some k -> k < length (objects d')) ->
  (forall k j, target d' = Some k -> temp d' = Some j -> k <> j) ->
  (read_target d' = old \/ exists t, t ∈ texts /\ read_target d' = Some t) ->
  writing_own d' c' ->
  save_sound old texts (mkSystem d' (<[i := c']> (calls s))).
Proof.
  intros Hs Hc Halone Hdoc Ht Htmp Htwo Hwhole Hown.
  split; cbn [on_disk calls]; try assumption.
  - rewrite list_fmap_insert, Hdoc.
    rewrite list_insert_id; [apply (same_docs _ _ _ Hs)|].
    rewrite list_lookup_fmap, Hc. reflexivity.
  - apply Forall_lookup. intros k x Hx.
    apply list_lookup_insert_Some in Hx as [(-> & <- & _)|(Hne & Hx)];
      [exact Hown|].
    apply idle_own. apply (others_idle (calls s) i k x Halone); congruence.
Qed.

Lemma doc_in_texts (old : option string) (texts : list string) (s : system)
  (i : nat) (c : call) :
  save_sound old texts s -> calls s !! i = Some c -> doc c ∈ texts.
Proof.
  intros Hs Hc. rewrite <- (same_docs _ _ _ Hs).
  apply list_elem_of_fmap. exists c. split; [reflexivity|].
  apply (list_elem_of_lookup_2 _ i), Hc.
Qed.

(** The [catch] branch takes the name of the temporary file away, or
    leaves the disk as it is. *)
Lemma catch_target_exists (ul : bool) (d : disk) :
  (forall k, target d = Some k -> k < length (objects d)) ->
  forall k, target (catch_branch ul d) = Some k ->
            k < length (objects (catch_branch ul d)).
Proof.
  unfold catch_branch. destruct (temp d); [destruct ul|]; cbn; auto.
Qed.

Lemma catch_temp_exists (ul : bool) (d : disk) :
  (forall k, temp d = Some k -> k < length (objects d)) ->
  forall k, temp (catch_branch ul d) = Some k ->
            k < length (objects (catch_branch ul d)).
Proof.
  unfold catch_branch. destruct (temp d) eqn:Hj; [destruct ul|]; cbn;
    try discriminate; intros H k Hk; apply H; congruence.
Qed.

Lemma catch_two_files (ul : bool) (d : disk) :
  (forall k j, target d = Some k -> temp d = Some j -> k <> j) ->
  forall k j, target (catch_branch ul d) = Some k ->
              temp (catch_branch ul d) = Some j -> k <> j.
Proof.
  unfold catch_branch. destruct (temp d) eqn:Hj; [destruct ul|]; cbn;
    try discriminate; intros H k j Hk Hj'; apply H; congruence.
Qed.

Lemma catch_read_target (ul : bool) (d : disk) :
  read_target (catch_branch ul d) = read_target d.
Proof.
  unfold catch_branch. destruct (temp d); [destruct ul|]; reflexivity.
Qed.

(** A step of a call, while no other call is under way, keeps the
    system sound. *)
Lemma save_step_sound (old : option string) (texts : list string) (s : system)
  (e : nat * action) :
  save_sound old texts s ->
  forallb (fun c => negb (busy c)) (delete (fst e) (calls s)) = true ->
  save_sound old texts (save_step s e).
Proof.
  intros Hs Halone. destruct e as [i a]. cbn [fst snd] in *.
  unfold save_step. cbn [fst snd].
  destruct (calls s !! i) as [c|] eqn:Hc; [|exact Hs].
  pose proof (proj1 (Forall_lookup _ _) (own_file _ _ _ Hs) i c Hc) as Hown.
  pose proof (target_exists _ _ _ Hs) as Ht.
  pose proof (temp_exists _ _ _ Hs) as Htmp.
  pose proof (two_files _ _ _ Hs) as Htwo.
  pose proof (whole _ _ _ Hs) as Hwhole.
  assert (Hsame : forall c0, c0 = c ->
            save_sound old texts (mkSystem (on_disk s) (<[i := c0]> (calls s)))).
  { intros c0 ->. rewrite list_insert_id by exact Hc. destruct s. exact Hs. }
  destruct s as [d cs]. cbn [on_disk calls] in *.
  unfold act, writing_own in *.
  destruct c as [T st]. cbn [doc at_stage] in *.
  destruct st as [|fd pos|]; destruct a as [| n | | ul];
    try (apply Hsame; reflexivity).
  - (* Open *)
    destruct (temp d) as [j|] eqn:Hj.
    + apply (sound_update old texts (mkSystem d cs) i (mkCall T Idle)
               (mkCall T (Writing j 0)) _ Hs Hc Halone eq_refl);
        cbn [objects target temp].
      * intros k Hk. rewrite length_insert. apply Ht, Hk.
      * intros k [= <-]. rewrite length_insert. apply Htmp. reflexivity.
      * intros k j' Hk [= <-]. apply (Htwo k j Hk eq_refl).
      * unfold read_target in *. cbn [objects target] in *.
        destruct (target d) as [k|]; [|exact Hwhole]. cbn in *.
        rewrite list_lookup_insert_ne; [exact Hwhole|].
        intros ->. exact (Htwo k k eq_refl eq_refl eq_refl).
      * unfold writing_own. cbn [at_stage temp objects doc].
        split; [reflexivity|]. split; [|lia].
        apply list_lookup_insert_eq, Htmp. reflexivity.
    + apply (sound_update old texts (mkSystem d cs) i (mkCall T Idle)
               (mkCall T (Writing (length (objects d)) 0)) _ Hs Hc Halone
               eq_refl);
        cbn [objects target temp].
      * intros k Hk. rewrite length_app. specialize (Ht k Hk). lia.
      * intros k [= <-]. rewrite length_app. cbn. lia.
      * intros k j' Hk [= <-]. specialize (Ht k Hk). lia.
      * unfold read_target in *. cbn [objects target] in *.
        destruct (target d) as [k|]; [|exact Hwhole]. cbn in *.
        rewrite lookup_app_l by (apply Ht; reflexivity). exact Hwhole.
      * unfold writing_own. cbn [at_stage temp objects doc].
        split; [reflexivity|]. split; [|lia].
        rewrite lookup_app_r by lia. rewrite Nat.sub_diag. reflexivity.
  - (* Throw before the file is open *)
    apply (sound_update old texts (mkSystem d cs) i (mkCall T Idle)
             (mkCall T Finished) _ Hs Hc Halone eq_refl);
      [apply catch_target_exists | apply catch_temp_exists
      | apply catch_two_files | rewrite catch_read_target | exact I];
      assumption.
  - (* Write *)
    destruct Hown as (Hfd & Hcontent & Hpos).
    apply (sound_update old texts (mkSystem d cs) i (mkCall T (Writing fd pos))
             (mkCall T (Writing fd
                (pos + length (take n (drop pos (list_ascii_of_string T))))))
             _ Hs Hc Halone eq_refl);
      cbn [objects target temp].
    + intros k Hk. rewrite length_alter. apply Ht, Hk.
    + intros k Hk. rewrite length_alter. apply Htmp, Hk.
    + exact Htwo.
    + unfold read_target in *. cbn [objects target] in *.
      destruct (target d) as [k|]; [|exact Hwhole]. cbn in *.
      rewrite list_lookup_alter_ne; [exact Hwhole|].
      intros ->. exact (Htwo k k eq_refl Hfd eq_refl).
    + unfold writing_own. cbn [at_stage temp objects doc].
      split; [exact Hfd|]. split.
      * rewrite list_lookup_alter_eq, Hcontent. cbn. f_equal.
        apply write_at_end. rewrite length_chars. exact Hpos.
      * rewrite length_take, length_drop, length_chars. lia.
  - (* Rename *)
    destruct Hown as (Hfd & Hcontent & Hpos).
    destruct (Nat.ltb_spec pos (String.length T)); [apply Hsame; reflexivity|].
    rewrite Hfd.
    apply (sound_update old texts (mkSystem d cs) i (mkCall T (Writing fd pos))
             (mkCall T Finished) _ Hs Hc Halone eq_refl);
      cbn [objects target temp].
    + intros k [= <-]. apply Htmp, Hfd.
    + discriminate.
    + discriminate.
    + right. exists T. split.
      * apply (doc_in_texts old texts (mkSystem d cs) i
                 (mkCall T (Writing fd pos)) Hs Hc).
      * unfold read_target. cbn [objects target]. cbn. rewrite Hcontent.
        rewrite take_ge by (rewrite length_chars; lia).
        rewrite string_of_list_ascii_of_string. reflexivity.
    + exact I.
  - (* Throw while the file is open *)
    apply (sound_update old texts (mkSystem d cs) i (mkCall T (Writing fd pos))
             (mkCall T Finished) _ Hs Hc Halone eq_refl);
      [apply catch_target_exists | apply catch_temp_exists
      | apply catch_two_files | rewrite catch_read_target | exact I];
      assumption.
Qed.

Lemma last_of_states {A : Type} (l : list A) (a d : A) :
  List.last (a :: l) d = List.last l a.
Proof.
  revert a d. induction l as [|b l IH]; intros a d; [reflexivity|].
  change (List.last (a :: b :: l) d) with (List.last (b :: l) d).
  rewrite !IH. reflexivity.
Qed.

Lemma states_sound (old : option string) (texts : list string)
  (schedule : list (nat * action)) :
  forall s : system,
    save_sound old texts s ->
    saves_apart s schedule = true ->
    Forall (save_sound old texts) (save_states s schedule)
    /\ save_sound old texts (List.last (save_states s schedule) s).
Proof.
  induction schedule as [|e schedule IH]; intros s Hs Hap.
  - split; [constructor | exact Hs].
  - cbn [saves_apart] in Hap. apply andb_true_iff in Hap as [Halone Hap].
    pose proof (save_step_sound old texts s e Hs Halone) as Hs'.
    destruct (IH _ Hs' Hap) as [Hall Hlast].
    cbn [save_states]. split; [constructor; assumption|].
    rewrite last_of_states. exact Hlast.
Qed.

(** A call whose steps run one after the other, with a write and a
    rename that work, leaves its document under the name [f] and no
    temporary file. *)
Lemma call_completes (s : system) (i : nat) (t : string) :
  (forall k, temp (on_disk s) = Some k -> k < length (objects (on_disk s))) ->
  calls s !! i = Some (mkCall t Idle) ->
  let done :=
    List.last
      (save_states s [(i, Open); (i, Write (String.length t)); (i, Rename)])
      s in
  read_target (on_disk done) = Some t /\ read_temp (on_disk done) = None.
Proof.
  intros Htmp Hc. cbn [save_states List.last].
  assert (Hi : i < length (calls s)) by (apply lookup_lt_is_Some; eauto).
  assert (Hwrite : write_at "" 0
            (take (String.length t) (drop 0 (list_ascii_of_string t))) = t).
  { unfold write_at.
    change (list_ascii_of_string "") with (@nil ascii).
    rewrite drop_0, drop_nil.
    change (take 0 ([] ++ replicate (0 - length (@nil ascii)) Ascii.zero))
      with (@nil ascii).
    rewrite app_nil_l, app_nil_r.
    rewrite take_ge by (rewrite length_chars; lia).
    apply string_of_list_ascii_of_string. }
  assert (Hlen : length (take (String.length t)
                           (drop 0 (list_ascii_of_string t)))
                 = String.length t).
  { rewrite drop_0, take_ge by (rewrite length_chars; lia).
    apply length_chars. }
  destruct s as [d cs]. cbn [on_disk calls] in *.
  assert (Hopen : exists fd objs,
            save_step (mkSystem d cs) (i, Open)
            = mkSystem (mkDisk objs (target d) (Some fd))
                (<[i := mkCall t (Writing fd 0)]> cs)
            /\ objs !! fd = Some "").
  { unfold save_step. cbn [fst snd calls on_disk]. rewrite Hc.
    cbn [act at_stage doc]. destruct (temp d) as [j|] eqn:Hj.
    - exists j, (<[j := ""]> (objects d)). split; [reflexivity|].
      apply list_lookup_insert_eq, Htmp. reflexivity.
    - exists (length (objects d)), (objects d ++ [""]).
      split; [reflexivity|].
      rewrite lookup_app_r by lia. rewrite Nat.sub_diag. reflexivity. }
  destruct Hopen as (fd & objs & -> & Hfd).
  assert (Hwritten :
    save_step (mkSystem (mkDisk objs (target d) (Some fd))
                 (<[i := mkCall t (Writing fd 0)]> cs))
      (i, Write (String.length t))
    = mkSystem (mkDisk (<[fd := t]> objs) (target d) (Some fd))
        (<[i := mkCall t (Writing fd (String.length t))]> cs)).
  { unfold save_step. cbn [fst snd calls on_disk].
    rewrite list_lookup_insert_eq by exact Hi.
    cbn [act at_stage doc objects target temp].
    rewrite Hlen, list_insert_insert_eq. cbn [Nat.add]. do 2 f_equal.
    apply list_eq. intros k. rewrite list_lookup_alter.
    destruct (decide (fd = k)) as [<-|Hne].
    - rewrite Hfd. unfold fmap, option_fmap, option_map. rewrite Hwrite.
      symmetry. apply list_lookup_insert_eq.
      apply lookup_lt_is_Some. eauto.
    - rewrite list_lookup_insert_ne by exact Hne. reflexivity. }
  rewrite Hwritten.
  unfold save_step. cbn [fst snd calls on_disk].
  rewrite list_lookup_insert_eq by exact Hi.
  cbn [act at_stage doc objects target temp].
  rewrite Nat.ltb_irrefl. cbn [on_disk].
  unfold read_target, read_temp. cbn [objects target temp]. cbn.
  split; [|reflexivity].
  apply list_lookup_insert_eq. apply lookup_lt_is_Some. eauto.
Qed.

(** [writeJSON] shows every beginning of the new document in the file
    itself. *)
Lemma writeJSON_in_place (fs : files) (filePath text : string) (k : nat) :
  k <= String.length text ->
  In (<[filePath := String.substring 0 k text]> fs)
    (writeJSON Completes fs filePath text).
Proof.
  intros Hk. unfold writeJSON, writeFile. cbn [written].
  apply in_map_iff. exists k. split; [reflexivity|]. apply in_seq. lia.
Qed.


Lemma substring_take (s : string) (k : nat) :
  String.substring 0 k s
  = string_of_list_ascii (take k (list_ascii_of_string s)).
Proof.
  revert k. induction s as [|c s IH]; intros [|k]; cbn; try reflexivity.
  rewrite IH. reflexivity.
Qed.

Lemma write_one (old : option string) (text : string) (p : nat) (s : system) :
  writing_alone old text p s -> p < String.length text ->
  writing_alone old text (S p) (save_step s (0, Write 1))
  /\ view (on_disk (save_step s (0, Write 1)))
     = (old, Some (String.substring 0 (S p) text)).
Proof.
  intros (objs & tgt & fd & -> & Hfd & Hne & Hold) Hp.
  unfold save_step. cbn [fst snd calls on_disk lookup list_lookup].
  cbn [act at_stage doc objects target temp].
  assert (Hchunk : length (take 1 (drop p (list_ascii_of_string text))) = 1).
  { rewrite length_take, length_drop, length_chars. lia. }
  rewrite Hchunk.
  assert (Hnew : alter
            (fun old0 => write_at old0 p
                           (take 1 (drop p (list_ascii_of_string text))))
            fd objs !! fd = Some (String.substring 0 (S p) text)).
  { rewrite list_lookup_alter_eq, Hfd. unfold fmap, option_fmap, option_map.
    f_equal. rewrite !substring_take, write_at_end
      by (rewrite length_chars; lia).
    rewrite Hchunk. do 2 f_equal. lia. }
  assert (Hkeep : tgt ≫= (fun i => alter
            (fun old0 => write_at old0 p
                           (take 1 (drop p (list_ascii_of_string text))))
            fd objs !! i) = old).
  { destruct tgt as [k|]; [|exact Hold]. cbn in *.
    rewrite list_lookup_alter_ne; [exact Hold|]. congruence. }
  split.
  - eexists _, tgt, fd. split; [|split; [|split]].
    + cbn [insert list_insert]. replace (p + 1) with (S p) by lia. reflexivity.
    + exact Hnew.
    + exact Hne.
    + exact Hkeep.
  - unfold view, read_target, read_temp. cbn [on_disk objects target temp].
    rewrite Hkeep. cbn. rewrite Hnew. reflexivity.
Qed.

Lemma write_all (old : option string) (text : string) (m : nat) :
  forall (p : nat) (s : system),
    writing_alone old text p s -> p + m <= String.length text ->
    map (fun s => view (on_disk s))
      (save_states s (map (pair 0) (repeat (Write 1) m)))
    = map (fun k => (old, Some (String.substring 0 k text))) (seq (S p) m)
    /\ writing_alone old text (p + m)
         (List.last (save_states s (map (pair 0) (repeat (Write 1) m))) s).
Proof.
  induction m as [|m IH]; intros p s Hs Hp.
  - cbn. rewrite Nat.add_0_r. split; [reflexivity | exact Hs].
  - cbn [repeat map save_states seq].
    destruct (write_one old text p s Hs ltac:(lia)) as [Hs' Hv].
    destruct (IH (S p) _ Hs' ltac:(lia)) as [Hviews Hlast].
    split.
    + cbn [map]. rewrite Hv, Hviews. reflexivity.
    + rewrite last_of_states. replace (p + S m) with (S p + m) by lia.
      exact Hlast.
Qed.

Lemma save_states_app (a b : list (nat * action)) :
  forall s : system,
    save_states s (a ++ b)
    = save_states s a ++ save_states (List.last (save_states s a) s) b.
Proof.
  induction a as [|e a IH]; intros s; [reflexivity|].
  cbn [app save_states]. rewrite IH, last_of_states. reflexivity.
Qed.

Lemma view_disk_of (old leftover : option string) :
  view (disk_of old leftover) = (old, leftover).
Proof. destruct old, leftover; reflexivity. Qed.

Lemma open_alone (old leftover : option string) (text : string) :
  writing_alone old text 0
    (save_step (save_start old leftover [text]) (0, Open))
  /\ view (on_disk (save_step (save_start old leftover [text]) (0, Open)))
     = (old, Some "").
Proof.
  destruct old as [a|], leftover as [b|]; (split;
    [eexists _, _, _; split; [reflexivity|];
     split; [destruct text; reflexivity|]; split; [discriminate|reflexivity]
    | reflexivity]).
Qed.

(** The last step of a call that is alone: the rename, or the [catch]
    branch. *)
Lemma rename_alone (old : option string) (text : string) (s : system) :
  writing_alone old text (String.length text) s ->
  view (on_disk (save_step s (0, Rename))) = (Some text, None).
Proof.
  intros (objs & tgt & fd & -> & Hfd & Hne & Hold).
  unfold save_step. cbn [fst snd calls on_disk lookup list_lookup].
  cbn [act at_stage doc objects target temp]. rewrite Nat.ltb_irrefl.
  unfold view, read_target, read_temp. cbn. rewrite Hfd, substring_all.
  reflexivity.
Qed.

Lemma throw_alone (old : option string) (text : string) (p : nat)
  (ul : bool) (s : system) :
  writing_alone old text p s ->
  view (on_disk (save_step s (0, Throw ul)))
  = (old, if ul then None else Some (String.substring 0 p text)).
Proof.
  intros (objs & tgt & fd & -> & Hfd & Hne & Hold).
  unfold save_step. cbn [fst snd calls on_disk lookup list_lookup].
  cbn [act at_stage doc objects target temp]. unfold catch_branch.
  cbn [temp]. unfold view, read_target, read_temp.
  destruct ul; cbn; rewrite Hold; [reflexivity|]. rewrite Hfd. reflexivity.
Qed.

(** What [Persist.writeFile] shows under the two names while it writes
    the temporary file. *)
Lemma writeFile_views (fs : files) (f text : string) (m : nat) :
  map (fun st : files => (st !! f, st !! (f ++ ".tmp")%string))
    (map (fun k => <[(f ++ ".tmp")%string := String.substring 0 k text]> fs)
       (seq 0 (S m)))
  = (fs !! f, Some "")
    :: map (fun k => (fs !! f, Some (String.substring 0 k text))) (seq 1 m).
Proof.
  rewrite map_map.
  assert (Hview : forall k,
    (<[(f ++ ".tmp")%string := String.substring 0 k text]> fs !! f,
     <[(f ++ ".tmp")%string := String.substring 0 k text]> fs
       !! (f ++ ".tmp")%string)
    = (fs !! f, Some (String.substring 0 k text))).
  { intros k. rewrite lookup_insert_ne by apply tmp_is_another_file.
    rewrite lookup_insert_eq. reflexivity. }
  cbn [seq map]. rewrite Hview. f_equal.
  - destruct text; reflexivity.
  - apply map_ext. intros k. apply Hview.
Qed.

Lemma writeFile_last (fs : files) (path text : string) (m : nat) :
  List.last (map (fun k => <[path := String.substring 0 k text]> fs)
               (seq 0 (S m))) fs
  = <[path := String.substring 0 m text]> fs.
Proof.
  rewrite seq_S, List.map_app. cbn [map]. rewrite List.last_last. reflexivity.
Qed.

Lemma call_alone_views (old leftover : option string) (text : string)
  (m : nat) (final : action) :
  m <= String.length text ->
  exists s2,
    writing_alone old text m s2
    /\ map (fun s => view (on_disk s))
         (save_states (save_start old leftover [text])
            (map (pair 0) (Open :: repeat (Write 1) m ++ [final])))
       = (old, Some "")
         :: map (fun k => (old, Some (String.substring 0 k text))) (seq 1 m)
         ++ [view (on_disk (save_step s2 (0, final)))].
Proof.
  intros Hm.
  destruct (open_alone old leftover text) as [Hs1 Hv1].
  destruct (write_all old text m 0 _ Hs1 Hm) as [Hviews Hs2].
  eexists. split; [exact Hs2|].
  cbn [map save_states]. rewrite Hv1. f_equal.
  rewrite List.map_app, save_states_app, List.map_app, Hviews.
  reflexivity.
Qed.

(** [Persist.savePrices] lists the states of a call that runs alone:
    what the two names show along the steps of the call is what the
    states of [savePrices] show, with the last state once more when the
    [catch] branch removes nothing. *)
Lemma savePrices_is_a_call_alone (w : world) (fs : files) (f text : string) :
  let tmp := (f ++ ".tmp")%string in
  let shown :=
    map (fun st : files => (st !! f, st !! tmp)) (savePrices w fs f text) in
  let seen :=
    map (fun s => view (on_disk s))
      (save_states (save_start (fs !! f) (fs !! tmp) [text])
         (map (pair 0) (script w text))) in
  seen = shown \/ seen = shown ++ [List.last shown (fs !! f, fs !! tmp)].
Proof.
  intros tmp shown seen. subst shown seen.
  pose proof (tmp_is_another_file f) as Htmp. fold tmp in Htmp.
  unfold savePrices, script. fold tmp.
  assert (Hcatch : forall (m : nat) (ul : bool),
    m <= String.length text ->
    let during :=
      map (fun k => <[tmp := String.substring 0 k text]> fs) (seq 0 (S m)) in
    let shown :=
      map (fun st : files => (st !! f, st !! tmp))
        (during ++ cleanup tmp (mkWorld (write w) (rename_ok w) ul)
                     (List.last during fs)) in
    let seen :=
      map (fun s => view (on_disk s))
        (save_states (save_start (fs !! f) (fs !! tmp) [text])
           (map (pair 0) (Open :: repeat (Write 1) m ++ [Throw ul]))) in
    seen = shown \/ seen = shown ++ [List.last shown (fs !! f, fs !! tmp)]).
  { intros m ul Hm during shown seen. subst during shown seen.
    destruct (call_alone_views (fs !! f) (fs !! tmp) text m (Throw ul) Hm)
      as (s2 & Hs2 & ->).
    rewrite (throw_alone _ _ _ _ _ Hs2).
    rewrite writeFile_last. unfold cleanup. cbn [unlink_ok].
    rewrite lookup_insert_eq, List.map_app.
    unfold tmp. rewrite writeFile_views. fold tmp.
    destruct ul.
    - left. cbn [map app]. rewrite lookup_delete_eq.
      rewrite lookup_delete_ne by exact Htmp.
      rewrite lookup_insert_ne by exact Htmp. reflexivity.
    - right. cbn [map]. rewrite app_nil_r.
      assert (Hlast :
        List.last
          ((fs !! f, Some "")
           :: map (fun k => (fs !! f, Some (String.substring 0 k text)))
                (seq 1 m)) (fs !! f, fs !! tmp)
        = (fs !! f, Some (String.substring 0 m text))).
      { replace ((fs !! f, Some "")
                 :: map (fun k => (fs !! f, Some (String.substring 0 k text)))
                      (seq 1 m))
          with (map (fun k => (fs !! f, Some (String.substring 0 k text)))
                  (seq 0 (S m)))
          by (cbn [seq map]; destruct text; reflexivity).
        rewrite seq_S, List.map_app. cbn [map]. rewrite List.last_last.
        reflexivity. }
      rewrite Hlast. reflexivity. }
  destruct (write w) as [|n|] eqn:Hw.
  - (* the write completes *)
    cbn [writeFile written succeeds andb].
    destruct (rename_ok w) eqn:Hr.
    + left.
      destruct (call_alone_views (fs !! f) (fs !! tmp) text
                  (String.length text) Rename (le_n _)) as (s2 & Hs2 & ->).
      rewrite (rename_alone _ _ _ Hs2).
      rewrite writeFile_last, List.map_app.
      unfold tmp. rewrite writeFile_views. fold tmp.
      cbn [map app]. unfold rename. rewrite lookup_insert_eq, substring_all.
      rewrite lookup_insert_eq.
      rewrite lookup_insert_ne by (intros H; apply Htmp; symmetry; exact H).
      rewrite lookup_delete_eq. reflexivity.
    + specialize (Hcatch (String.length text) (unlink_ok w) (le_n _)).
      cbn zeta in Hcatch. unfold cleanup in *. cbn [unlink_ok] in Hcatch.
      exact Hcatch.
  - (* the write breaks off *)
    cbn [writeFile written succeeds andb].
    specialize (Hcatch (Nat.min n (String.length text)) (unlink_ok w)
                  (Nat.le_min_r _ _)).
    cbn zeta in Hcatch. unfold cleanup in *. cbn [unlink_ok] in Hcatch.
    exact Hcatch.
  - (* the file cannot be opened *)
    cbn [writeFile succeeds andb app List.last map save_states].
    unfold cleanup, save_step, save_start.
    cbn [fst snd calls on_disk lookup list_lookup map act at_stage doc].
    unfold catch_branch, view, read_target, read_temp.
    clear Hcatch.
    destruct (fs !! f) as [a|] eqn:Ha, (fs !! tmp) as [b|] eqn:Hb,
      (unlink_ok w); cbn;
      rewrite ?lookup_delete_eq, ?lookup_delete_ne by exact Htmp;
      rewrite ?Ha, ?Hb; auto.
Qed.



End SavesFacts.

Module AlertsFacts.
Import JsNumber Async Alerts.

Section Check.
Variable up down : float.
Variable receiver : string.
Variable filename : string.

Lemma pctChange_baseless (prev newP : option float) :
  baseless prev = true -> pctChange prev newP = None.
Proof.
  destruct prev as [oldP|], newP as [newP|]; cbn; try reflexivity.
  intros ->. reflexivity.
Qed.

Lemma pctChange_divides (oldP newP change : float) :
  pctChange (Some oldP) (Some newP) = Some change ->
  (oldP =? 0)%float = false /\ change = ((newP - oldP) / oldP * 100)%float.
Proof.
  cbn. destruct (oldP =? 0)%float; [discriminate|].
  intros [= <-]. split; reflexivity.
Qed.

(** Without a usable previous price the turn of a ticker only records the
    new price. *)
Lemma check_ticker_baseless (t : string) (w : turn) (s : state) (price : float) :
  fetched w = Fulfilled price ->
  baseless (previous (pricesState s) t) = true ->
  check_ticker up down receiver filename t w s
  = record_price filename t price w
      (mkState (pricesState s)
         (<[t := Quote price (previous (pricesState s) t) None]> (results s))
         (trace s)).
Proof.
  intros Hfetch Hbase. unfold check_ticker. rewrite Hfetch.
  destruct (previous (pricesState s) t) as [oldP|] eqn:Hprev; [|reflexivity].
  rewrite (pctChange_baseless (Some oldP) (Some price) Hbase). reflexivity.
Qed.

(** When the price is fetched and the mail, if one is sent, goes out,
    the turn ends by recording the new price. *)
Lemma check_ticker_records (t : string) (w : turn) (s : state) (price : float) :
  fetched w = Fulfilled price ->
  mailed w = Fulfilled tt ->
  exists (rs : gmap string report) (tr : list event),
    check_ticker up down receiver filename t w s
    = record_price filename t price w (mkState (pricesState s) rs tr)
    /\ (tr = trace s \/ exists m, tr = trace s ++ [m]).
Proof.
  intros Hfetch Hmail. unfold check_ticker, notify_then_record.
  rewrite Hfetch, Hmail.
  destruct (previous (pricesState s) t) as [oldP|];
    [destruct (pctChange (Some oldP) (Some price)) as [change|]|];
    [destruct (up <=? change)%float; [|destruct (change <=? - down)%float]| |];
    cbn [pricesState results trace]; eauto 6.
Qed.

(** The turn of a ticker leaves the entries of the other tickers alone,
    and keeps what the trace holds. *)
Lemma check_ticker_other (t t' : string) (w : turn) (s : state) :
  t <> t' ->
  pricesState (check_ticker up down receiver filename t' w s) !! t
  = pricesState s !! t.
Proof.
  intros Hne. unfold check_ticker, notify_then_record, record_price.
  destruct (fetched w) as [price|e]; [|reflexivity].
  destruct (previous (pricesState s) t') as [oldP|];
    [destruct (pctChange (Some oldP) (Some price)) as [change|]|];
    [destruct (up <=? change)%float; [|destruct (change <=? - down)%float]| |];
    try destruct (mailed w); cbn [pricesState];
    try reflexivity; apply lookup_insert_ne; congruence.
Qed.

Lemma check_ticker_trace (t : string) (w : turn) (s : state) (e : event) :
  In e (trace s) -> In e (trace (check_ticker up down receiver filename t w s)).
Proof.
  intros Hin. unfold check_ticker, notify_then_record, record_price.
  destruct (fetched w) as [price|err]; [|exact Hin].
  destruct (previous (pricesState s) t) as [oldP|];
    [destruct (pctChange (Some oldP) (Some price)) as [change|]|];
    [destruct (up <=? change)%float; [|destruct (change <=? - down)%float]| |];
    try destruct (mailed w); cbn [trace];
    repeat (apply in_or_app; left); exact Hin.
Qed.

Lemma check_from_other (t : string) (tickers : list string)
  (world : nat -> turn) :
  forall (i : nat) (s : state),
    ~ In t tickers ->
    pricesState (check_from up down receiver filename i tickers world s) !! t
    = pricesState s !! t.
Proof.
  induction tickers as [|t' rest IH]; intros i s Hnotin; cbn [check_from].
  - reflexivity.
  - rewrite IH by (intros H; apply Hnotin; right; exact H).
    apply check_ticker_other. intros ->. apply Hnotin. left. reflexivity.
Qed.

Lemma check_from_trace (tickers : list string) (world : nat -> turn)
  (e : event) :
  forall (i : nat) (s : state),
    In e (trace s) ->
    In e (trace (check_from up down receiver filename i tickers world s)).
Proof.
  induction tickers as [|t' rest IH]; intros i s Hin; cbn [check_from].
  - exact Hin.
  - apply IH, check_ticker_trace, Hin.
Qed.

Lemma check_from_app (before after : list string) (world : nat -> turn) :
  forall (i : nat) (s : state),
    check_from up down receiver filename i (before ++ after) world s
    = check_from up down receiver filename (i + length before) after world
        (check_from up down receiver filename i before world s).
Proof.
  induction before as [|t rest IH]; intros i s; cbn [check_from app length].
  - rewrite Nat.add_0_r. reflexivity.
  - rewrite IH. f_equal. lia.
Qed.

End Check.

(** C10. [pctChange] gives [null] when the old price is [null], when the
    new price is [null] and when the old price is 0, and it divides by
    nothing but a price that is not 0. So the turn of a ticker whose
    previous price is missing or 0 sends no mail; it records the fetched
    price with the time of the turn, and saves. *)
Theorem no_alert_without_base (up down : float) (receiver filename t : string)
  (w : turn) (s : state) (price : float) :
  fetched w = Fulfilled price ->
  baseless (previous (pricesState s) t) = true ->
  let s' := check_ticker up down receiver filename t w s in
  pricesState s' = <[t := mkEntry (Some price) (now w)]> (pricesState s)
  /\ trace s' = trace s ++ [SavePrices (pricesState s') filename]
  /\ results s' !! t = Some (Quote price (previous (pricesState s) t) None)
  /\ (forall newP, pctChange None newP = None)
  /\ (forall oldP, pctChange oldP None = None)
  /\ (forall oldP newP,
        (oldP =? 0)%float = true -> pctChange (Some oldP) newP = None)
  /\ (forall oldP newP change,
        pctChange (Some oldP) (Some newP) = Some change ->
        (oldP =? 0)%float = false).
Proof.
  intros Hfetch Hbase s'. subst s'.
  rewrite (check_ticker_baseless up down receiver filename t w s price Hfetch Hbase).
  unfold record_price. cbn [pricesState trace results].
  repeat split.
  - apply lookup_insert_eq.
  - intros [oldP|]; reflexivity.
  - intros oldP newP H0. apply (pctChange_baseless (Some oldP) newP H0).
  - intros oldP newP change H. apply (pctChange_divides oldP newP change H).
Qed.

(** A ticker whose stored price is 0. *)
Lemma no_alert_without_base_witness :
  let w := mkTurn (Fulfilled 812%float) (Fulfilled tt) "2025-09-26T08:00:00.000Z" in
  let s :=
    mkState {[ "NIIS" := mkEntry (Some 0%float) "2025-09-25T08:00:00.000Z" ]}
      ∅ [] in
  trace (check_ticker 5 5 "alerts@example.com" "prices.json" "NIIS" w s)
  = [SavePrices
       (pricesState
          (check_ticker 5 5 "alerts@example.com" "prices.json" "NIIS" w s))
       "prices.json"].
Proof.
  intros w s.
  apply (no_alert_without_base 5 5 "alerts@example.com" "prices.json" "NIIS"
           w s 812%float).
  - reflexivity.
  - vm_compute. reflexivity.
Defined.




End AlertsFacts.

Module MailboxFacts.
Import Mailbox.
Local Open Scope Z_scope.

(** After [n] failures in a row, at most ten, the counter is [n]. *)
Lemma failures_count (s : state) (n : nat) :
  stopped s = false ->
  reconnectAttempts s = 0 ->
  (n <= 10)%nat ->
  stopped (failures n s) = false
  /\ reconnectAttempts (failures n s) = Z.of_nat n.
Proof.
  intros Hrun H0. induction n as [|n IH]; intros Hn.
  - split; [exact Hrun | exact H0].
  - destruct IH as [IHrun IHcount]; [lia|].
    cbn [failures]. unfold scheduleReconnect. rewrite IHrun, IHcount.
    unfold MAX_RECONNECT.
    destruct (Z.gtb_spec (Z.of_nat n + 1) 10); [lia|].
    cbn [stopped reconnectAttempts]. split; [reflexivity | lia].
Qed.

Lemma delay_of_count (s : state) :
  stopped s = false ->
  0 <= reconnectAttempts s < 10 ->
  delay s = Some (Z.min 30000 (2000 * 2 ^ reconnectAttempts s)).
Proof.
  intros Hrun Hc. unfold delay, scheduleReconnect, MAX_RECONNECT.
  rewrite Hrun.
  destruct (Z.gtb_spec (reconnectAttempts s + 1) 10); [lia|].
  cbn [reconnectTimer]. rewrite Z.pow_add_r by lia.
  do 2 f_equal. lia.
Qed.

(** C7. Counting the failures in a row from a counter of zero, the delay
    before the [k]-th reconnect is [min(30000, 2000 * 2^(k-1))] for [k]
    from 1 to 10; the eleventh failure resets the counter and waits 60000
    ms; a connect that succeeds resets the counter, so that the next
    failure waits the base delay of 2000 ms again. *)
Theorem reconnect_backoff (s : state) (k : Z) :
  stopped s = false ->
  reconnectAttempts s = 0 ->
  1 <= k <= 10 ->
  delay (failures (Z.to_nat (k - 1)) s) = Some (Z.min 30000 (2000 * 2 ^ (k - 1)))
  /\ reconnectAttempts (failures (Z.to_nat k) s) = k
  /\ reconnectTimer (failures 11 s) = Some 60000
  /\ reconnectAttempts (failures 11 s) = 0
  /\ delay (failures 11 s) = Some 2000
  /\ (forall s0,
        stopped s0 = false ->
        reconnectAttempts (connect (mkWorld true true) s0) = 0
        /\ connection (connect (mkWorld true true) s0) = true
        /\ delay (connect (mkWorld true true) s0) = Some 2000).
Proof.
  intros Hrun H0 Hk.
  destruct (failures_count s (Z.to_nat (k - 1)) Hrun H0) as [Hr Hc]; [lia|].
  destruct (failures_count s (Z.to_nat k) Hrun H0) as [_ Hck]; [lia|].
  destruct (failures_count s 10 Hrun H0) as [Hr10 Hc10]; [lia|].
  assert (H11 : failures 11 s = mkState false false false (Some 60000) 0).
  { change (failures 11 s) with (scheduleReconnect (failures 10 s)).
    unfold scheduleReconnect. rewrite Hr10, Hc10. reflexivity. }
  split; [|split; [|split; [|split; [|split]]]].
  - rewrite (delay_of_count _ Hr) by lia.
    rewrite Hc, Z2Nat.id by lia. reflexivity.
  - rewrite Hck. lia.
  - rewrite H11. reflexivity.
  - rewrite H11. reflexivity.
  - rewrite H11. reflexivity.
  - intros s0 Hs0. unfold connect. rewrite Hs0. cbn. repeat split.
Qed.

(** The third failure in a row after the start waits eight seconds. *)
Lemma reconnect_backoff_witness :
  delay (failures (Z.to_nat (3 - 1)) initial) = Some (Z.min 30000 (2000 * 2 ^ (3 - 1))).
Proof.
  apply (reconnect_backoff initial 3).
  - reflexivity.
  - reflexivity.
  - lia.
Defined.

Example reconnect_delays :
  map (fun n => delay (failures n initial)) (seq 0 12)
  = map Some [2000; 4000; 8000; 16000; 30000; 30000; 30000; 30000; 30000;
              30000; 60000; 2000].
Proof. reflexivity. Qed.

End MailboxFacts.

Module NewsFacts.
Import JsString Async News.

Lemma has_add (seenSet : list string) (x : string) :
  has (add seenSet x) x = true.
Proof.
  unfold add. destruct (has seenSet x) eqn:H; [exact H|].
  unfold has. rewrite existsb_app. cbn.
  rewrite String.eqb_refl. apply orb_true_iff. right. reflexivity.
Qed.

(** What [deliver] does: it marks the link as seen and writes the seen
    file last, or the mail transport failed and the seen-set is as
    before. *)
Lemma deliver_cases (alerts : alerts_t) (seenSet : list string) (tr : row)
  (l : link) (t : option string) (localPath : string) (w : world) :
  let '(seen, did) := deliver alerts seenSet tr l t localPath w in
  (seen = add seenSet (pdfUrl l)
   /\ List.last did (FetchHTML "") = WriteSeen seen
   /\ marked did = true)
  \/ (seen = seenSet /\ marked did = false
      /\ exists e, smtp w = Some (Failed e)).
Proof.
  unfold deliver.
  destruct (recipients_of alerts t) as [|r rs].
  - left. repeat split.
  - destruct (smtp w) as [[[]|e]|].
    + left. repeat split.
    + right. repeat split. exists e. reflexivity.
    + left. repeat split.
Qed.

(** A link that is in the seen-set: the page is fetched and nothing else
    happens. *)
Lemma seen_link_skipped (alerts : alerts_t) (seenSet : list string)
  (url : string) (w : world) (tr : row) (l : link) :
  html w = Fulfilled (Some tr) ->
  pdf_link tr = Some l ->
  has seenSet (pdfUrl l) = true ->
  processFirstItemIfToday alerts seenSet url w = (seenSet, [FetchHTML url]).
Proof.
  intros Hhtml Hlink Hseen. unfold processFirstItemIfToday.
  rewrite Hhtml, Hlink, Hseen.
  destruct (parseDateFromTd (trim (date_text tr))) as [d|]; [|reflexivity].
  destruct (negb (same_day d (today w))); reflexivity.
Qed.

(** A call that wrote the seen file has put the link into the seen-set,
    and the write is the last thing it did. *)
Lemma marked_link_seen (alerts : alerts_t) (seenSet : list string)
  (url : string) (w : world) (tr : row) (l : link) :
  html w = Fulfilled (Some tr) ->
  pdf_link tr = Some l ->
  let '(seen, did) := processFirstItemIfToday alerts seenSet url w in
  (marked did = true ->
   has seen (pdfUrl l) = true /\ List.last did (FetchHTML "") = WriteSeen seen)
  /\ (marked did = false -> seen = seenSet).
Proof.
  intros Hhtml Hlink. unfold processFirstItemIfToday.
  rewrite Hhtml, Hlink.
  destruct (parseDateFromTd (trim (date_text tr))) as [d|];
    [|split; [discriminate | reflexivity]].
  destruct (negb (same_day d (today w)));
    [split; [discriminate | reflexivity]|].
  destruct (has seenSet (pdfUrl l)); [split; [discriminate | reflexivity]|].
  destruct (downloaded w) as [localPath|e];
    [|split; [discriminate | reflexivity]].
  pose proof (deliver_cases alerts seenSet tr l
                (ticker tr (map fst alerts)) localPath w) as Hd.
  destruct (deliver alerts seenSet tr l (ticker tr (map fst alerts)) localPath w)
    as [seen did].
  destruct Hd as [(-> & Hlast & Hm) | (-> & Hm & _)];
    change (marked (FetchHTML url :: Download (pdfUrl l) :: did))
      with (marked did);
    rewrite Hm.
  - split; [|discriminate].
    intros _. split; [apply has_add|].
    destruct did as [|e did]; [discriminate Hm|]. exact Hlast.
  - split; [discriminate | reflexivity].
Qed.

(** A mail that went out is followed by the write of the seen file. *)
Lemma sent_mail_marked (alerts : alerts_t) (seenSet : list string)
  (url : string) (w : world) :
  smtp w = Some (Fulfilled tt) ->
  emails (snd (processFirstItemIfToday alerts seenSet url w)) <> [] ->
  marked (snd (processFirstItemIfToday alerts seenSet url w)) = true.
Proof.
  intros Hsmtp. unfold processFirstItemIfToday.
  destruct (html w) as [[tr|]|e]; try (intros H; exfalso; apply H; reflexivity).
  destruct (parseDateFromTd (trim (date_text tr))) as [d|];
    [|intros H; exfalso; apply H; reflexivity].
  destruct (negb (same_day d (today w)));
    [intros H; exfalso; apply H; reflexivity|].
  destruct (pdf_link tr) as [l|]; [|intros H; exfalso; apply H; reflexivity].
  destruct (has seenSet (pdfUrl l));
    [intros H; exfalso; apply H; reflexivity|].
  destruct (downloaded w) as [localPath|e];
    [|intros H; exfalso; apply H; reflexivity].
  unfold deliver. rewrite Hsmtp.
  destruct (recipients_of alerts (ticker tr (map fst alerts))); reflexivity.
Qed.

(** A link of today that is not in the seen-set and whose PDF has been
    downloaded: the call goes on to [deliver]. *)
Lemma fresh_link_delivered (alerts : alerts_t) (seenSet : list string)
  (url : string) (w : world) (tr : row) (l : link) (d : date)
  (localPath : string) :
  html w = Fulfilled (Some tr) ->
  pdf_link tr = Some l ->
  has seenSet (pdfUrl l) = false ->
  parseDateFromTd (trim (date_text tr)) = Some d ->
  same_day d (today w) = true ->
  downloaded w = Fulfilled localPath ->
  processFirstItemIfToday alerts seenSet url w
  = (fst (deliver alerts seenSet tr l (ticker tr (map fst alerts)) localPath w),
     FetchHTML url :: Download (pdfUrl l)
     :: snd (deliver alerts seenSet tr l (ticker tr (map fst alerts))
               localPath w)).
Proof.
  intros Hhtml Hlink Hseen Hdate Htoday Hdown. unfold processFirstItemIfToday.
  rewrite Hhtml, Hdate, Htoday, Hlink, Hseen, Hdown. cbn [negb].
  destruct (deliver alerts seenSet tr l (ticker tr (map fst alerts))
              localPath w).
  reflexivity.
Qed.

Lemma add_new (seenSet : list string) (x : string) :
  has seenSet x = false -> add seenSet x = seenSet ++ [x].
Proof. intros H. unfold add. rewrite H. reflexivity. Qed.

(** A write of the seen file that completes leaves the document of the
    set in the file. *)
Lemma write_seen_complete (fs : Persist.files) (file : string)
  (seen : list string) :
  List.last (write_seen Persist.Completes fs file (WriteSeen seen)) fs !! file
  = Some (stringify_seen seen).
Proof.
  cbn [write_seen]. unfold Persist.writeJSON.
  rewrite PersistFacts.last_complete. apply lookup_insert_eq.
Qed.



Example sample_run :
  processFirstItemIfToday sample_alerts [] sample_url sample_world
  = ([pdfUrl sample_link],
     [FetchHTML sample_url; Download (pdfUrl sample_link);
      Email ["trader@example.com"]
        "VEST: NIIS - Izvestaj o znacajnom dogadjaju"
        "<h3>NIS a.d. Novi Sad - Izvestaj</h3><p><strong>Trenutna cena za NIIS:</strong> 812</p><p>U prilogu je originalni PDF.</p>"
        "pdfs/1758873600000-00143497.pdf";
      WriteSeen [pdfUrl sample_link]]).
Proof. vm_compute. reflexivity. Qed.

End NewsFacts.

Module TransportMore.
Import JsString JsNumber Transport TransportFacts.
Local Open Scope Z_scope.

(** The first good response ends the call. *)
Lemma attempts_from_success (fetch : Z -> attempt_result) (random : Z -> Q)
  (url : string) (retries : Z) (fuel : nat) (attempt : Z)
  (lastErr : option error) (trace : list event) (status : Z) :
  attempt <= retries ->
  fetch attempt = Responded status ->
  ok status = true ->
  attempts_from fetch random url retries (S fuel) attempt lastErr trace
  = Some (Returned status, trace ++ [Fetch attempt]).
Proof.
  intros Hle Hfetch Hok. cbn [attempts_from].
  destruct (Z.leb_spec attempt retries); [|lia].
  rewrite Hfetch, Hok. reflexivity.
Qed.

(** The shape of every run that makes an attempt: some attempts that are
    each followed by a delay, and one last attempt. *)
Lemma attempts_from_shape (fetch : Z -> attempt_result) (random : Z -> Q)
  (url : string) (retries : Z) (fuel : nat) :
  forall (attempt : Z) (lastErr : option error) (trace : list event),
    attempt <= retries ->
    retries - attempt + 1 <= Z.of_nat fuel ->
    exists (n : nat) (out : outcome),
      Z.of_nat n <= retries - attempt
      /\ attempts_from fetch random url retries fuel attempt lastErr trace
         = Some (out,
                 trace ++ retried random n attempt
                 ++ [Fetch (attempt + Z.of_nat n)]).
Proof.
  induction fuel as [|fuel IH]; intros attempt lastErr trace Hle Hfuel; [lia|].
  cbn [attempts_from].
  destruct (Z.leb_spec attempt retries); [|lia].
  assert (Hone : forall out,
    exists (n : nat) (out' : outcome),
      Z.of_nat n <= retries - attempt
      /\ Some (out, trace ++ [Fetch attempt])
         = Some (out',
                 trace ++ retried random n attempt
                 ++ [Fetch (attempt + Z.of_nat n)])).
  { intros out. exists 0%nat, out. split; [lia|].
    cbn [retried app]. rewrite Z.add_0_r. reflexivity. }
  assert (Hnext : forall err,
    exists (n : nat) (out : outcome),
      Z.of_nat n <= retries - attempt
      /\ (if negb (isTransient err) || (attempt =? retries)
          then Some (Thrown (Some err), trace ++ [Fetch attempt])
          else attempts_from fetch random url retries fuel (attempt + 1)
                 (Some err)
                 ((trace ++ [Fetch attempt])
                  ++ [Sleep (backoffBase attempt + jitter (random attempt))]))
         = Some (out,
                 trace ++ retried random n attempt
                 ++ [Fetch (attempt + Z.of_nat n)])).
  { intros err. destruct (Z.eqb_spec attempt retries) as [Heq|Hne].
    - rewrite orb_true_r. apply Hone.
    - rewrite orb_false_r. destruct (negb (isTransient err)); [apply Hone|].
      destruct (IH (attempt + 1) (Some err)
                  ((trace ++ [Fetch attempt])
                   ++ [Sleep (backoffBase attempt + jitter (random attempt))]))
        as (n & out & Hn & Hrun); [lia | lia |].
      exists (S n), out. split; [lia|].
      rewrite Hrun. cbn [retried]. rewrite <- !app_assoc. cbn [app].
      replace (attempt + Z.of_nat (S n)) with (attempt + 1 + Z.of_nat n) by lia.
      reflexivity. }
  destruct (fetch attempt) as [status|err].
  - destruct (ok status); [apply Hone | apply Hnext].
  - apply Hnext.
Qed.

Lemma backoffBase_range (attempt : Z) :
  1 <= attempt -> 1000 <= backoffBase attempt <= 10000.
Proof.
  intros H. unfold backoffBase.
  assert (1 <= 2 ^ (attempt - 1)) by (apply Z.pow_le_mono_r with (b := 0); lia).
  lia.
Qed.

Lemma sleeps_retried_range (random : Z -> Q) (n : nat) :
  forall attempt,
    1 <= attempt ->
    (forall a, (0 <= random a)%Q /\ (random a < 1)%Q) ->
    Forall (fun ms => 1000 <= ms < 10500) (sleeps (retried random n attempt)).
Proof.
  induction n as [|n IH]; intros attempt Ha Hrandom.
  - apply Forall_nil. exact I.
  - cbn [retried]. unfold sleeps in *. cbn [omap list_omap].
    apply Forall_cons. split.
    + pose proof (backoffBase_range attempt Ha).
      pose proof (jitter_range (random attempt)
                    (proj1 (Hrandom attempt)) (proj2 (Hrandom attempt))).
      lia.
    + apply IH; [lia | exact Hrandom].
Qed.

Lemma sleeps_retried_length (random : Z -> Q) (n : nat) (attempt : Z) :
  length (sleeps (retried random n attempt)) = n.
Proof. rewrite sleeps_retried, length_map, length_seqZ. lia. Qed.

(** X1. A response with a status in 200..299 ends [fetchWithRetries] at
    once: when the attempts before the [k]-th failed with transient
    errors and the [k]-th gets such a response, the call returns it after
    exactly [k] attempts and [k - 1] delays, and sleeps no more. *)
Theorem success_after_retries (fetch : Z -> attempt_result) (random : Z -> Q)
  (url : string) (retries k status : Z) :
  1 <= k <= retries ->
  (forall a, 1 <= a < k -> fails_transiently url (fetch a) = true) ->
  fetch k = Responded status ->
  ok status = true ->
  fetchWithRetries fetch random url retries
  = Some (Returned status, retried random (Z.to_nat (k - 1)) 1 ++ [Fetch k])
  /\ fetches (retried random (Z.to_nat (k - 1)) 1 ++ [Fetch k]) = seqZ 1 k
  /\ length (sleeps (retried random (Z.to_nat (k - 1)) 1 ++ [Fetch k]))
     = Z.to_nat (k - 1).
Proof.
  intros Hk Hbefore Hfetch Hok.
  set (n := Z.to_nat (k - 1)).
  split; [|split].
  - destruct (attempts_from_retried fetch random url retries n
                (S (Z.to_nat (retries - k))) 1 None [])
      as (lastErr' & Hrun).
    { subst n. lia. }
    { intros a Ha. apply Hbefore. subst n. lia. }
    unfold fetchWithRetries.
    replace (Z.to_nat retries) with (n + S (Z.to_nat (retries - k)))%nat
      by (subst n; lia).
    rewrite Hrun. cbn [app].
    replace (1 + Z.of_nat n) with k by (subst n; lia).
    apply attempts_from_success; [lia | exact Hfetch | exact Hok].
  - unfold fetches. rewrite omap_app. fold (fetches (retried random n 1)).
    rewrite fetches_retried. cbn [omap list_omap].
    assert (Hn : k = Z.of_nat n + 1) by (subst n; lia).
    rewrite Hn at 2. rewrite seqZ_app by lia.
    f_equal. rewrite seqZ_cons, seqZ_nil by lia. f_equal. lia.
  - unfold sleeps. rewrite omap_app. fold (sleeps (retried random n 1)).
    cbn [omap list_omap]. rewrite app_nil_r. apply sleeps_retried_length.
Qed.

(** The second attempt succeeds after one reset of the connection. *)
Lemma success_after_retries_witness :
  fetchWithRetries
    (fun a => if a =? 2 then Responded 200
              else Rejected (mkError (Some "ECONNRESET") "read ECONNRESET" None))
    (fun _ => 0%Q) "https://www.belex.rs/trgovanje/vesti/hartija/NIIS" 3
  = Some (Returned 200, [Fetch 1; Sleep 1000; Fetch 2]).
Proof.
  apply (success_after_retries
           (fun a => if a =? 2 then Responded 200
                     else Rejected (mkError (Some "ECONNRESET")
                                      "read ECONNRESET" None))
           (fun _ => 0%Q)
           "https://www.belex.rs/trgovanje/vesti/hartija/NIIS" 3 2 200).
  - lia.
  - intros a Ha. replace a with 1 by lia. reflexivity.
  - reflexivity.
  - reflexivity.
Defined.

(** X2. In every world, with [retries] at least 1, the trace of
    [fetchWithRetries] is some attempts that are each followed by one
    delay, and one last attempt: the call never sleeps after its last
    attempt, it sleeps one time less than it fetches, and every delay is
    at least 1000 ms and less than 10500 ms. *)
Theorem delays_between_attempts (fetch : Z -> attempt_result)
  (random : Z -> Q) (url : string) (retries : Z) :
  1 <= retries ->
  (forall a, (0 <= random a)%Q /\ (random a < 1)%Q) ->
  exists (n : nat) (out : outcome),
    Z.of_nat n < retries
    /\ fetchWithRetries fetch random url retries
       = Some (out, retried random n 1 ++ [Fetch (1 + Z.of_nat n)])
    /\ length (sleeps (retried random n 1 ++ [Fetch (1 + Z.of_nat n)])) = n
    /\ length (fetches (retried random n 1 ++ [Fetch (1 + Z.of_nat n)])) = S n
    /\ Forall (fun ms => 1000 <= ms < 10500)
         (sleeps (retried random n 1 ++ [Fetch (1 + Z.of_nat n)])).
Proof.
  intros Hretries Hrandom.
  destruct (attempts_from_shape fetch random url retries (Z.to_nat retries)
              1 None []) as (n & out & Hn & Hrun); [lia | lia |].
  exists n, out. split; [lia|]. split; [exact Hrun|].
  unfold sleeps, fetches. rewrite !omap_app.
  fold (sleeps (retried random n 1)). fold (fetches (retried random n 1)).
  cbn [omap list_omap]. rewrite app_nil_r.
  split; [apply sleeps_retried_length|]. split.
  - rewrite length_app, fetches_retried, length_seqZ. cbn [length]. lia.
  - apply sleeps_retried_range; [lia | exact Hrandom].
Qed.

(** Two time-outs and then a response 503, which is the last attempt. *)
Lemma delays_between_attempts_witness :
  exists (n : nat) (out : outcome),
    Z.of_nat n < 3
    /\ fetchWithRetries
         (fun a => if a =? 3 then Responded 503
                   else Rejected (mkError (Some "ETIMEDOUT") "timed out" None))
         (fun _ => (3 # 4)%Q) "https://www.belex.rs/x" 3
       = Some (out, retried (fun _ => (3 # 4)%Q) n 1 ++ [Fetch (1 + Z.of_nat n)])
    /\ length (sleeps (retried (fun _ => (3 # 4)%Q) n 1
                       ++ [Fetch (1 + Z.of_nat n)])) = n
    /\ length (fetches (retried (fun _ => (3 # 4)%Q) n 1
                        ++ [Fetch (1 + Z.of_nat n)])) = S n
    /\ Forall (fun ms => 1000 <= ms < 10500)
         (sleeps (retried (fun _ => (3 # 4)%Q) n 1
                  ++ [Fetch (1 + Z.of_nat n)])).
Proof.
  apply (delays_between_attempts
           (fun a => if a =? 3 then Responded 503
                     else Rejected (mkError (Some "ETIMEDOUT") "timed out" None))
           (fun _ => (3 # 4)%Q) "https://www.belex.rs/x" 3).
  - lia.
  - intros a. split; [discriminate | reflexivity].
Defined.

End TransportMore.

Module AlertsMore.
Import JsNumber Async Alerts AlertsLog AlertsFacts.

Section Check.
Variable up down : float.
Variable receiver : string.
Variable filename : string.

Abbreviation turn_of := (check_ticker up down receiver filename).
Abbreviation run_from := (check_from up down receiver filename).

(** The turn of a ticker reads the prices and the trace, never the
    results; to the results it adds the entry of its ticker. *)
Lemma check_ticker_frame (t : string) (w : turn) (s1 s2 : state) :
  pricesState s1 = pricesState s2 ->
  trace s1 = trace s2 ->
  pricesState (turn_of t w s1) = pricesState (turn_of t w s2)
  /\ trace (turn_of t w s1) = trace (turn_of t w s2)
  /\ exists r,
       results (turn_of t w s1) = <[t := r]> (results s1)
       /\ results (turn_of t w s2) = <[t := r]> (results s2).
Proof.
  destruct s1 as [d1 r1 tr1], s2 as [d2 r2 tr2]. cbn [pricesState trace].
  intros -> ->. unfold check_ticker, notify_then_record, record_price.
  cbn [pricesState trace results].
  destruct (fetched w) as [price|e]; cbn [pricesState trace results];
    [|eauto].
  destruct (previous d2 t) as [oldP|];
    [destruct (pctChange (Some oldP) (Some price)) as [change|]|];
    [destruct (up <=? change)%float; [|destruct (change <=? - down)%float]| |];
    try destruct (mailed w); cbn [pricesState trace results];
    rewrite ?insert_insert_eq; eauto.
Qed.

Lemma check_ticker_results (t : string) (w : turn) (s : state) :
  exists r, results (turn_of t w s) = <[t := r]> (results s).
Proof.
  destruct (check_ticker_frame t w s s eq_refl eq_refl) as (_ & _ & r & H & _).
  eauto.
Qed.

Lemma check_from_frame (tickers : list string) (world : nat -> turn) :
  forall (i : nat) (s1 s2 : state),
    pricesState s1 = pricesState s2 ->
    trace s1 = trace s2 ->
    pricesState (run_from i tickers world s1)
    = pricesState (run_from i tickers world s2)
    /\ trace (run_from i tickers world s1) = trace (run_from i tickers world s2)
    /\ (forall k,
          results s1 !! k = results s2 !! k \/ In k tickers ->
          results (run_from i tickers world s1) !! k
          = results (run_from i tickers world s2) !! k).
Proof.
  induction tickers as [|t rest IH]; intros i s1 s2 Hd Htr; cbn [check_from].
  - repeat split; try assumption. intros k [H|[]]. exact H.
  - destruct (check_ticker_frame t (world i) s1 s2 Hd Htr)
      as (Hd' & Htr' & r & Hr1 & Hr2).
    destruct (IH (S i) _ _ Hd' Htr') as (Hd'' & Htr'' & Hres).
    repeat split; try assumption.
    intros k Hk. apply Hres.
    destruct (decide (k = t)) as [->|Hne].
    + left. rewrite Hr1, Hr2, !lookup_insert_eq. reflexivity.
    + destruct Hk as [Hk|[Hk|Hk]]; [|congruence|right; exact Hk].
      left. rewrite Hr1, Hr2, !lookup_insert_ne by congruence. exact Hk.
Qed.

(** Shifting the worlds by one. *)
Lemma check_from_shift (tickers : list string) (world world' : nat -> turn) :
  forall (i j : nat) (s : state),
    (forall n, world' (j + n)%nat = world (i + n)%nat) ->
    run_from j tickers world' s = run_from i tickers world s.
Proof.
  induction tickers as [|t rest IH]; intros i j s Hw; cbn [check_from].
  - reflexivity.
  - pose proof (Hw 0%nat) as H0. rewrite !Nat.add_0_r in H0. rewrite H0.
    apply IH. intros n. replace (S j + n)%nat with (j + S n)%nat by lia.
    replace (S i + n)%nat with (i + S n)%nat by lia. apply Hw.
Qed.

Lemma check_from_same (tickers : list string) (world world' : nat -> turn) :
  forall (i : nat) (s : state),
    (forall n, (n < i + length tickers)%nat -> world' n = world n) ->
    run_from i tickers world' s = run_from i tickers world s.
Proof.
  induction tickers as [|t rest IH]; intros i s Hw; cbn [check_from].
  - reflexivity.
  - rewrite (Hw i) by (cbn [length]; lia).
    apply IH. intros n Hn. apply Hw. cbn [length]. lia.
Qed.

(** The results have an entry for the tickers of the list and for no
    other key. *)
Lemma check_from_results (tickers : list string) (world : nat -> turn) :
  forall (i : nat) (s : state) (k : string),
    is_Some (results (run_from i tickers world s) !! k)
    <-> is_Some (results s !! k) \/ In k tickers.
Proof.
  induction tickers as [|t rest IH]; intros i s k; cbn [check_from].
  - split; [intros H; left; exact H | intros [H|[]]; exact H].
  - rewrite IH. destruct (check_ticker_results t (world i) s) as (r & ->).
    destruct (decide (k = t)) as [->|Hne].
    + rewrite lookup_insert_eq. split.
      * intros _. right. left. reflexivity.
      * intros _. left. eauto.
    + rewrite lookup_insert_ne by congruence. split.
      * intros [H|H]; [left; exact H | right; right; exact H].
      * intros [H|[H|H]]; [left; exact H | congruence | right; exact H].
Qed.

(** What is saved last is what the memory holds. *)
Lemma last_saved_app_save (tr : list event) (data : prices) (f : string) :
  last_saved (tr ++ [SavePrices data f]) = Some data.
Proof.
  unfold last_saved. rewrite List.filter_app, List.map_app. cbn.
  apply List.last_last.
Qed.

Lemma last_saved_app_mail (tr : list event) (to : string) (a b : template) :
  last_saved (tr ++ [Mail to a b]) = last_saved tr.
Proof.
  unfold last_saved. rewrite List.filter_app. cbn. rewrite app_nil_r.
  reflexivity.
Qed.

Lemma check_ticker_saved (t : string) (w : turn) (s : state) (data0 : prices) :
  pricesState s = default data0 (last_saved (trace s)) ->
  pricesState (turn_of t w s)
  = default data0 (last_saved (trace (turn_of t w s))).
Proof.
  intros Hinv. unfold check_ticker, notify_then_record, record_price, alert.
  destruct (fetched w) as [price|e]; cbn [pricesState trace]; [|exact Hinv].
  destruct (previous (pricesState s) t) as [oldP|];
    [destruct (pctChange (Some oldP) (Some price)) as [change|]|];
    [destruct (up <=? change)%float; [|destruct (change <=? - down)%float]| |];
    try destruct (mailed w); cbn [pricesState trace];
    rewrite ?last_saved_app_save, ?last_saved_app_mail; try reflexivity;
    exact Hinv.
Qed.

Lemma check_from_saved (tickers : list string) (world : nat -> turn)
  (data0 : prices) :
  forall (i : nat) (s : state),
    pricesState s = default data0 (last_saved (trace s)) ->
    pricesState (run_from i tickers world s)
    = default data0 (last_saved (trace (run_from i tickers world s))).
Proof.
  induction tickers as [|t rest IH]; intros i s Hinv; cbn [check_from].
  - exact Hinv.
  - apply IH, check_ticker_saved, Hinv.
Qed.

End Check.

(** X3. The result object of [checkTickersAndAlert] has an entry for
    every ticker of the list, be it a quote or an error, and for no other
    key; and the tickers that are not in the list keep their entries in
    the prices state. *)
Theorem results_cover_tickers (up down : float) (receiver filename : string)
  (tickers : list string) (data : prices) (world : nat -> turn) (k : string) :
  let s' := checkTickersAndAlert up down receiver filename tickers data world in
  (is_Some (results s' !! k) <-> In k tickers)
  /\ (~ In k tickers -> pricesState s' !! k = data !! k).
Proof.
  cbn zeta. unfold checkTickersAndAlert. split.
  - rewrite check_from_results. cbn [results]. rewrite lookup_empty.
    split; [intros [[x Hx]|H]; [discriminate | exact H] | intros H; right; exact H].
  - intros Hk. rewrite check_from_other by exact Hk. reflexivity.
Qed.

(** X4. A ticker whose price cannot be fetched changes nothing but its
    own result: the prices state and the mails and saves of the run are
    those of the run without that ticker, and so are the results of the
    other tickers, while its own result is the error. *)
Theorem failed_ticker_is_isolated (up down : float) (receiver filename : string)
  (before after : list string) (t : string) (data : prices)
  (world : nat -> turn) (e : string) :
  fetched (world (length before)) = Failed e ->
  let s1 :=
    checkTickersAndAlert up down receiver filename (before ++ t :: after)
      data world in
  let s2 :=
    checkTickersAndAlert up down receiver filename (before ++ after) data
      (without (length before) world) in
  pricesState s1 = pricesState s2
  /\ trace s1 = trace s2
  /\ (forall k, k <> t -> results s1 !! k = results s2 !! k)
  /\ (~ In t after -> results s1 !! t = Some (Error e)).
Proof.
  intros Hfetch s1 s2. subst s1 s2. unfold checkTickersAndAlert.
  rewrite !check_from_app. cbn [check_from Nat.add].
  set (s0 := check_from up down receiver filename 0 before world _).
  assert (Hbefore :
    check_from up down receiver filename 0 before
      (without (length before) world) (mkState data ∅ []) = s0).
  { subst s0. apply check_from_same. intros n Hn. unfold without.
    destruct (Nat.ltb_spec n (length before)); [reflexivity | lia]. }
  rewrite Hbefore.
  assert (Hafter : forall s,
    check_from up down receiver filename (length before) after
      (without (length before) world) s
    = check_from up down receiver filename (S (length before)) after world s).
  { intros s. apply check_from_shift. intros n. unfold without.
    destruct (Nat.ltb_spec (length before + n) (length before)); [lia|].
    f_equal. }
  rewrite Hafter.
  set (sf := check_ticker up down receiver filename t (world (length before)) s0).
  assert (Hsf : sf = mkState (pricesState s0) (<[t := Error e]> (results s0))
                       (trace s0)).
  { subst sf. unfold check_ticker. rewrite Hfetch. reflexivity. }
  destruct (check_from_frame up down receiver filename after world
              (S (length before)) sf s0) as (Hd & Htr & Hres).
  { rewrite Hsf. reflexivity. }
  { rewrite Hsf. reflexivity. }
  split; [exact Hd|]. split; [exact Htr|]. split.
  - intros k Hk. apply Hres. left. rewrite Hsf. cbn [results].
    apply lookup_insert_ne. congruence.
  - intros Hnot.
    assert (Hkeep : forall (l : list string) (i : nat) (s : state),
      ~ In t l ->
      results (check_from up down receiver filename i l world s) !! t
      = results s !! t).
    { induction l as [|t' l IH]; intros i s Hl; cbn [check_from];
        [reflexivity|].
      rewrite IH by (intros H; apply Hl; right; exact H).
      destruct (check_ticker_results up down receiver filename t' (world i) s)
        as (r & ->).
      apply lookup_insert_ne. intros ->. apply Hl. left. reflexivity. }
    rewrite Hkeep by exact Hnot. rewrite Hsf. cbn [results].
    apply lookup_insert_eq.
Qed.

(** The page of the second of three tickers does not load. *)
Lemma failed_ticker_is_isolated_witness :
  let world := fun i : nat =>
    match i with
    | 1%nat => mkTurn (Failed "net::ERR_TIMED_OUT") (Fulfilled tt) "t1"
    | _ => mkTurn (Fulfilled 106%float) (Fulfilled tt) "t0"
    end in
  trace (checkTickersAndAlert 5 5 "alerts@example.com" "prices.json"
           (["NIIS"] ++ "AERO" :: ["JESV"]) ∅ world)
  = trace (checkTickersAndAlert 5 5 "alerts@example.com" "prices.json"
             (["NIIS"] ++ ["JESV"]) ∅ (without (length ["NIIS"]) world)).
Proof.
  intros world.
  apply (failed_ticker_is_isolated 5 5 "alerts@example.com" "prices.json"
           ["NIIS"] ["JESV"] "AERO" ∅ world "net::ERR_TIMED_OUT").
  reflexivity.
Defined.

(** X5. After [checkTickersAndAlert] the prices state in memory is the
    data of the last [savePrices] call of the run, or the state the run
    started from when the run saved nothing: memory is never ahead of
    what was handed to [savePrices]. *)
Theorem memory_is_what_was_saved (up down : float) (receiver filename : string)
  (tickers : list string) (data : prices) (world : nat -> turn) :
  let s' := checkTickersAndAlert up down receiver filename tickers data world in
  pricesState s' = default data (last_saved (trace s')).
Proof.
  cbn zeta. unfold checkTickersAndAlert. apply check_from_saved. reflexivity.
Qed.

End AlertsMore.

Module TrackerFacts.
Import Async News Tracker.

Lemma has_false_not_in (seenSet : list string) (x : string) :
  has seenSet x = false -> x ∉ seenSet.
Proof.
  unfold has. intros H Hin. apply list_elem_of_In in Hin.
  assert (existsb (String.eqb x) seenSet = true) as Ht; [|congruence].
  apply existsb_exists. exists x. split; [exact Hin | apply String.eqb_refl].
Qed.

(** One call leaves the seen-set alone and writes nothing, or it appends
    one identifier that was not in the set and writes the new set. *)
Lemma process_step (alerts : alerts_t) (seenSet : list string) (url : string)
  (w : world) :
  let r := processFirstItemIfToday alerts seenSet url w in
  (fst r = seenSet /\ writes (snd r) = [])
  \/ (exists u, has seenSet u = false /\ fst r = seenSet ++ [u]
                /\ writes (snd r) = [seenSet ++ [u]]).
Proof.
  cbn zeta. unfold processFirstItemIfToday.
  destruct (html w) as [[tr|]|]; try (left; split; reflexivity).
  destruct (parseDateFromTd _) as [parsedDate|]; try (left; split; reflexivity).
  destruct (negb _); try (left; split; reflexivity).
  destruct (pdf_link tr) as [linkEl|]; try (left; split; reflexivity).
  destruct (has seenSet (pdfUrl linkEl)) eqn:Hhas;
    try (left; split; reflexivity).
  destruct (downloaded w) as [localPath|]; try (left; split; reflexivity).
  unfold deliver, add. rewrite Hhas.
  destruct (recipients_of _ _) as [|r rs]; cbn.
  - right. exists (pdfUrl linkEl). repeat split; assumption || reflexivity.
  - destruct (smtp w) as [[[]|]|]; cbn.
    + right. exists (pdfUrl linkEl). repeat split; assumption || reflexivity.
    + left. split; reflexivity.
    + right. exists (pdfUrl linkEl). repeat split; assumption || reflexivity.
Qed.

Lemma last_cons_default {A : Type} (l : list A) (a d : A) :
  List.last (a :: l) d = List.last l a.
Proof.
  revert a d. induction l as [|b l IH]; intros a d; [reflexivity|].
  change (List.last (a :: b :: l) d) with (List.last (b :: l) d).
  rewrite !IH. reflexivity.
Qed.

Lemma writes_app (a b : list event) : writes (a ++ b) = writes a ++ writes b.
Proof. unfold writes. apply omap_app. Qed.

Lemma check_urls_accounting (alerts : alerts_t) (world : nat -> world)
  (urls : list string) :
  forall (i : nat) (seenSet : list string),
    NoDup seenSet ->
    exists news,
      fst (check_urls alerts urls world i seenSet) = seenSet ++ news
      /\ NoDup (seenSet ++ news)
      /\ length (writes (snd (check_urls alerts urls world i seenSet)))
         = length news
      /\ List.last (writes (snd (check_urls alerts urls world i seenSet)))
           seenSet
         = seenSet ++ news.
Proof.
  induction urls as [|url rest IH]; intros i seenSet Hnd; cbn [check_urls].
  - exists []. rewrite app_nil_r. repeat split; try reflexivity. exact Hnd.
  - pose proof (process_step alerts seenSet url (world i)) as Hstep.
    cbn zeta in Hstep.
    destruct (processFirstItemIfToday alerts seenSet url (world i))
      as [seen did]. cbn [fst snd] in Hstep.
    destruct Hstep as [[-> Hw]|(u & Hu & -> & Hw)].
    + destruct (IH (S i) seenSet Hnd) as (news & H1 & H2 & H3 & H4).
      destruct (check_urls alerts rest world (S i) seenSet) as [seen' did'].
      cbn [fst snd] in *. exists news. rewrite writes_app, Hw. cbn [app].
      repeat split; assumption.
    + assert (Hnd' : NoDup (seenSet ++ [u])).
      { apply NoDup_app. split; [exact Hnd|]. split.
        - intros x Hx Hxu. apply list_elem_of_singleton in Hxu. subst x.
          exact (has_false_not_in _ _ Hu Hx).
        - apply NoDup_singleton. }
      destruct (IH (S i) (seenSet ++ [u]) Hnd') as (news & H1 & H2 & H3 & H4).
      destruct (check_urls alerts rest world (S i) (seenSet ++ [u]))
        as [seen' did'].
      cbn [fst snd] in *. exists (u :: news).
      rewrite writes_app, Hw. cbn [app length].
      rewrite <- app_assoc in H1, H2, H4. cbn [app] in H1, H2, H4.
      repeat split; try assumption.
      * rewrite H3. reflexivity.
      * rewrite last_cons_default. exact H4.
Qed.

(** X6. In one pass of [checkAllTickersOnce] the seen-set only grows, by
    identifiers appended at its end; a set without repetition stays
    without repetition (no link is marked twice); the pass writes the
    seen file once per new identifier; and the last document written is
    the set the pass ends with. *)
Theorem pass_accounting (alerts : alerts_t) (seenSet urls : list string)
  (world : nat -> world) :
  NoDup seenSet ->
  exists news,
    fst (checkAllTickersOnce alerts seenSet urls world) = seenSet ++ news
    /\ NoDup (seenSet ++ news)
    /\ length (writes (snd (checkAllTickersOnce alerts seenSet urls world)))
       = length news
    /\ List.last (writes (snd (checkAllTickersOnce alerts seenSet urls world)))
         seenSet
       = seenSet ++ news.
Proof.
  intros Hnd. unfold checkAllTickersOnce. apply check_urls_accounting, Hnd.
Qed.

(** Two pages that show the same news item of today: the link is
    processed for the first page only. *)
Lemma pass_accounting_witness :
  exists news,
    fst (checkAllTickersOnce sample_alerts [] [sample_url; sample_url]
           (fun _ => sample_world))
    = [] ++ news
    /\ NoDup ([] ++ news)
    /\ length (writes (snd (checkAllTickersOnce sample_alerts []
                              [sample_url; sample_url]
                              (fun _ => sample_world))))
       = length news
    /\ List.last (writes (snd (checkAllTickersOnce sample_alerts []
                                 [sample_url; sample_url]
                                 (fun _ => sample_world)))) []
       = [] ++ news.
Proof.
  apply (pass_accounting sample_alerts [] [sample_url; sample_url]
           (fun _ => sample_world)).
  apply NoDup_nil_2.
Defined.

End TrackerFacts.

Module ListenerFacts.
Import Mailbox Listener.
Local Open Scope Z_scope.

Lemma backoff_in_delays (n : Z) :
  1 <= n <= 10 -> In (Z.min 30000 (1000 * 2 ^ n)) delays.
Proof.
  intros Hn.
  assert (n = 1 \/ n = 2 \/ n = 3 \/ n = 4 \/ 5 <= n <= 10) as H by lia.
  destruct H as [->|[->|[->|[->|H]]]]; cbn; auto 10.
  assert (2 ^ 5 <= 2 ^ n) by (apply Z.pow_le_mono_r; lia).
  change (2 ^ 5) with 32 in *.
  rewrite Z.min_l by lia. auto 10.
Qed.

Lemma scheduleReconnect_sound (s : state) :
  sound s -> sound (scheduleReconnect s).
Proof.
  intros (Hc & Ht & Hs). unfold scheduleReconnect, MAX_RECONNECT in *.
  destruct (stopped s) eqn:Hstop; [repeat split; tauto || lia|].
  destruct (Z.gtb_spec (reconnectAttempts s + 1) 10); unfold sound;
    cbn [reconnectAttempts reconnectTimer stopped]; unfold MAX_RECONNECT.
  - repeat split; try lia; try discriminate.
    intros d [= <-]. cbn. auto 10.
  - repeat split; try lia; try discriminate.
    intros d [= <-]. apply backoff_in_delays. lia.
Qed.

Lemma connect_sound (w : world) (s : state) : sound s -> sound (connect w s).
Proof.
  intros Hs. unfold connect.
  destruct (stopped s) eqn:Hstop; [exact Hs|].
  destruct (connect_ok w); [|apply scheduleReconnect_sound, Hs].
  destruct Hs as (Hc & Ht & Hst).
  assert (Hs' : sound (mkState false true (pollInterval s)
                         (reconnectTimer s) 0)).
  { unfold sound, MAX_RECONNECT. cbn [reconnectAttempts reconnectTimer stopped].
    repeat split; try lia; try assumption; discriminate. }
  destruct (openBox_ok w); [|apply scheduleReconnect_sound, Hs'].
  unfold sound in *. cbn [reconnectAttempts reconnectTimer stopped] in *.
  exact Hs'.
Qed.

Lemma step_sound (s : state) (e : event) : sound s -> sound (step s e).
Proof.
  intros Hs. destruct e as [w| |w|]; cbn [step].
  - apply connect_sound, Hs.
  - apply scheduleReconnect_sound, Hs.
  - destruct (reconnectTimer s) eqn:Ht; [|exact Hs].
    unfold timer_fires. apply connect_sound.
    destruct Hs as (Hc & _ & _). unfold sound.
    cbn [reconnectAttempts reconnectTimer stopped].
    repeat split; try tauto; discriminate.
  - destruct Hs as (Hc & _ & _). unfold sound, stop.
    cbn [reconnectAttempts reconnectTimer stopped].
    repeat split; try tauto; discriminate.
Qed.

Lemma run_sound (events : list event) :
  forall s, sound s -> sound (run s events).
Proof.
  induction events as [|e events IH]; intros s Hs; [exact Hs|].
  cbn [run fold_left]. apply IH, step_sound, Hs.
Qed.

Lemma step_stopped (s : state) (e : event) :
  stopped s = true -> stopped (step s e) = true.
Proof.
  intros Hs. destruct e as [w| |w|]; cbn [step].
  - unfold connect. rewrite Hs. exact Hs.
  - unfold scheduleReconnect. rewrite Hs. exact Hs.
  - destruct (reconnectTimer s); [|exact Hs].
    unfold timer_fires, connect. cbn [stopped]. rewrite Hs. reflexivity.
  - reflexivity.
Qed.

Lemma run_stopped (events : list event) :
  forall s, stopped s = true -> stopped (run s events) = true.
Proof.
  induction events as [|e events IH]; intros s Hs; [exact Hs|].
  cbn [run fold_left]. apply IH, step_stopped, Hs.
Qed.

(** X7. Whatever happens to the listener and in whatever order
    (connects that succeed or fail, errors and closes of the connection,
    failed polls, timers that fire, a stop), the failure counter stays
    between 0 and [MAX_RECONNECT], a pending reconnect timer has one of
    the delays 2, 4, 8, 16, 30 or 60 seconds, and once [stop] has been
    called no reconnect is pending, whatever happens afterwards. *)
Theorem listener_bounds (before after : list event) :
  let s := run initial before in
  let s' := run (stop s) after in
  (0 <= reconnectAttempts s <= MAX_RECONNECT
   /\ forall d, reconnectTimer s = Some d -> In d delays /\ 2000 <= d <= 60000)
  /\ stopped s' = true
  /\ reconnectTimer s' = None.
Proof.
  cbn zeta.
  assert (Hinit : sound initial).
  { unfold sound, initial, MAX_RECONNECT.
    cbn [reconnectAttempts reconnectTimer stopped].
    repeat split; try lia; discriminate. }
  pose proof (run_sound before initial Hinit) as Hs.
  pose proof (step_sound _ Stop Hs) as Hstop. cbn [step] in Hstop.
  pose proof (run_sound after _ Hstop) as (_ & _ & Hnone).
  assert (Hst : stopped (run (stop (run initial before)) after) = true)
    by (apply run_stopped; reflexivity).
  destruct Hs as (Hc & Ht & _).
  repeat split; try tauto; try lia.
  - apply Ht, H.
  - apply Ht in H. unfold delays in H. cbn in H. lia.
  - apply Ht in H. unfold delays in H. cbn in H. lia.
Qed.

End ListenerFacts.

Module PoolUseFacts.
Import Pool PoolUse PoolFacts.

Lemma pop_none (l : list page_id) : pop l = None -> l = [].
Proof.
  unfold pop. destruct (rev l) as [|q r] eqn:Hrev; [|discriminate].
  intros _. rewrite <- (rev_involutive l), Hrev. reflexivity.
Qed.

Lemma tidy_initial : tidy initial [].
Proof.
  split; cbn; try apply NoDup_nil_2; intros p; rewrite ?elem_of_nil; tauto.
Qed.

(** A page that is new to the browser. *)
Lemma tidy_fresh (s : state) (held : list page_id) (b : bool) :
  tidy s held ->
  pagePool s = [] \/ b = true ->
  tidy (mkState true (if b then [] else pagePool s)
          (<[fresh s := blank]> (pages s)) (S (fresh s)))
       (fresh s :: held).
Proof.
  intros [Hp Hh Hph Hb Ho Hk] Hempty.
  assert (Hpool : (if b then [] else pagePool s) = []).
  { destruct b; [reflexivity|]. destruct Hempty; [assumption|discriminate]. }
  rewrite Hpool.
  split; cbn [pagePool pages fresh].
  - apply NoDup_nil_2.
  - apply NoDup_cons. split; [|exact Hh].
    intros Hin. specialize (Hk (fresh s) (or_intror Hin)). lia.
  - intros p Hin. apply elem_of_nil in Hin. destruct Hin.
  - intros p Hin. apply elem_of_nil in Hin. destruct Hin.
  - intros p Hin. apply elem_of_cons in Hin. destruct Hin as [->|Hin].
    + rewrite lookup_insert_eq. reflexivity.
    + rewrite lookup_insert_ne; [apply Ho, Hin|].
      specialize (Hk p (or_intror Hin)). lia.
  - intros p [Hin|Hin]; [apply elem_of_nil in Hin; destruct Hin|].
    apply elem_of_cons in Hin. destruct Hin as [->|Hin]; [lia|].
    specialize (Hk p (or_intror Hin)). lia.
Qed.

Lemma getPage_tidy (s : state) (held : list page_id) :
  tidy s held ->
  let '(p, s', _) := getPage s in
  tidy s' (p :: held) /\ (p ∉ held) /\ pages s' !! p = Some blank.
Proof.
  intros Ht. unfold getPage, ensureBrowser.
  destruct (browser s) eqn:Hbrowser.
  - destruct (pop (pagePool s)) as [[p rest]|] eqn:Hpop.
    + apply pop_last in Hpop. destruct Ht as [Hp Hh Hph Hb Ho Hk].
      rewrite Hpop in Hp, Hph, Hb, Hk.
      apply NoDup_app in Hp. destruct Hp as (Hrest & Hsep & _).
      assert (Hin : p ∈ rest ++ [p])
        by (apply elem_of_app; right; apply list_elem_of_singleton; reflexivity).
      split; [|split; [apply Hph, Hin | apply Hb, Hin]].
      split; cbn [pagePool pages fresh].
      * exact Hrest.
      * apply NoDup_cons. split; [apply Hph, Hin | exact Hh].
      * intros q Hq Hqh. apply elem_of_cons in Hqh. destruct Hqh as [->|Hqh].
        -- apply (Hsep p Hq). apply list_elem_of_singleton. reflexivity.
        -- apply (Hph q); [apply elem_of_app; left; exact Hq | exact Hqh].
      * intros q Hq. apply Hb. apply elem_of_app. left. exact Hq.
      * intros q Hq. apply elem_of_cons in Hq. destruct Hq as [->|Hq].
        -- rewrite (Hb p Hin). reflexivity.
        -- apply Ho, Hq.
      * intros q [Hq|Hq].
        -- apply Hk. left. apply elem_of_app. left. exact Hq.
        -- apply elem_of_cons in Hq. destruct Hq as [->|Hq].
           ++ apply Hk. left. exact Hin.
           ++ apply Hk. right. exact Hq.
    + apply pop_none in Hpop. cbn [browser pagePool pages fresh].
      rewrite Hbrowser.
      pose proof (tidy_fresh s held false Ht (or_introl Hpop)) as Hf.
      cbn [pagePool] in Hf.
      split; [exact Hf|]. split.
      * intros Hin. destruct Ht as [_ _ _ _ _ Hk].
        specialize (Hk (fresh s) (or_intror Hin)). lia.
      * apply lookup_insert_eq.
  - cbn [browser pagePool pages fresh pop rev].
    pose proof (tidy_fresh s held true Ht (or_intror eq_refl)) as Hf.
    split; [exact Hf|]. split.
    + intros Hin. destruct Ht as [_ _ _ _ _ Hk].
      specialize (Hk (fresh s) (or_intror Hin)). lia.
    + apply lookup_insert_eq.
Qed.

Lemma visit_tidy (s : state) (held : list page_id) (p : page_id)
  (target : string) :
  tidy s held -> p ∈ held -> tidy (set_location p target s) held.
Proof.
  intros [Hp Hh Hph Hb Ho Hk] Hin. unfold set_location.
  split; cbn [pagePool pages fresh]; try assumption.
  - intros q Hq. rewrite lookup_insert_ne; [apply Hb, Hq|].
    intros ->. exact (Hph q Hq Hin).
  - intros q Hq. destruct (decide (q = p)) as [->|Hne].
    + rewrite lookup_insert_eq. cbn. f_equal.
      specialize (Ho p Hin). destruct (pages s !! p) as [i|]; cbn in *;
        congruence.
    + rewrite lookup_insert_ne by congruence. apply Ho, Hq.
Qed.

(** Closing a page that has left the set of held pages. *)
Lemma closed_tidy (s : state) (held : list page_id) (p : page_id) (b : bool) :
  tidy s held -> p ∈ held ->
  tidy (if b then set_closed p s else s) (filter (fun q => q <> p) held).
Proof.
  intros [Hp Hh Hph Hb Ho Hk] Hin.
  assert (Hsub : forall q, q ∈ filter (fun q => q <> p) held -> q ∈ held /\ q <> p).
  { intros q Hq. apply list_elem_of_filter in Hq. tauto. }
  destruct b; unfold set_closed; split; cbn [pagePool pages fresh];
    try assumption; try (apply NoDup_filter; assumption).
  - intros q Hq Hqh. apply Hsub in Hqh. exact (Hph q Hq (proj1 Hqh)).
  - intros q Hq. rewrite lookup_insert_ne; [apply Hb, Hq|].
    intros ->. exact (Hph q Hq Hin).
  - intros q Hq. apply Hsub in Hq. destruct Hq as [Hq Hne].
    rewrite lookup_insert_ne by congruence. apply Ho, Hq.
  - intros q [Hq|Hq]; [apply Hk; left; exact Hq|].
    apply Hsub in Hq. apply Hk. right. tauto.
  - intros q Hq Hqh. apply Hsub in Hqh. exact (Hph q Hq (proj1 Hqh)).
  - intros q Hq. apply Hsub in Hq. apply Ho. tauto.
  - intros q [Hq|Hq]; [apply Hk; left; exact Hq|].
    apply Hsub in Hq. apply Hk. right. tauto.
Qed.

Lemma releasePage_tidy (opt : option Z) (default : Z) (s : state)
  (held : list page_id) (p : page_id) (w : page_world) :
  tidy s held -> p ∈ held ->
  tidy (fst (releasePage (Some p) opt default w s))
       (filter (fun q => q <> p) held).
Proof.
  intros Ht Hin. unfold releasePage, release_begin, release_end, handler.
  destruct (_ <? _)%Z.
  - destruct (goto_ok w); cbn [fst]; [|apply closed_tidy; assumption].
    destruct Ht as [Hp Hh Hph Hb Ho Hk].
    assert (Hsub : forall q,
      q ∈ filter (fun q => q <> p) held -> q ∈ held /\ q <> p).
    { intros q Hq. apply list_elem_of_filter in Hq. tauto. }
    assert (Hnp : p ∉ pagePool s) by (intros Hq; exact (Hph p Hq Hin)).
    unfold push, set_location. split; cbn [pagePool pages fresh].
    + apply NoDup_app. split; [exact Hp|]. split; [|apply NoDup_singleton].
      intros q Hq Hqp. apply list_elem_of_singleton in Hqp. subst q. tauto.
    + apply NoDup_filter, Hh.
    + intros q Hq Hqh. apply Hsub in Hqh. destruct Hqh as [Hqh Hne].
      apply elem_of_app in Hq. destruct Hq as [Hq|Hq].
      * exact (Hph q Hq Hqh).
      * apply list_elem_of_singleton in Hq. congruence.
    + intros q Hq. apply elem_of_app in Hq. destruct Hq as [Hq|Hq].
      * rewrite lookup_insert_ne; [apply Hb, Hq|]. intros ->. tauto.
      * apply list_elem_of_singleton in Hq. subst q.
        rewrite lookup_insert_eq. unfold blank. do 2 f_equal.
        specialize (Ho p Hin). destruct (pages s !! p) as [i|]; cbn in *;
          congruence.
    + intros q Hq. apply Hsub in Hq. destruct Hq as [Hq Hne].
      rewrite lookup_insert_ne by congruence. apply Ho, Hq.
    + intros q [Hq|Hq].
      * apply elem_of_app in Hq. destruct Hq as [Hq|Hq].
        -- apply Hk. left. exact Hq.
        -- apply list_elem_of_singleton in Hq. subst q. apply Hk. right.
           exact Hin.
      * apply Hsub in Hq. apply Hk. right. tauto.
  - destruct (close_ok w); cbn [fst].
    + apply (closed_tidy s held p true); assumption.
    + apply closed_tidy; assumption.
Qed.

Lemma act_tidy (opt : option Z) (default : Z) (s s' : state)
  (held held' : list page_id) (a : action) :
  tidy s held -> act opt default (s, held) a = Some (s', held') ->
  tidy s' held'.
Proof.
  intros Ht. destruct a as [|p target|p w]; cbn [act].
  - pose proof (getPage_tidy s held Ht) as Hg.
    destruct (getPage s) as [[p s1] tr]. intros [= <- <-]. tauto.
  - destruct (decide (p ∈ held)); [|discriminate].
    intros [= <- <-]. apply visit_tidy; assumption.
  - destruct (decide (p ∈ held)); [|discriminate].
    intros [= <- <-]. apply releasePage_tidy; assumption.
Qed.

Lemma use_tidy (opt : option Z) (default : Z) (script : list action) :
  forall (s s' : state) (held held' : list page_id),
    tidy s held -> use opt default (s, held) script = Some (s', held') ->
    tidy s' held'.
Proof.
  induction script as [|a script IH]; intros s s' held held' Ht; cbn [use].
  - intros [= <- <-]. exact Ht.
  - destruct (act opt default (s, held) a) as [[s1 held1]|] eqn:Ha;
      [|discriminate].
    apply IH. exact (act_tidy _ _ _ _ _ _ _ Ht Ha).
Qed.

(** X8. Callers that visit and give back only pages they hold never
    share a page: after any such script of [getPage], [goto] and
    [releasePage] calls, started with a fresh module, the next [getPage]
    hands out a page that no caller holds, that is open and that shows
    about:blank, not the document of an earlier caller; and no page is
    twice in the pool. *)
Theorem page_has_one_holder (opt : option Z) (default : Z)
  (script : list action) (s : state) (held : list page_id) :
  use opt default (initial, []) script = Some (s, held) ->
  let '(p, s', _) := getPage s in
  (p ∉ held)
  /\ pages s' !! p = Some (mkInfo "about:blank" false)
  /\ NoDup (pagePool s)
  /\ NoDup held
  /\ (forall q, q ∈ pagePool s -> q ∉ held).
Proof.
  intros Huse.
  pose proof (use_tidy _ _ _ _ _ _ _ tidy_initial Huse) as Ht.
  pose proof (getPage_tidy s held Ht) as Hg.
  destruct (getPage s) as [[p s'] tr]. destruct Hg as (_ & Hnot & Hblank).
  destruct Ht as [Hp Hh Hph _ _ _]. tauto.
Qed.

(** Two workers: the first gives its page back after a visit, the second
    keeps its page; a third worker then takes the page of the first. *)
Lemma page_has_one_holder_witness :
  let script :=
    [Take; Take;
     Visit 0%nat "https://www.belex.rs/eng/trgovanje/hartija/dnevni/NIIS";
     GiveBack 0%nat (mkWorld true true true)] in
  let s := mkState true [0%nat]
             (<[0%nat := mkInfo "about:blank" false]>
                (<[1%nat := mkInfo "about:blank" false]> ∅)) 2%nat in
  let '(p, s', _) := getPage s in
  (p ∉ [1%nat])
  /\ pages s' !! p = Some (mkInfo "about:blank" false)
  /\ NoDup (pagePool s)
  /\ NoDup [1%nat]
  /\ (forall q, q ∈ pagePool s -> q ∉ [1%nat]).
Proof.
  intros script s.
  apply (page_has_one_holder None 4 script s [1%nat]).
  vm_compute. reflexivity.
Defined.

End PoolUseFacts.

Module FloatFacts.
Local Open Scope Z_scope.

(** The rounding of the specification never makes a [NaN] out of a
    mantissa that is not negative. *)
Lemma shr_1_nonneg (mrs : shr_record) :
  0 <= shr_m mrs -> 0 <= shr_m (shr_1 mrs).
Proof.
  destruct mrs as [m r s]. cbn [shr_m]. intros Hm.
  destruct m as [|p|p]; [cbn; lia | | lia].
  destruct p; cbn; lia.
Qed.

Lemma iter_shr_1_nonneg (p : positive) (mrs : shr_record) :
  0 <= shr_m mrs -> 0 <= shr_m (SpecFloat.iter_pos shr_1 p mrs).
Proof.
  revert mrs. induction p as [p IH|p IH|]; intros mrs Hm; cbn [SpecFloat.iter_pos].
  - apply IH, IH, shr_1_nonneg, Hm.
  - apply IH, IH, Hm.
  - apply shr_1_nonneg, Hm.
Qed.

Lemma shr_fexp_nonneg (m e : Z) (l : location) :
  0 <= m -> 0 <= shr_m (fst (shr_fexp prec emax m e l)).
Proof.
  intros Hm. unfold shr_fexp, shr.
  assert (H0 : 0 <= shr_m (shr_record_of_loc m l)).
  { destruct l as [|[]]; exact Hm. }
  destruct (fexp prec emax (Zdigits2 m + e) - e) as [|p|p]; cbn [fst];
    try exact H0.
  apply iter_shr_1_nonneg, H0.
Qed.

Lemma round_nearest_even_nonneg (m : Z) (l : location) :
  0 <= m -> 0 <= round_nearest_even m l.
Proof.
  intros Hm. unfold round_nearest_even.
  destruct l as [|[]]; try lia. destruct (IntDef.Z.even m); lia.
Qed.

Lemma binary_round_aux_not_nan (sx : bool) (mx ex : Z) (lx : location) :
  0 <= mx -> binary_round_aux prec emax sx mx ex lx <> S754_nan.
Proof.
  intros Hm. unfold binary_round_aux.
  pose proof (shr_fexp_nonneg mx ex lx Hm) as H1.
  destruct (shr_fexp prec emax mx ex lx) as [mrs' e']. cbn [fst] in H1.
  pose proof (shr_fexp_nonneg
                (round_nearest_even (shr_m mrs') (loc_of_shr_record mrs'))
                e' loc_Exact (round_nearest_even_nonneg _ _ H1)) as H2.
  destruct (shr_fexp prec emax _ e' loc_Exact) as [mrs'' e''].
  cbn [fst] in H2.
  destruct (shr_m mrs'') as [|m|m]; [discriminate| |lia].
  destruct (e'' <=? emax - prec); discriminate.
Qed.

Lemma binary_round_not_nan (sx : bool) (mx : positive) (ex : Z) :
  binary_round prec emax sx mx ex <> S754_nan.
Proof.
  unfold binary_round. destruct (shl_align mx ex _) as [mz ez].
  apply binary_round_aux_not_nan. lia.
Qed.

Lemma SFldexp_not_nan (f : spec_float) (e : Z) :
  f <> S754_nan -> SFldexp prec emax f e <> S754_nan.
Proof.
  destruct f; cbn [SFldexp]; try tauto. intros _. apply binary_round_not_nan.
Qed.

Lemma SFopp_not_nan (f : spec_float) : f <> S754_nan -> SFopp f <> S754_nan.
Proof. destruct f; cbn; congruence. Qed.

Lemma SFdiv_finite_not_nan (sx sy : bool) (mx my : positive) (ex ey : Z) :
  SFdiv prec emax (S754_finite sx mx ex) (S754_finite sy my ey) <> S754_nan.
Proof.
  cbn [SFdiv].
  destruct (SFdiv_core_binary prec emax (Z.pos mx) ex (Z.pos my) ey)
    as [[mz ez] lz] eqn:Hcore.
  apply binary_round_aux_not_nan.
  unfold SFdiv_core_binary in Hcore.
  set (m' := match _ - _ - _ with
             | 0 => Z.pos mx
             | Z.pos _ => _
             | Z.neg _ => 0
             end) in Hcore.
  assert (Hm' : 0 <= m').
  { subst m'. destruct (_ - _ - _); try lia. apply Z.shiftl_nonneg. lia. }
  pose proof (Z_div_mod m' (Z.pos my) eq_refl) as Hdiv.
  change IntDef.Z.div_eucl with Z.div_eucl in Hcore.
  destruct (Z.div_eucl m' (Z.pos my)) as [q r]. injection Hcore as <- _ _.
  destruct Hdiv as [Heq Hr]. nia.
Qed.

Lemma SFmul_finite_not_nan (x : spec_float) (sy : bool) (my : positive)
  (ey : Z) :
  x <> S754_nan -> SFmul prec emax x (S754_finite sy my ey) <> S754_nan.
Proof.
  destruct x; cbn [SFmul]; try congruence.
  intros _. apply binary_round_aux_not_nan. lia.
Qed.

Lemma SFcompare_refl (f : spec_float) :
  f <> S754_nan -> SFcompare f f = Some Eq.
Proof.
  destruct f as [s|s| |s m e]; cbn; try congruence.
  - destruct s; reflexivity.
  - intros _. rewrite Z.compare_refl.
    change (PosDef.Pos.compare_cont Eq m m) with (Pos.compare m m).
    rewrite Pos.compare_refl. destruct s; reflexivity.
Qed.

(** [x !== x] holds for [NaN] only. *)
Lemma is_nan_Prim2SF (x : float) :
  is_nan x = false <-> Prim2SF x <> S754_nan.
Proof.
  unfold is_nan. rewrite FloatAxioms.eqb_spec. unfold SFeqb. split.
  - intros H Hn. rewrite Hn in H. discriminate.
  - intros H. rewrite SFcompare_refl by exact H. reflexivity.
Qed.

Lemma SF2Prim_not_nan (f : spec_float) :
  f <> S754_nan -> is_nan (SF2Prim f) = false.
Proof.
  intros Hf. apply is_nan_Prim2SF.
  destruct f as [[]|[]| |s m e]; try congruence;
    try (vm_compute; discriminate).
  cbn [SF2Prim].
  assert (H : Prim2SF (Z.ldexp (of_uint63 (Uint63Axioms.of_Z (Z.pos m))) e)
              <> S754_nan).
  { rewrite FloatLemmas.Z_ldexp_spec. apply SFldexp_not_nan. rewrite FloatAxioms.of_uint63_spec.
    unfold binary_normalize.
    destruct (Uint63Axioms.to_Z _); try discriminate;
      apply binary_round_not_nan. }
  destruct s; [rewrite FloatAxioms.opp_spec; apply SFopp_not_nan|]; exact H.
Qed.

Lemma mul_1000_not_nan (x : float) :
  is_nan x = false -> is_nan (x * 1000)%float = false.
Proof.
  intros H. apply is_nan_Prim2SF in H. apply is_nan_Prim2SF.
  rewrite FloatAxioms.mul_spec. unfold FloatAxioms.SF64mul.
  change (Prim2SF 1000) with (S754_finite false 8796093022208000 (-43)).
  apply SFmul_finite_not_nan, H.
Qed.

End FloatFacts.

Module RegexFacts.
Import JsString Regex Digits.

Lemma exec_mark (re : regex) (l : list ascii) (pos e : nat) (ms : list nat) :
  exec (Mark :: re) l pos = Some (e, ms) ->
  exists ms', ms = pos :: ms' /\ exec re l pos = Some (e, ms').
Proof.
  cbn [exec]. destruct (exec re l pos) as [[e' ms']|]; [|discriminate].
  intros [= <- <-]. eauto.
Qed.

Lemma exec_mark_complete (re : regex) (l : list ascii) (pos : nat) :
  is_Some (exec re l pos) -> is_Some (exec (Mark :: re) l pos).
Proof. cbn [exec]. intros [[e ms] ->]. eauto. Qed.

(** The characters a repetition can take are in its class. *)
Lemma run_class (cls : ascii -> bool) (l : list ascii) :
  forall (hi : option nat) (n : nat),
    (n < run cls hi l)%nat ->
    exists c, nth_error l n = Some c /\ cls c = true.
Proof.
  induction l as [|c l IH]; intros hi n Hn.
  - destruct hi as [[|h]|]; cbn in Hn; lia.
  - destruct hi as [[|h]|]; cbn [run] in Hn; try lia;
      destruct (cls c) eqn:Hc; try lia;
      (destruct n as [|n]; [exists c; split; [reflexivity|exact Hc]|]);
      cbn [nth_error]; eapply IH; apply PeanoNat.lt_S_n, Hn.
Qed.

Lemma run_head (cls : ascii -> bool) (hi : nat) (c : ascii) (l : list ascii) :
  cls c = true -> (1 <= run cls (Some (S hi)) (c :: l))%nat.
Proof. intros Hc. cbn [run]. rewrite Hc. lia. Qed.

Lemma run_head_unbounded (cls : ascii -> bool) (c : ascii) (l : list ascii) :
  cls c = true -> (1 <= run cls None (c :: l))%nat.
Proof. intros Hc. cbn [run]. rewrite Hc. lia. Qed.

(** A repetition that matches has taken some [n] characters of its
    class, within its bounds, and the rest of the pattern matches what
    follows them. *)
Lemma exec_rep_some (cls : ascii -> bool) (lo : nat) (hi : option nat)
  (re : regex) (l : list ascii) (pos : nat) (r : nat * list nat) :
  exec (Rep cls lo hi :: re) l pos = Some r ->
  exists n, (lo <= n <= run cls hi l)%nat
            /\ exec re (skipn n l) (pos + n)%nat = Some r.
Proof.
  cbn [exec]. generalize (Nat.le_refl (run cls hi l)).
  generalize (run cls hi l) at 1 3 as n.
  induction n as [|n IH]; intros Hn.
  - destruct (lo <=? 0)%nat eqn:Hlo; [|discriminate].
    destruct (exec re (skipn 0 l) (pos + 0)) eqn:He; [|discriminate].
    intros [= <-]. exists 0%nat. apply Nat.leb_le in Hlo.
    split; [lia|exact He].
  - destruct (lo <=? S n)%nat eqn:Hlo.
    + destruct (exec re (skipn (S n) l) (pos + S n)) eqn:He.
      * intros [= <-]. exists (S n). apply Nat.leb_le in Hlo.
        split; [lia|exact He].
      * intros H. apply IH; [lia|exact H].
    + intros H. apply IH; [lia|exact H].
Qed.

(** A repetition matches as soon as some number of characters within
    its bounds leaves a rest that matches. *)
Lemma exec_rep_complete (cls : ascii -> bool) (lo : nat) (hi : option nat)
  (re : regex) (l : list ascii) (pos n : nat) :
  (lo <= n <= run cls hi l)%nat ->
  is_Some (exec re (skipn n l) (pos + n)%nat) ->
  is_Some (exec (Rep cls lo hi :: re) l pos).
Proof.
  intros [Hlo Hn] Hsome. cbn [exec]. revert Hn.
  generalize (run cls hi l) as N.
  induction N as [|N IH]; intros Hn.
  - assert (n = 0)%nat by lia. subst n.
    destruct (Nat.leb_spec lo 0); [|lia].
    destruct Hsome as [r ->]. eauto.
  - destruct (Nat.leb_spec lo (S N)); [|lia].
    destruct (exec re (skipn (S N) l) (pos + S N)) eqn:He; [eauto|].
    assert (n <> S N)
      by (intros ->; rewrite He in Hsome; destruct Hsome; discriminate).
    apply IH. lia.
Qed.

Lemma exec_alt_some (ws : list (list ascii)) (ci : bool) (re : regex)
  (l : list ascii) (pos : nat) (r : nat * list nat) :
  exec (Alt ws ci :: re) l pos = Some r ->
  exists w, In w ws /\ prefix_of ci w l = true
            /\ exec re (skipn (length w) l) (pos + length w)%nat = Some r.
Proof.
  cbn [exec]. induction ws as [|w ws IH]; [discriminate|].
  destruct (prefix_of ci w l) eqn:Hw.
  - destruct (exec re (skipn (length w) l) (pos + length w)) eqn:He.
    + intros [= <-]. exists w. repeat split; [left; reflexivity|assumption..].
    + intros H. destruct (IH H) as (w' & Hin & H'). exists w'.
      split; [right; exact Hin|exact H'].
  - intros H. destruct (IH H) as (w' & Hin & H'). exists w'.
    split; [right; exact Hin|exact H'].
Qed.

(** Alternatives match as soon as the rest matches after one of them;
    the rest may match after an earlier one. *)
Lemma exec_alt_complete (ws : list (list ascii)) (ci : bool) (re : regex)
  (l : list ascii) (pos : nat) (w : list ascii) :
  In w ws -> prefix_of ci w l = true ->
  is_Some (exec re (skipn (length w) l) (pos + length w)%nat) ->
  is_Some (exec (Alt ws ci :: re) l pos).
Proof.
  intros Hin Hw Hsome. cbn [exec].
  induction ws as [|w' ws IH]; [destruct Hin|].
  destruct (prefix_of ci w' l) eqn:Hw'.
  - destruct (exec re (skipn (length w') l) (pos + length w')) eqn:He; [eauto|].
    destruct Hin as [->|Hin]; [rewrite He in Hsome; destruct Hsome; discriminate|].
    apply IH, Hin.
  - destruct Hin as [->|Hin]; [congruence|]. apply IH, Hin.
Qed.

(** The leftmost match starts somewhere in the text. *)
Lemma search_from_some (re : regex) (l : list ascii) :
  forall (pos : nat) (r : nat * list nat),
    search_from re l pos = Some r ->
    exists k, (k <= length l)%nat
              /\ exec re (skipn k l) (pos + k)%nat = Some r.
Proof.
  induction l as [|c l IH]; intros pos r; cbn [search_from].
  - destruct (exec re [] pos) eqn:He; [|discriminate].
    intros [= <-]. exists 0%nat. rewrite Nat.add_0_r.
    split; [cbn; lia|exact He].
  - destruct (exec re (c :: l) pos) eqn:He.
    + intros [= <-]. exists 0%nat. rewrite Nat.add_0_r.
      split; [cbn; lia|exact He].
    + intros H. destruct (IH _ _ H) as (k & Hk & Hex). exists (S k).
      split; [cbn; lia|]. cbn [skipn]. rewrite <- Hex. f_equal. lia.
Qed.

(** There is a match as soon as the pattern matches somewhere. *)
Lemma search_from_complete (re : regex) (l : list ascii) :
  forall (pos k : nat),
    (k <= length l)%nat ->
    is_Some (exec re (skipn k l) (pos + k)%nat) ->
    is_Some (search_from re l pos).
Proof.
  induction l as [|c l IH]; intros pos k Hk Hsome; cbn [search_from].
  - assert (k = 0)%nat by (cbn in Hk; lia). subst k.
    cbn [skipn] in Hsome. rewrite Nat.add_0_r in Hsome.
    destruct Hsome as [r ->]. eauto.
  - destruct (exec re (c :: l) pos) eqn:He; [eauto|].
    destruct k as [|k].
    + cbn [skipn] in Hsome. rewrite Nat.add_0_r, He in Hsome.
      destruct Hsome; discriminate.
    + apply (IH (S pos) k); [cbn in Hk; lia|].
      cbn [skipn] in Hsome.
      replace (S pos + k)%nat with (pos + S k)%nat by lia.
      exact Hsome.
Qed.

(** Where a number group matches there is a digit, and the group
    captured starts with it. *)
Lemma number_group_digit (h1 : option nat) (c2 : ascii -> bool) (l2 : nat)
  (h2 : option nat) (c3 : ascii -> bool) (l3 : nat) (h3 : option nat)
  (subject : list ascii) (p e : nat) (ms : list nat) :
  exec (number_group h1 c2 l2 h2 c3 l3 h3) (skipn p subject) p = Some (e, ms) ->
  exists c t rest,
    skipn p subject = c :: rest
    /\ isDigit c = true
    /\ chars (nth 0 (groups subject ms) "") = c :: t.
Proof.
  unfold number_group. intros H.
  apply exec_mark in H. destruct H as (ms1 & -> & H).
  apply exec_rep_some in H. destruct H as (n1 & [Hn1 Hrun1] & H).
  apply exec_rep_some in H. destruct H as (n2 & _ & H).
  apply exec_rep_some in H. destruct H as (n3 & _ & H).
  cbn [exec] in H. injection H as <- <-.
  destruct (run_class isDigit (skipn p subject) h1 0%nat ltac:(lia))
    as (c & Hc & Hdigit).
  destruct (skipn p subject) as [|c' rest] eqn:Hskip; [discriminate|].
  cbn [nth_error] in Hc. injection Hc as ->.
  exists c, (firstn (n1 + n2 + n3 - 1) rest), rest.
  split; [reflexivity|]. split; [exact Hdigit|].
  cbn [groups nth]. unfold of_chars, chars.
  rewrite list_ascii_of_string_of_list_ascii. unfold substring.
  rewrite Hskip.
  replace (p + n1 + n2 + n3 - p)%nat with (S (n1 + n2 + n3 - 1)) by lia.
  reflexivity.
Qed.

(** A number group matches where there is a digit, provided its other
    parts can be empty. *)
Lemma number_group_complete (h1 : option nat) (c2 : ascii -> bool)
  (h2 : option nat) (c3 : ascii -> bool) (h3 : option nat)
  (c : ascii) (l : list ascii) (pos : nat) :
  isDigit c = true -> h1 <> Some 0%nat ->
  is_Some (exec (number_group h1 c2 0 h2 c3 0 h3) (c :: l) pos).
Proof.
  intros Hc Hh1. unfold number_group. apply exec_mark_complete.
  apply (exec_rep_complete _ _ _ _ _ _ 1).
  - split; [lia|]. destruct h1 as [[|h]|]; [congruence| |];
      cbn [run]; rewrite Hc; lia.
  - apply (exec_rep_complete _ _ _ _ _ _ 0); [lia|].
    apply (exec_rep_complete _ _ _ _ _ _ 0); [lia|].
    cbn [exec]. eauto.
Qed.

End RegexFacts.

Module NumberFacts.
Import JsString Regex JsNumber Extract Digits.
Import FloatFacts RegexFacts ExtractFacts.

Lemma has_digit_digitless (l : list ascii) :
  has_digit l = false <-> digitless l.
Proof.
  unfold has_digit, digitless. induction l as [|c l IH]; cbn [existsb].
  - split; [constructor | reflexivity].
  - rewrite orb_false_iff, IH. split.
    + intros [Hc Hl]. constructor; assumption.
    + intros H. inversion H; subst. split; assumption.
Qed.

Lemma digit_facts (c : ascii) :
  isDigit c = true ->
  isSpace c = false /\ isSep c = false
  /\ Ascii.eqb c "+" = false /\ Ascii.eqb c "-" = false
  /\ Ascii.eqb "I" c = false /\ Ascii.eqb c "," = false
  /\ Ascii.eqb c "." = false.
Proof.
  destruct c as [[] [] [] [] [] [] [] []]; intros H;
    try discriminate H; repeat split.
Qed.

Lemma has_digit_app (a b : list ascii) :
  has_digit (a ++ b) = has_digit a || has_digit b.
Proof. apply existsb_app. Qed.

Lemma has_digit_rev (l : list ascii) : has_digit (rev l) = has_digit l.
Proof.
  induction l as [|c l IH]; [reflexivity|].
  cbn [rev]. rewrite has_digit_app, IH. cbn [has_digit existsb].
  rewrite orb_false_r. apply orb_comm.
Qed.

Lemma has_digit_dropWhile (l : list ascii) :
  has_digit (dropWhile isSpace l) = has_digit l.
Proof.
  induction l as [|c l IH]; [reflexivity|]. cbn [dropWhile].
  destruct (isSpace c) eqn:Hs; [|reflexivity].
  rewrite IH. cbn [has_digit existsb].
  destruct (isDigit c) eqn:Hd; [|reflexivity].
  apply digit_facts in Hd. destruct Hd as (Hd & _). congruence.
Qed.

Lemma has_digit_trim (l : list ascii) :
  has_digit (trim_chars l) = has_digit l.
Proof.
  unfold trim_chars.
  rewrite has_digit_rev, has_digit_dropWhile, has_digit_rev.
  apply has_digit_dropWhile.
Qed.

Lemma has_digit_collapse (l : list ascii) :
  forall in_run, has_digit (collapse_chars in_run l) = has_digit l.
Proof.
  induction l as [|c l IH]; intros in_run; [reflexivity|].
  cbn [collapse_chars]. destruct (isSpace c) eqn:Hs.
  - assert (Hd : isDigit c = false).
    { destruct (isDigit c) eqn:Hd; [|reflexivity].
      apply digit_facts in Hd. destruct Hd as (Hd & _). congruence. }
    destruct in_run; cbn [has_digit existsb]; rewrite ?Hd; apply IH.
  - cbn [has_digit existsb]. f_equal. apply IH.
Qed.

Lemma has_digit_replace_first (a : ascii) (b l : list ascii) :
  isDigit a = false -> has_digit b = false ->
  has_digit (replace_first_chars a b l) = has_digit l.
Proof.
  intros Ha Hb. induction l as [|c l IH]; [reflexivity|].
  cbn [replace_first_chars]. destruct (Ascii.eqb_spec c a) as [->|Hne].
  - rewrite has_digit_app, Hb. cbn [has_digit existsb]. rewrite Ha.
    reflexivity.
  - cbn [has_digit existsb]. f_equal. exact IH.
Qed.

(** Where the text has a digit the number pattern finds a match. *)
Lemma search_number_found (l : list ascii) :
  forall pos, has_digit l = true -> is_Some (search_from re_number l pos).
Proof.
  induction l as [|c l IH]; intros pos H; [discriminate|].
  cbn [search_from].
  destruct (exec re_number (c :: l) pos) eqn:He; [eauto|].
  cbn [has_digit existsb] in H. destruct (isDigit c) eqn:Hc.
  - pose proof (number_group_complete None isSep (Some 1%nat) isDigit None
                  c l pos Hc ltac:(discriminate)) as [r Hr].
    change (number_group None isSep 0 (Some 1%nat) isDigit 0 None)
      with re_number in Hr.
    congruence.
  - apply IH, H.
Qed.

(** A decimal literal is a number. *)
Lemma of_decimal_not_nan (neg : bool) (m e10 : Z) :
  isNaN (of_decimal neg m e10) = false.
Proof.
  unfold isNaN, of_decimal.
  destruct m as [|p|p]; try (destruct neg; reflexivity).
  apply SF2Prim_not_nan. destruct (0 <=? e10)%Z; apply SFdiv_finite_not_nan.
Qed.

(** [parseFloat] of a text that starts with a digit is a number. *)
Lemma parseFloat_digit (s : string) (c : ascii) (t : list ascii) :
  chars s = c :: t -> isDigit c = true -> isNaN (parseFloat s) = false.
Proof.
  intros Hs Hc.
  destruct (digit_facts c Hc) as (Hspace & _ & Hplus & Hminus & HI & _).
  unfold parseFloat. rewrite Hs. cbn [dropWhile]. rewrite Hspace, Hplus, Hminus.
  cbn [prefix_of chars list_ascii_of_string]. rewrite HI. cbn [andb].
  cbn [span]. rewrite Hc. destruct (span isDigit t) as [ip r1].
  destruct (match r1 with
            | [] => ([], r1)
            | c0 :: r => if isDot c0 then span isDigit r else ([], r1)
            end) as [fp r2].
  cbn [app]. apply of_decimal_not_nan.
Qed.

Lemma replace_first_digit (a : ascii) (b s : string) (c : ascii)
  (t : list ascii) :
  chars s = c :: t -> Ascii.eqb c a = false ->
  exists t', chars (replace_first a b s) = c :: t'.
Proof.
  intros Hs Hc. unfold replace_first. rewrite chars_of_chars, Hs.
  cbn [replace_first_chars]. rewrite Hc. eauto.
Qed.

(** What is parsed from a group that starts with a digit is a number. *)
Lemma parse_digits (numStr : string) (c : ascii) (t : list ascii) :
  chars numStr = c :: t -> isDigit c = true ->
  isNaN (parseFloat (replace_first ","%char "." numStr)) = false
  /\ isNaN (parseFloat (replace_first "."%char "" numStr)) = false.
Proof.
  intros Hs Hc.
  destruct (digit_facts c Hc) as (_ & _ & _ & _ & _ & Hcomma & Hdot).
  destruct (replace_first_digit ","%char "." numStr c t Hs Hcomma) as (t1 & H1).
  destruct (replace_first_digit "."%char "" numStr c t Hs Hdot) as (t2 & H2).
  split; eapply parseFloat_digit; eassumption.
Qed.

(** The corrections that follow the first parse keep a number a
    number. *)
Lemma corrections_not_nan (v1 vg : float) (grouped : bool)
  (c1 c2 : float -> bool) :
  isNaN v1 = false -> isNaN vg = false ->
  isNaN
    (let value := v1 in
     let value := if grouped then vg else value in
     let value := if c1 value then (value * 1000)%float else value in
     let value := if c2 value then (value * 1000)%float else value in
     value) = false.
Proof.
  intros H1 Hg. cbn zeta.
  set (v2 := if grouped then vg else v1).
  assert (H2 : isNaN v2 = false) by (subst v2; destruct grouped; assumption).
  set (v3 := if c1 v2 then (v2 * 1000)%float else v2).
  assert (H3 : isNaN v3 = false).
  { subst v3. destruct (c1 v2); [|exact H2]. apply mul_1000_not_nan, H2. }
  destruct (c2 v3); [|exact H3].
  apply mul_1000_not_nan, H3.
Qed.

Lemma extract_number (txt : string) :
  has_digit (chars txt) = true -> isNaN (extractNumberFromString txt) = false.
Proof.
  intros Hd. unfold extractNumberFromString.
  destruct (String.eqb_spec txt "") as [->|_]; [discriminate Hd|].
  set (cleaned := replace_first ","%char "." (collapse_spaces (trim txt))).
  assert (Hcleaned : has_digit (chars cleaned) = true).
  { subst cleaned. unfold replace_first, collapse_spaces, trim.
    rewrite !chars_of_chars.
    rewrite has_digit_replace_first by reflexivity.
    rewrite has_digit_collapse, has_digit_trim. exact Hd. }
  unfold matches.
  destruct (search_number_found (chars cleaned) 0 Hcleaned) as [[e ms] Hs].
  rewrite Hs.
  apply search_from_some in Hs. destruct Hs as (k & _ & Hex).
  cbn [Nat.add] in Hex.
  change re_number with (number_group None isSep 0 (Some 1%nat) isDigit 0 None)
    in Hex.
  apply number_group_digit in Hex. destruct Hex as (c & t & rest & _ & Hc & Hg).
  destruct (parse_digits _ c t Hg Hc) as [H1 H2].
  set (numStr := nth 0 (groups (chars cleaned) ms) "") in *.
  exact (corrections_not_nan _ _ (test_anchored re_grouped numStr)
           (fun value => (value <? 50)%float && test re_fraction numStr)
           (fun value =>
              (value <? 50)%float && includes_char "."%char numStr
              && (2 <? fraction_length numStr)%nat)
           H1 H2).
Qed.

End NumberFacts.

Module ExtractMore.
Import JsString Regex JsNumber Extract Digits ExtractFacts NumberFacts.

(** X9. [extractNumberFromString] returns [NaN] exactly for the texts
    that hold no digit: as soon as the text has a digit somewhere, the
    result is a number (possibly an infinite one), whatever stands around
    the digit. *)
Theorem extract_nan_iff_no_digit (txt : string) :
  isNaN (extractNumberFromString txt) = true <-> digitless (chars txt).
Proof.
  split.
  - intros Hnan. apply has_digit_digitless.
    destruct (has_digit (chars txt)) eqn:Hd; [|reflexivity].
    rewrite (extract_number txt Hd) in Hnan. discriminate Hnan.
  - intros Hd. rewrite (extract_digitless txt Hd). reflexivity.
Qed.

End ExtractMore.

Module LocatorMore.
Import JsString Regex JsNumber Extract Async Locator Digits.
Import ExtractFacts RegexFacts NumberFacts.

Lemma skipn_cons_lt {A : Type} (l : list A) (p : nat) (c : A) (rest : list A) :
  skipn p l = c :: rest -> (p < length l)%nat.
Proof.
  intros H. destruct (Nat.lt_ge_cases p (length l)) as [Hlt|Hge]; [exact Hlt|].
  rewrite skipn_all2 in H by exact Hge. discriminate H.
Qed.

(** A pattern made of a word, a gap and the number token matches only
    where the token matches further on. *)
Lemma exec_word_gap_token (ws : list (list ascii)) (ci : bool)
  (cls : ascii -> bool) (lo : nat) (hi : option nat) (re : regex)
  (subject : list ascii) (k : nat) (r : nat * list nat) :
  exec (Alt ws ci :: Rep cls lo hi :: re) (skipn k subject) k = Some r ->
  exists p, exec re (skipn p subject) p = Some r.
Proof.
  intros H. apply exec_alt_some in H. destruct H as (w & _ & _ & H).
  apply exec_rep_some in H. destruct H as (n & _ & H).
  rewrite !skipn_skipn in H. exists (k + length w + n)%nat.
  replace (n + length w + k)%nat with (k + length w + n)%nat in H by lia.
  exact H.
Qed.

Lemma exec_word_token (ws : list (list ascii)) (ci : bool) (re : regex)
  (subject : list ascii) (k : nat) (r : nat * list nat) :
  exec (Alt ws ci :: re) (skipn k subject) k = Some r ->
  exists p, exec re (skipn p subject) p = Some r.
Proof.
  intros H. apply exec_alt_some in H. destruct H as (w & _ & _ & H).
  rewrite skipn_skipn in H. exists (k + length w)%nat.
  replace (length w + k)%nat with (k + length w)%nat in H by lia.
  exact H.
Qed.

(** Where the token pattern matches, the text has a digit, the group
    starts with it, and the search for the token succeeds. *)
Lemma token_at (subject : list ascii) (p e : nat) (ms : list nat) :
  exec tokenPattern (skipn p subject) p = Some (e, ms) ->
  (exists c t, chars (nth 0 (groups subject ms) "") = c :: t
               /\ isDigit c = true)
  /\ has_digit subject = true
  /\ is_Some (search_from tokenPattern subject 0).
Proof.
  intros H.
  change tokenPattern
    with (number_group None isSep 1 (Some 1%nat) isDigit 1 (Some 6%nat)) in H.
  pose proof (number_group_digit _ _ _ _ _ _ _ _ _ _ _ H)
    as (c & t & rest & Hskip & Hc & Hg).
  split; [eauto|]. split.
  - unfold has_digit. apply existsb_exists. exists c. split; [|exact Hc].
    rewrite <- (firstn_skipn p subject), Hskip. apply in_or_app. right.
    left. reflexivity.
  - apply (search_from_complete _ _ 0 p).
    + apply skipn_cons_lt in Hskip. lia.
    + cbn [Nat.add]. eauto.
Qed.

Lemma matches_token (s : string) (m : list string) :
  matches tokenPattern s = Some m ->
  exists c t, chars (nth 0 m "") = c :: t /\ isDigit c = true.
Proof.
  unfold matches.
  destruct (search_from tokenPattern (chars s) 0) as [[e ms]|] eqn:Hs;
    [|discriminate].
  intros [= <-]. apply search_from_some in Hs. destruct Hs as (k & _ & Hex).
  cbn [Nat.add] in Hex. apply token_at in Hex. tauto.
Qed.

(** A match of the near pattern contains a match of the token
    pattern. *)
Lemma matches_near (s : string) (m : list string) :
  matches nearPattern s = Some m -> is_Some (matches tokenPattern s).
Proof.
  unfold matches.
  destruct (search_from nearPattern (chars s) 0) as [[e ms]|] eqn:Hs;
    [|discriminate].
  intros _. apply search_from_some in Hs. destruct Hs as (k & _ & Hex).
  cbn [Nat.add] in Hex. apply exec_word_gap_token in Hex.
  destruct Hex as (p & Hex). apply token_at in Hex.
  destruct Hex as (_ & _ & [[e' ms'] ->]). eauto.
Qed.

Lemma token_number_not_nan (body : string) (v : float) :
  token_number body = Some v -> isNaN v = false.
Proof.
  unfold token_number, parse_group.
  destruct (matches tokenPattern body) as [m|] eqn:Hm; [|discriminate].
  intros [= <-]. apply matches_token in Hm. destruct Hm as (c & t & Hg & Hc).
  exact (proj1 (parse_digits _ c t Hg Hc)).
Qed.

Lemma near_number_not_nan (body : string) (v : float) :
  near_number body = Some v -> isNaN v = false.
Proof.
  unfold near_number. destruct (matches nearPattern body) as [m|]; [|discriminate].
  destruct (isNaN (parse_group m)) eqn:Hn; cbn [negb]; [discriminate|].
  intros [= <-]. exact Hn.
Qed.

Lemma first_number_not_nan (els : list (settled string)) (v : float) :
  first_number els = Some v -> isNaN v = false.
Proof.
  induction els as [|[textContent|e] els IH]; cbn [first_number];
    try discriminate.
  destruct (isNaN (extractNumberFromString (trim textContent))) eqn:Hn;
    cbn [negb]; [exact IH|].
  intros [= <-]. exact Hn.
Qed.

Lemma autodetect_not_nan (p : page) (v : float) :
  autodetectPriceFromPage p = Some v -> isNaN v = false.
Proof.
  unfold autodetectPriceFromPage, strategy.
  destruct (xpathRow p) as [els1|];
    [destruct (first_number els1) eqn:H1;
     [intros [= <-]; exact (first_number_not_nan _ _ H1)|]|];
    (destruct (xpathLabelNext p) as [els2|];
     [destruct (first_number els2) eqn:H2;
      [intros [= <-]; exact (first_number_not_nan _ _ H2)|]|]);
    (destruct (xpathContainer p) as [els3|];
     [destruct (first_number els3) eqn:H3;
      [intros [= <-]; exact (first_number_not_nan _ _ H3)|]|]);
    discriminate.
Qed.

Lemma fetchPrice_not_nan (ticker : string) (p : page) (v : float) :
  fetchPriceForTicker ticker p = Fulfilled v -> isNaN v = false.
Proof.
  unfold fetchPriceForTicker, body_fallback.
  destruct (autodetectPriceFromPage p) eqn:Ha.
  - intros [= <-]. exact (autodetect_not_nan _ _ Ha).
  - destruct (innerText p) as [body|]; [|discriminate].
    destruct (near_number body) eqn:Hn.
    + intros [= <-]. exact (near_number_not_nan _ _ Hn).
    + destruct (token_number body) eqn:Ht; [|discriminate].
      intros [= <-]. exact (token_number_not_nan _ _ Ht).
Qed.

(** X10. The page-text fallback of [fetchPriceForTicker] fails, with
    the message "Could not extract price ...", exactly when the page text
    holds no token of digits, a dot or comma, and digits: the words Price
    and Cena decide which number is taken, never whether one is found.
    Whenever the fallback yields a value, the value is a number. *)
Theorem fallback_fails_iff_no_token (ticker body : string) :
  (body_fallback ticker body = Failed (could_not_extract ticker)
   <-> test tokenPattern body = false)
  /\ (forall msg, body_fallback ticker body = Failed msg ->
                  msg = could_not_extract ticker)
  /\ (forall v, body_fallback ticker body = Fulfilled v -> isNaN v = false).
Proof.
  assert (Htest : test tokenPattern body = false
                  <-> matches tokenPattern body = None).
  { unfold test, matches.
    destruct (search_from tokenPattern (chars body) 0) as [[e ms]|];
      split; congruence. }
  split; [|split].
  - rewrite Htest. unfold body_fallback, token_number. split.
    + destruct (near_number body); [discriminate|].
      destruct (matches tokenPattern body); [discriminate|reflexivity].
    + intros Hnone. rewrite Hnone.
      unfold near_number. destruct (matches nearPattern body) as [m|] eqn:Hm;
        [|reflexivity].
      apply matches_near in Hm. rewrite Hnone in Hm. destruct Hm; discriminate.
  - intros msg. unfold body_fallback.
    destruct (near_number body); [discriminate|].
    destruct (token_number body); [discriminate|]. congruence.
  - intros v. unfold body_fallback.
    destruct (near_number body) eqn:Hn.
    + intros [= <-]. exact (near_number_not_nan _ _ Hn).
    + destruct (token_number body) eqn:Ht; [|discriminate].
      intros [= <-]. exact (token_number_not_nan _ _ Ht).
Qed.

End LocatorMore.

Module SelectorFacts.
Import JsString Regex JsNumber Extract Async Locator Selector Digits.
Import ExtractFacts RegexFacts NumberFacts LocatorMore.

Lemma parsed_not_nan (candidate : option string) (v : float) :
  parsed candidate = Some v -> isNaN v = false.
Proof.
  unfold parsed. destruct candidate as [c|]; [|discriminate].
  destruct (String.eqb c ""); [discriminate|].
  destruct (isNaN (parseFloat (replace_first ","%char "." c))) eqn:Hn;
    cbn [negb]; [discriminate|].
  intros [= <-]. exact Hn.
Qed.

Lemma xpath_steps_not_nan (el : element) (body : settled string) (v : float) :
  xpath_steps el body = Fulfilled v -> isNaN v = false.
Proof.
  unfold xpath_steps. destruct (textContent el) as [t|]; [|discriminate].
  destruct (isNaN (extractNumberFromString (trim t))) eqn:Hn; cbn [negb].
  - destruct (parsed (attempt (textAgain el) candidate_inside)) eqn:H2.
    + intros [= <-]. exact (parsed_not_nan _ _ H2).
    + destruct (parsed (attempt body page_candidate)) eqn:H3; [|discriminate].
      intros [= <-]. exact (parsed_not_nan _ _ H3).
  - intros [= <-]. exact Hn.
Qed.

Lemma rewrap_fulfilled (prefix selector url : string) (r : settled float)
  (v : float) :
  rewrap prefix selector url r = Fulfilled v -> r = Fulfilled v.
Proof. destruct r; cbn; [tauto|discriminate]. Qed.

(** A text without digits has no number after the word Price or
    Cena. *)
Lemma candidate_inside_digitless (t : string) :
  has_digit (chars t) = false -> candidate_inside t = None.
Proof.
  intros Hd. unfold candidate_inside, matches.
  destruct (search_from insidePattern (chars t) 0) as [[e ms]|] eqn:Hs;
    [|reflexivity].
  apply search_from_some in Hs. destruct Hs as (k & _ & Hex).
  cbn [Nat.add] in Hex. apply exec_word_gap_token in Hex.
  destruct Hex as (p & Hex). apply token_at in Hex.
  destruct Hex as (_ & Hdigit & _). congruence.
Qed.

(** The second page pattern matches only where the first one does. *)
Lemma adjacent_inside (body : string) :
  matches insidePattern body = None -> matches adjacentPattern body = None.
Proof.
  unfold matches. intros Hin.
  destruct (search_from adjacentPattern (chars body) 0) as [[e ms]|] eqn:Hs;
    [|reflexivity].
  apply search_from_some in Hs. destruct Hs as (k & Hk & Hex).
  assert (Hsome : is_Some (search_from insidePattern (chars body) 0)).
  { apply (search_from_complete _ _ 0 k Hk).
    apply exec_alt_some in Hex. destruct Hex as (w & Hw & Hpre & Hex).
    apply (exec_alt_complete _ _ _ _ _ w Hw Hpre).
    apply (exec_rep_complete _ _ _ _ _ _ 0); [lia|].
    cbn [skipn]. rewrite Nat.add_0_r. eauto. }
  destruct Hsome as [[e' ms'] Hsome]. rewrite Hsome in Hin. discriminate Hin.
Qed.

Lemma page_candidate_inside (body : string) :
  page_candidate body = candidate_inside body.
Proof.
  unfold page_candidate, candidate_inside, group1.
  destruct (matches insidePattern body) eqn:Hin; [reflexivity|].
  rewrite (adjacent_inside body Hin). reflexivity.
Qed.

(** X11. Whatever path [fetchPriceForTicker] takes on the loaded page
    (an [xpath:] selector with its three steps, a CSS selector,
    autodetection, the two page-text fallbacks), a price it returns is
    never [NaN]: the one return without an [isNaN] test, the first
    number-like token of the page text, parses to a number too. *)
Theorem price_is_a_number (ticker selector url : string) (p : page)
  (v : float) :
  price_from_page ticker selector url p = Fulfilled v -> isNaN v = false.
Proof.
  unfold price_from_page.
  destruct (String.eqb selector ""); [apply fetchPrice_not_nan|].
  destruct (prefix_of false (chars "xpath:") (chars selector)).
  - unfold xpath_price. intros H. apply rewrap_fulfilled in H.
    destruct (found p) as [[|el els]|]; try discriminate.
    exact (xpath_steps_not_nan _ _ _ H).
  - unfold css_price. intros H. apply rewrap_fulfilled in H.
    destruct (waited p); [|discriminate].
    destruct (selected p) as [t|]; [|discriminate].
    destruct (isNaN (extractNumberFromString (trim t))) eqn:Hn; cbn [negb] in H;
      [discriminate|].
    injection H as <-. exact Hn.
Qed.

(** A page without any price label whose text holds the token 812,50. *)
Lemma price_is_a_number_witness :
  let p := mkPage (Fulfilled []) (Fulfilled tt) (Fulfilled "")
             (Locator.mkPage (Some []) (Some []) (Some [])
                (Fulfilled "NIIS 812,50 RSD")) in
  price_from_page "NIIS" "" "https://www.belex.rs/NIIS" p
  = Fulfilled 812.5%float
  /\ isNaN 812.5%float = false.
Proof.
  intros p.
  assert (H : price_from_page "NIIS" "" "https://www.belex.rs/NIIS" p
              = Fulfilled 812.5%float) by (vm_compute; reflexivity).
  split; [exact H|].
  exact (price_is_a_number "NIIS" "" "https://www.belex.rs/NIIS" p _ H).
Defined.

(** X12. In the [xpath:] path of [fetchPriceForTicker], the second step
    (the search for Price or Cena followed by a number inside the text of
    the matched element) never yields a price when the element shows the
    same text at both reads: it runs only when the element text holds no
    digit. And the second of the two page patterns never yields anything
    the first has not found. The path is the direct parse of the element
    followed by one search of the page text. *)
Theorem xpath_second_step_is_dead (el : element) (body : settled string) :
  textAgain el = textContent el ->
  xpath_steps el body = xpath_steps_short el body
  /\ (forall b, page_candidate b = candidate_inside b)
  /\ (forall t, textContent el = Fulfilled t ->
                isNaN (extractNumberFromString (trim t)) = true ->
                candidate_inside t = None).
Proof.
  intros Hsame.
  assert (Hdead : forall t,
    isNaN (extractNumberFromString (trim t)) = true ->
    candidate_inside t = None).
  { intros t Hn. apply candidate_inside_digitless.
    destruct (has_digit (chars t)) eqn:Hd; [|reflexivity].
    rewrite extract_number in Hn; [discriminate Hn|].
    unfold trim. rewrite chars_of_chars, has_digit_trim. exact Hd. }
  split; [|split].
  - unfold xpath_steps, xpath_steps_short. rewrite Hsame.
    destruct (textContent el) as [t|]; [|reflexivity].
    destruct (isNaN (extractNumberFromString (trim t))) eqn:Hn; cbn [negb];
      [|reflexivity].
    cbn [attempt]. rewrite (Hdead t Hn). cbn [parsed].
    destruct body as [b|]; cbn [attempt]; [|reflexivity].
    rewrite page_candidate_inside. reflexivity.
  - exact page_candidate_inside.
  - intros t _. apply Hdead.
Qed.

(** An element that reads "Price: n/a" on a page that reads
    "Cena: 5,002". *)
Lemma xpath_second_step_is_dead_witness :
  xpath_steps (mkElement (Fulfilled "Price: n/a") (Fulfilled "Price: n/a"))
    (Fulfilled "Cena: 5,002")
  = xpath_steps_short
      (mkElement (Fulfilled "Price: n/a") (Fulfilled "Price: n/a"))
      (Fulfilled "Cena: 5,002").
Proof.
  apply (xpath_second_step_is_dead
           (mkElement (Fulfilled "Price: n/a") (Fulfilled "Price: n/a"))
           (Fulfilled "Cena: 5,002")).
  reflexivity.
Defined.

End SelectorFacts.

Module StoreFacts.
Import Persist Store PersistFacts.

Lemma bak_is_another_file (f now : string) : (f ++ ".bak." ++ now)%string <> f.
Proof.
  intros H. apply (f_equal String.length) in H.
  rewrite !length_append in H. cbn in H. lia.
Qed.

Lemma last_app_singleton {A : Type} (l : list A) (a d : A) :
  List.last (l ++ [a]) d = a.
Proof. apply List.last_last. Qed.

(** A save that fails leaves [prices.json] as it was. *)
Lemma savePrices_failed (w : world) (fs : files) (f text : string) :
  succeeds (write w) && rename_ok w = false ->
  List.last (savePrices w fs f text) fs !! f = fs !! f.
Proof.
  intros Hfail. unfold savePrices. rewrite Hfail. unfold cleanup.
  pose proof (tmp_is_another_file f) as Htmp.
  assert (Hkeep :
    List.last (writeFile fs (f ++ ".tmp") text (write w)) fs !! f = fs !! f)
    by (apply last_elsewhere; exact Htmp).
  destruct (List.last (writeFile fs (f ++ ".tmp") text (write w)) fs
            !! (f ++ ".tmp")%string);
    [destruct (unlink_ok w)|]; rewrite ?app_nil_r; try exact Hkeep.
  rewrite List.last_last, lookup_delete_ne by exact Htmp. exact Hkeep.
Qed.

(** A save that goes through leaves the new document there. *)
Lemma savePrices_done (w : world) (fs : files) (f text : string) :
  write w = Completes -> rename_ok w = true ->
  List.last (savePrices w fs f text) fs !! f = Some text.
Proof.
  intros Hw Hr. unfold savePrices. rewrite Hw, Hr. cbn [succeeds andb].
  rewrite List.last_last, last_complete. unfold rename.
  rewrite lookup_insert_eq. apply lookup_insert_eq.
Qed.

Section Load.
Variable data : Type.
Variable empty : data.
Variable parse : string -> parsed data.

(** The value loaded depends on the content of [prices.json] only. *)
Lemma loadPrices_reads (w : load_world) (fs1 fs2 : files) (f : string) :
  fs1 !! f = fs2 !! f ->
  fst (loadPrices data empty parse w fs1 f)
  = fst (loadPrices data empty parse w fs2 f).
Proof.
  intros H. unfold loadPrices. rewrite H.
  destruct (fs2 !! f) as [txt|]; [|reflexivity].
  destruct (read_ok w); [|reflexivity].
  destruct (parse txt); reflexivity.
Qed.
End Load.

(** X13. What [savePrices] has written is what [loadPrices] returns at
    the next start, provided [JSON.parse] reads back what
    [JSON.stringify] wrote: after a save that went through, [loadPrices]
    returns the saved state and leaves the files alone. And a save that
    failed, at whatever point, does not change what the next
    [loadPrices] returns. *)
Theorem saved_state_is_loaded (data : Type) (empty : data)
  (parse : string -> parsed data) (stringify : data -> string)
  (d : data) (w : world) (lw : load_world) (fs : files) (f : string) :
  parse (stringify d) = Value d ->
  read_ok lw = true ->
  let after := List.last (savePrices w fs f (stringify d)) fs in
  (write w = Completes -> rename_ok w = true ->
   loadPrices data empty parse lw after f = (d, after))
  /\ (succeeds (write w) && rename_ok w = false ->
      fst (loadPrices data empty parse lw after f)
      = fst (loadPrices data empty parse lw fs f)).
Proof.
  intros Hjson Hread after. subst after. split.
  - intros Hw Hr. unfold loadPrices.
    rewrite (savePrices_done w fs f _ Hw Hr), Hread, Hjson. reflexivity.
  - intros Hfail. apply loadPrices_reads, savePrices_failed, Hfail.
Qed.

Lemma saved_state_is_loaded_witness :
  let d := "{ NIIS: { price: 812 } }" in
  let fs : files := {[ "/srv/prices.json" := "{}" ]} in
  let after :=
    List.last (savePrices (mkWorld Completes true true) fs "/srv/prices.json" d)
      fs in
  loadPrices string "{}" sample_parse (mkLoad true Completes Completes Completes "0")
    after "/srv/prices.json"
  = (d, after).
Proof.
  intros d fs after.
  apply (saved_state_is_loaded string "{}" sample_parse (fun x => x) d
           (mkWorld Completes true true)
           (mkLoad true Completes Completes Completes "0") fs
           "/srv/prices.json"); reflexivity.
Defined.

(** X14. [loadPrices] repairs what it finds: when its writes go through,
    [prices.json] exists afterwards and holds a document that
    [JSON.parse] accepts, a file that did not parse is kept under the
    backup name, and loading once more returns the same value and
    changes nothing. *)
Theorem loadPrices_settles (data : Type) (empty : data)
  (parse : string -> parsed data) (w w' : load_world) (fs : files)
  (f : string) :
  parse "{}" = Value empty ->
  read_ok w = true -> read_ok w' = true ->
  create w = Completes -> backup w = Completes -> reset w = Completes ->
  let '(d, fs') := loadPrices data empty parse w fs f in
  (exists txt, fs' !! f = Some txt /\ parse txt <> SyntaxError)
  /\ loadPrices data empty parse w' fs' f = (d, fs')
  /\ (forall txt, fs !! f = Some txt -> parse txt = SyntaxError ->
        fs' !! (f ++ ".bak." ++ now w)%string = Some txt).
Proof.
  intros Hempty Hr Hr' Hc Hb Hs. unfold loadPrices at 1.
  destruct (fs !! f) as [txt|] eqn:Hf.
  - rewrite Hr. destruct (parse txt) eqn:Hp.
    + rewrite Hb, Hs, !last_complete.
      pose proof (bak_is_another_file f (now w)) as Hbak.
      split; [|split].
      * exists "{}". rewrite lookup_insert_eq, Hempty. split; congruence.
      * unfold loadPrices. rewrite lookup_insert_eq, Hr', Hempty. reflexivity.
      * intros txt' [= <-] _. rewrite lookup_insert_ne by congruence.
        apply lookup_insert_eq.
    + split; [|split].
      * exists txt. rewrite Hp. split; [exact Hf|discriminate].
      * unfold loadPrices. rewrite Hf, Hr', Hp. reflexivity.
      * intros txt' [= <-]. congruence.
    + split; [|split].
      * exists txt. rewrite Hp. split; [exact Hf|discriminate].
      * unfold loadPrices. rewrite Hf, Hr', Hp. reflexivity.
      * intros txt' [= <-]. congruence.
  - rewrite Hc, last_complete. split; [|split].
    + exists "{}". rewrite lookup_insert_eq, Hempty. split; congruence.
    + unfold loadPrices. rewrite lookup_insert_eq, Hr', Hempty. reflexivity.
    + intros txt. discriminate.
Qed.

(** A file that was cut off in the middle of a document. *)
Lemma loadPrices_settles_witness :
  let w := mkLoad true Completes Completes Completes "1758873600000" in
  let fs : files := {[ "/srv/prices.json" := "NIIS: { pri" ]} in
  let '(d, fs') := loadPrices string "{}" sample_parse w fs "/srv/prices.json" in
  (exists txt, fs' !! "/srv/prices.json" = Some txt
               /\ sample_parse txt <> SyntaxError)
  /\ loadPrices string "{}" sample_parse w fs' "/srv/prices.json" = (d, fs')
  /\ (forall txt, fs !! "/srv/prices.json" = Some txt ->
        sample_parse txt = SyntaxError ->
        fs' !! ("/srv/prices.json" ++ ".bak." ++ now w)%string = Some txt).
Proof.
  intros w fs.
  apply (loadPrices_settles string "{}" sample_parse w w fs "/srv/prices.json");
    reflexivity.
Defined.

End StoreFacts.

Module HtmlFacts.
Import JsString News Html ExtractFacts.

Lemma flat_map_flat_map {A B C : Type} (f : A -> list B) (g : B -> list C)
  (l : list A) :
  flat_map g (flat_map f l) = flat_map (fun a => flat_map g (f a)) l.
Proof.
  induction l as [|a l IH]; [reflexivity|].
  cbn [flat_map]. rewrite flat_map_app, IH. reflexivity.
Qed.

(** The five replacements, character by character. *)
Lemma five_replacements (c : ascii) :
  replace_all_chars "'"%char (chars "&#039;")
    (replace_all_chars (ascii_of_nat 34) (chars "&quot;")
       (replace_all_chars ">"%char (chars "&gt;")
          (replace_all_chars "<"%char (chars "&lt;")
             (replace_all_chars "&"%char (chars "&amp;") [c]))))
  = escape_char c.
Proof. destruct c as [[] [] [] [] [] [] [] []]; reflexivity. Qed.

Lemma escape_char_markup (c : ascii) :
  Forall (fun x => markup x = false) (escape_char c).
Proof.
  destruct c as [[] [] [] [] [] [] [] []];
    repeat (constructor; try reflexivity).
Qed.

Lemma escape_char_plain (c : ascii) :
  markup c = false -> c <> "&"%char -> escape_char c = [c].
Proof.
  destruct c as [[] [] [] [] [] [] [] []]; intros Hm Ha;
    try discriminate Hm; try reflexivity.
  exfalso. apply Ha. reflexivity.
Qed.

(** X15. The five global replacements of [escapeHtml], done one after
    the other with the ampersand first, come to one replacement per
    character of the input (no replacement touches the output of an
    earlier one); the escaped text holds no [<], no [>] and no quote; a
    text without these characters and without ampersand is left as it
    is. *)
Theorem escapeHtml_one_pass (unsafe : string) :
  Html.escapeHtml unsafe = News.escapeHtml unsafe
  /\ Forall (fun c => markup c = false) (chars (Html.escapeHtml unsafe))
  /\ (Forall (fun c => markup c = false /\ c <> "&"%char) (chars unsafe) ->
      Html.escapeHtml unsafe = unsafe).
Proof.
  assert (Hone : Html.escapeHtml unsafe = News.escapeHtml unsafe).
  { unfold Html.escapeHtml, News.escapeHtml.
    destruct (String.eqb_spec unsafe "") as [->|_]; [reflexivity|].
    unfold replace_all. rewrite !chars_of_chars. f_equal.
    unfold replace_all_chars. rewrite !flat_map_flat_map.
    apply flat_map_ext. intros c.
    pose proof (five_replacements c) as H. unfold replace_all_chars in H.
    cbn [flat_map] in H. rewrite !app_nil_r in H.
    rewrite <- H. rewrite !flat_map_flat_map. reflexivity. }
  split; [exact Hone|]. rewrite Hone. unfold News.escapeHtml. split.
  - rewrite chars_of_chars. induction (chars unsafe) as [|c l IH];
      cbn [flat_map]; [constructor|].
    apply Forall_app. split; [apply escape_char_markup | exact IH].
  - intros Hplain.
    assert (Hid : flat_map escape_char (chars unsafe) = chars unsafe).
    { induction Hplain as [|c l [Hm Ha] _ IH]; [reflexivity|].
      cbn [flat_map]. rewrite (escape_char_plain c Hm Ha), IH. reflexivity. }
    rewrite Hid. unfold of_chars, chars.
    apply string_of_list_ascii_of_string.
Qed.

End HtmlFacts.

Module DateFacts.
Import JsString Regex JsNumber News ExtractFacts RegexFacts.

(** A repetition takes all the characters of its class that stand
    before a character outside the class, up to its bound. *)
Lemma run_stop (cls : ascii -> bool) (D : list ascii) :
  forall (h : nat) (c : ascii) (t : list ascii),
    Forall (fun x => cls x = true) D -> (length D <= h)%nat ->
    cls c = false ->
    run cls (Some h) (D ++ c :: t) = length D.
Proof.
  induction D as [|d D IH]; intros h c t HD Hlen Hc.
  - destruct h; cbn [app run length]; [reflexivity|]. rewrite Hc. reflexivity.
  - destruct h as [|h]; [cbn in Hlen; lia|].
    inversion HD as [|? ? Hd HD']; subst.
    cbn [app run length option_map Nat.pred]. rewrite Hd.
    f_equal. apply IH; [exact HD'|cbn in Hlen; lia|exact Hc].
Qed.

Lemma run_full (cls : ascii -> bool) (D : list ascii) :
  forall (t : list ascii),
    Forall (fun x => cls x = true) D ->
    run cls (Some (length D)) (D ++ t) = length D.
Proof.
  induction D as [|d D IH]; intros t HD; [destruct t; reflexivity|].
  inversion HD as [|? ? Hd HD']; subst.
  cbn [app run length option_map Nat.pred]. rewrite Hd.
  f_equal. apply IH, HD'.
Qed.

Lemma run_one (cls : ascii -> bool) (c : ascii) (l : list ascii) :
  cls c = true -> run cls (Some 1%nat) (c :: l) = 1%nat.
Proof. intros Hc. cbn [run]. rewrite Hc. destruct l; reflexivity. Qed.

(** A repetition that can keep all it has taken keeps it. *)
Lemma exec_rep_first (cls : ascii -> bool) (lo : nat) (hi : option nat)
  (re : regex) (l : list ascii) (pos : nat) (r : nat * list nat) :
  (lo <= run cls hi l)%nat ->
  exec re (skipn (run cls hi l) l) (pos + run cls hi l)%nat = Some r ->
  exec (Rep cls lo hi :: re) l pos = Some r.
Proof.
  intros Hlo He. cbn [exec]. apply Nat.leb_le in Hlo.
  destruct (run cls hi l) as [|n]; rewrite Hlo, He; reflexivity.
Qed.

Lemma exec_mark_first (re : regex) (l : list ascii) (pos e : nat)
  (ms : list nat) :
  exec re l pos = Some (e, ms) -> exec (Mark :: re) l pos = Some (e, pos :: ms).
Proof. intros H. cbn [exec]. rewrite H. reflexivity. Qed.

Lemma exec_date_other (c : ascii) (l : list ascii) (pos : nat) :
  isDigit c = false -> exec re_date (c :: l) pos = None.
Proof. intros H. unfold re_date. cbn. rewrite H. reflexivity. Qed.

Lemma search_date_skip (pre : list ascii) :
  forall (l : list ascii) (pos : nat),
    digitless pre ->
    search_from re_date (pre ++ l) pos
    = search_from re_date l (pos + length pre).
Proof.
  induction pre as [|c pre IH]; intros l pos Hpre.
  - cbn [app length]. rewrite Nat.add_0_r. reflexivity.
  - inversion Hpre as [|? ? Hc Hpre']; subst.
    cbn [app search_from]. rewrite (exec_date_other c _ pos Hc).
    rewrite IH by exact Hpre'. cbn [length]. f_equal. lia.
Qed.

Lemma substring_middle (a g b : list ascii) :
  substring (length a) (length a + length g) (a ++ g ++ b) = g.
Proof.
  unfold substring. rewrite drop_app_length.
  replace (length a + length g - length a)%nat with (length g) by lia.
  apply take_app_length.
Qed.

(** The date pattern on a date. *)
Lemma exec_date (D M Y rest : list ascii) (pos : nat) :
  Forall (fun c => isDigit c = true) D -> (1 <= length D <= 2)%nat ->
  Forall (fun c => isDigit c = true) M -> (1 <= length M <= 2)%nat ->
  Forall (fun c => isDigit c = true) Y -> length Y = 4%nat ->
  exists e,
    exec re_date (D ++ "."%char :: M ++ "."%char :: Y ++ rest) pos
    = Some (e, [pos; pos + length D; pos + length D + 1;
                pos + length D + 1 + length M;
                pos + length D + 1 + length M + 1;
                pos + length D + 1 + length M + 1 + 4])%nat.
Proof.
  intros HD HlD HM HlM HY HlY. unfold re_date.
  assert (Hdot : isDigit "."%char = false) by reflexivity.
  (* the last repetition, on what follows the year *)
  assert (Hlast : forall p,
    exists e, exec [Rep isDot 0 (Some 1%nat)] rest p = Some (e, [])).
  { intros p. eexists. apply exec_rep_first; [lia|]. cbn [exec]. reflexivity. }
  destruct (Hlast (pos + length D + 1 + length M + 1 + 4)%nat) as (e & He).
  exists e.
  apply exec_mark_first, exec_rep_first;
    rewrite (run_stop isDigit D 2 "."%char _ HD (proj2 HlD) Hdot);
    [lia|].
  rewrite drop_app_length.
  apply exec_mark_first, exec_rep_first;
    rewrite (run_one isDot "."%char _ eq_refl); [lia|].
  cbn [skipn]. rewrite skipn_O.
  apply exec_mark_first, exec_rep_first;
    rewrite (run_stop isDigit M 2 "."%char _ HM (proj2 HlM) Hdot);
    [lia|].
  rewrite drop_app_length.
  apply exec_mark_first, exec_rep_first;
    rewrite (run_one isDot "."%char _ eq_refl); [lia|].
  cbn [skipn]. rewrite skipn_O.
  pose proof (run_full isDigit Y rest HY) as Hrun. rewrite HlY in Hrun.
  apply exec_mark_first, exec_rep_first; rewrite Hrun; [lia|].
  rewrite <- HlY at 1. rewrite drop_app_length.
  apply exec_mark_first. exact He.
Qed.

Lemma search_from_here (re : regex) (l : list ascii) (pos : nat)
  (r : nat * list nat) :
  exec re l pos = Some r -> search_from re l pos = Some r.
Proof. intros H. destruct l; cbn [search_from]; rewrite H; reflexivity. Qed.

Lemma substring_at (a g b : list ascii) (n : nat) :
  length a = n -> substring n (n + length g) (a ++ g ++ b) = g.
Proof. intros <-. apply substring_middle. Qed.

(** X16. A date cell that reads day, dot, month, dot, year (one or two
    digits for the day and for the month, four for the year), after any
    text without digits and before any text at all, is parsed by
    [parseDateFromTd] to that day, month and year. *)
Theorem date_cell_is_parsed (pre D M Y rest : list ascii) :
  digitless pre ->
  Forall (fun c => isDigit c = true) D -> (1 <= length D <= 2)%nat ->
  Forall (fun c => isDigit c = true) M -> (1 <= length M <= 2)%nat ->
  Forall (fun c => isDigit c = true) Y -> length Y = 4%nat ->
  parseDateFromTd
    (of_chars (pre ++ D ++ "."%char :: M ++ "."%char :: Y ++ rest))
  = Some (mkDate (digits_value D) (digits_value M) (digits_value Y)).
Proof.
  intros Hpre HD HlD HM HlM HY HlY.
  unfold parseDateFromTd, matches. rewrite chars_of_chars.
  rewrite (search_date_skip pre _ 0 Hpre). cbn [Nat.add].
  destruct (exec_date D M Y rest (length pre) HD HlD HM HlM HY HlY)
    as (e & He).
  rewrite (search_from_here _ _ _ _ He). cbn [groups].
  rewrite (substring_at pre D _ (length pre) eq_refl).
  replace (pre ++ D ++ "."%char :: M ++ "."%char :: Y ++ rest)
    with ((pre ++ D ++ ["."%char]) ++ M ++ "."%char :: Y ++ rest)
    by (rewrite <- !app_assoc; reflexivity).
  rewrite (substring_at (pre ++ D ++ ["."%char]) M _
             (length pre + length D + 1))
    by (rewrite !length_app; cbn [length]; lia).
  replace ((pre ++ D ++ ["."%char]) ++ M ++ "."%char :: Y ++ rest)
    with ((pre ++ D ++ "."%char :: M ++ ["."%char]) ++ Y ++ rest)
    by (rewrite <- !app_assoc; cbn [app]; rewrite <- !app_assoc; reflexivity).
  rewrite <- HlY at 1.
  rewrite (substring_at (pre ++ D ++ "."%char :: M ++ ["."%char]) Y rest
             (length pre + length D + 1 + length M + 1))
    by (rewrite !length_app; cbn [length]; rewrite length_app; cbn [length];
        lia).
  unfold parseInt10. rewrite !chars_of_chars. reflexivity.
Qed.

(** The cell of the example, with its trailing dot. *)
Lemma date_cell_is_parsed_witness :
  parseDateFromTd "26.09.2025." = Some (mkDate 26 9 2025).
Proof.
  apply (date_cell_is_parsed [] (chars "26") (chars "09") (chars "2025")
           (chars "."));
    repeat constructor.
Defined.

End DateFacts.

Module TickersFacts.
Import JsString Tickers ExtractFacts.

(** The pieces kept after trimming. *)
Abbreviation kept ps := (List.filter nonempty (map trim_chars ps)).

Lemma kept_app (a b : list (list ascii)) : kept (a ++ b) = kept a ++ kept b.
Proof. rewrite map_app. apply List.filter_app. Qed.

Lemma split_runs_start (cls : ascii -> bool) (l : list ascii) :
  split_runs cls false l = split_runs cls true l
  \/ split_runs cls false l = [] :: split_runs cls true l.
Proof.
  destruct l as [|c l]; cbn [split_runs]; [left; reflexivity|].
  destruct (cls c); [right|left]; reflexivity.
Qed.

Lemma kept_start (cls : ascii -> bool) (l : list ascii) :
  kept (split_runs cls false l) = kept (split_runs cls true l).
Proof.
  destruct (split_runs_start cls l) as [->| ->]; reflexivity.
Qed.

Lemma split_runs_cons (cls : ascii -> bool) (b : bool) (l : list ascii) :
  exists p ps, split_runs cls b l = p :: ps.
Proof.
  revert b. induction l as [|c l IH]; intros b; cbn [split_runs]; [eauto|].
  destruct (cls c); [destruct b; [apply IH|eauto]|].
  destruct (IH false) as (p & ps & ->). eauto.
Qed.

(** Splitting a text at one of its delimiters. *)
Lemma split_runs_at (cls : ascii -> bool) (d : ascii) (r : list ascii)
  (a : list ascii) :
  cls d = true ->
  kept (split_runs cls true (a ++ d :: r))
  = kept (split_runs cls true a) ++ kept (split_runs cls true r)
  /\ exists p ps ps',
       split_runs cls false a = p :: ps
       /\ split_runs cls false (a ++ d :: r) = p :: ps'
       /\ kept ps' = kept ps ++ kept (split_runs cls true r).
Proof.
  intros Hd. induction a as [|c a [IH1 (p & ps & ps' & Ha & Hall & Hk)]].
  - cbn [app split_runs]. rewrite Hd. split; [reflexivity|].
    exists [], [], (split_runs cls true r). repeat split.
  - cbn [app split_runs]. destruct (cls c).
    + split; [exact IH1|].
      exists [], (split_runs cls true a), (split_runs cls true (a ++ d :: r)).
      repeat split. exact IH1.
    + rewrite Ha, Hall. split.
      * change ((c :: p) :: ps') with ([c :: p] ++ ps').
        change ((c :: p) :: ps) with ([c :: p] ++ ps).
        rewrite !kept_app, Hk. apply app_assoc.
      * exists (c :: p), ps, ps'. repeat split. exact Hk.
Qed.

Lemma kept_split_at (d : ascii) (a r : list ascii) :
  isDelim d = true ->
  kept (split_runs isDelim false (a ++ d :: r))
  = kept (split_runs isDelim false a) ++ kept (split_runs isDelim false r).
Proof.
  intros Hd. rewrite !kept_start.
  apply (split_runs_at isDelim d r a Hd).
Qed.

(** The pieces hold no character of the class. *)
Lemma split_runs_free (cls : ascii -> bool) (l : list ascii) :
  forall b, Forall (Forall (fun c => cls c = false)) (split_runs cls b l).
Proof.
  induction l as [|c l IH]; intros b; cbn [split_runs].
  - repeat constructor.
  - destruct (cls c) eqn:Hc.
    + destruct b; [apply IH|]. constructor; [constructor|apply IH].
    + specialize (IH false).
      destruct (split_runs cls false l) as [|p ps]; [repeat constructor; exact Hc|].
      inversion IH; subst. constructor; [constructor; assumption|assumption].
Qed.

Lemma dropWhile_free (P : ascii -> Prop) (p : ascii -> bool) (l : list ascii) :
  Forall P l -> Forall P (dropWhile p l).
Proof.
  induction 1 as [|c l Hc Hl IH]; cbn [dropWhile]; [constructor|].
  destruct (p c); [exact IH|constructor; assumption].
Qed.

Lemma trim_free (P : ascii -> Prop) (l : list ascii) :
  Forall P l -> Forall P (trim_chars l).
Proof.
  intros H. unfold trim_chars.
  apply Forall_rev, dropWhile_free, Forall_rev, dropWhile_free, H.
Qed.

Lemma upper_facts (c : ascii) :
  isDelim (upper c) = isDelim c
  /\ negb ((97 <=? code (upper c))%nat && (code (upper c) <=? 122)%nat) = true
  /\ upper (upper c) = upper c.
Proof. destruct c as [[] [] [] [] [] [] [] []]; repeat split. Qed.

Lemma nonempty_upper (p : list ascii) : nonempty (toUpperCase p) = nonempty p.
Proof. destruct p; reflexivity. Qed.

Lemma parse_pipeline (subject : string) :
  parseTickersFromSubject subject
  = map (fun p => of_chars (toUpperCase p))
      (kept (split_runs isDelim false (chars subject))).
Proof.
  unfold parseTickersFromSubject.
  destruct (String.eqb_spec subject "") as [->|_]; reflexivity.
Qed.

(** X17. [parseTickersFromSubject] on an ASCII subject: every ticker it
    returns is a non-empty text without blank, comma, semicolon or bar
    and without lower-case letter; and the subject is cut at every
    delimiter, whatever the delimiters are: the tickers of a text with a
    delimiter in it are the tickers of what stands before it followed by
    the tickers of what stands after it. *)
Theorem tickers_of_subject (subject : string) :
  ascii_only subject ->
  Forall (fun t =>
            t <> ""
            /\ Forall (fun c =>
                         isDelim c = false
                         /\ negb ((97 <=? code c)%nat && (code c <=? 122)%nat)
                            = true) (chars t))
    (parseTickersFromSubject subject)
  /\ (forall a b d,
        isDelim d = true ->
        chars subject = a ++ d :: b ->
        parseTickersFromSubject subject
        = parseTickersFromSubject (of_chars a)
          ++ parseTickersFromSubject (of_chars b)).
Proof.
  intros _. split.
  - rewrite parse_pipeline. apply Forall_map.
    pose proof (split_runs_free isDelim (chars subject) false) as Hfree.
    induction Hfree as [|p ps Hp Hps IH]; [constructor|].
    cbn [map List.filter].
    destruct (nonempty (trim_chars p)) eqn:Hne; [|exact IH].
    constructor; [|exact IH]. cbn beta. rewrite chars_of_chars. split.
    + destruct (trim_chars p); [discriminate Hne|]. discriminate.
    + unfold toUpperCase. apply Forall_map.
      eapply Forall_impl; [apply trim_free, Hp|].
      intros c Hc. cbn beta in Hc |- *.
      destruct (upper_facts c) as (Hd & Hl & _). rewrite Hd. tauto.
  - intros a b d Hd Hs. rewrite !parse_pipeline, !chars_of_chars, Hs.
    rewrite (kept_split_at d a b Hd). apply map_app.
Qed.

(** The subject of a request for two tickers. *)
Lemma tickers_of_subject_witness :
  parseTickersFromSubject "niis, jesv"
  = parseTickersFromSubject (of_chars (chars "niis"))
    ++ parseTickersFromSubject (of_chars (chars " jesv")).
Proof.
  assert (H : ascii_only "niis, jesv")
    by (unfold ascii_only; repeat constructor).
  apply (proj2 (tickers_of_subject "niis, jesv" H)
           (chars "niis") (chars " jesv") ","%char); reflexivity.
Defined.

(** X18. The ticker list that the server builds from TRACK_TICKERS is
    the one that [parseTickersFromSubject] gives for the same ASCII
    text: trimming and upper-casing before the empty pieces are dropped
    comes to the same as dropping them in between. *)
Theorem envTickers_parse (text : string) :
  ascii_only text ->
  envTickers text = parseTickersFromSubject text.
Proof.
  intros _. rewrite parse_pipeline. unfold envTickers.
  induction (split_runs isDelim false (chars text)) as [|p ps IH];
    [reflexivity|].
  cbn [map List.filter]. rewrite nonempty_upper.
  destruct (nonempty (trim_chars p)); [|exact IH].
  cbn [map]. f_equal. exact IH.
Qed.

Lemma envTickers_parse_witness :
  envTickers "NIIS;jesv | aero" = parseTickersFromSubject "NIIS;jesv | aero".
Proof.
  apply envTickers_parse. unfold ascii_only. repeat constructor.
Defined.

Lemma hex_digit_component (n : nat) :
  (n < 16)%nat -> component_char (hex_digit n) = true.
Proof.
  intros Hn. do 16 (destruct n as [|n]; [reflexivity|]). lia.
Qed.

Lemma percent_component (byte : nat) :
  (byte < 256)%nat -> Forall (fun c => component_char c = true) (percent byte).
Proof.
  intros Hb. unfold percent. repeat constructor.
  - apply hex_digit_component. apply Nat.Div0.div_lt_upper_bound. lia.
  - apply hex_digit_component. apply Nat.mod_upper_bound. lia.
Qed.

Lemma code_bound (c : ascii) : (code c < 256)%nat.
Proof. apply nat_ascii_bounded. Qed.

Lemma encode_char_component (c : ascii) :
  Forall (fun x => component_char x = true) (encode_char c).
Proof.
  unfold encode_char. pose proof (code_bound c) as Hc.
  destruct (unreserved c) eqn:Hu.
  - repeat constructor. unfold component_char. rewrite Hu. reflexivity.
  - destruct (Nat.ltb_spec (code c) 128).
    + apply percent_component. lia.
    + apply Forall_app. split; apply percent_component.
      * assert (code c / 64 < 4)%nat
          by (apply Nat.Div0.div_lt_upper_bound; lia).
        lia.
      * pose proof (Nat.mod_upper_bound (code c) 64 ltac:(lia)). lia.
Qed.

(** [prefix_of], without the folding of case, says that the text starts
    with the pattern. *)
Lemma prefix_of_app (p l : list ascii) :
  prefix_of false p l = true <-> exists rest, l = p ++ rest.
Proof.
  revert l. induction p as [|a p IH]; intros l; cbn [prefix_of].
  - split; [intros _; exists l; reflexivity | reflexivity].
  - destruct l as [|c l].
    + split; [discriminate | intros [rest H]; discriminate H].
    + rewrite andb_true_iff, IH. split.
      * intros [Hac [rest ->]]. apply Ascii.eqb_eq in Hac. subst c.
        exists rest. reflexivity.
      * intros [rest H]. cbn [app] in H. injection H as -> ->.
        split; [apply Ascii.eqb_refl | exists rest; reflexivity].
Qed.

(** A text without the pattern is left as it is. *)
Lemma replace_str_absent (pattern replacement l : list ascii) :
  (forall before after, l <> before ++ pattern ++ after) ->
  replace_str pattern replacement l = l.
Proof.
  induction l as [|c l IH]; intros Hno.
  - cbn [replace_str]. destruct (prefix_of false pattern []) eqn:Hp;
      [|reflexivity].
    apply prefix_of_app in Hp as [rest Hp]. destruct (Hno [] rest Hp).
  - cbn [replace_str]. destruct (prefix_of false pattern (c :: l)) eqn:Hp.
    + apply prefix_of_app in Hp as [rest Hp]. destruct (Hno [] rest Hp).
    + f_equal. apply IH. intros before after H.
      apply (Hno (c :: before) after). cbn [app]. f_equal. exact H.
Qed.

(** The occurrence of the pattern that starts first is the one that is
    replaced: what stands before it and after it stays. *)
Lemma replace_str_first (pattern replacement before after : list ascii) :
  (forall b a, before ++ pattern ++ after = b ++ pattern ++ a ->
               length before <= length b) ->
  replace_str pattern replacement (before ++ pattern ++ after)
  = before ++ replacement ++ after.
Proof.
  induction before as [|c before IH]; intros Hfirst.
  - cbn [app].
    assert (Hp : prefix_of false pattern (pattern ++ after) = true)
      by (apply prefix_of_app; exists after; reflexivity).
    destruct (pattern ++ after) as [|x k] eqn:Hk; cbn [replace_str];
      rewrite Hp; rewrite <- Hk, drop_app_length; reflexivity.
  - cbn [app replace_str].
    destruct (prefix_of false pattern (c :: before ++ pattern ++ after))
      eqn:Hp.
    + apply prefix_of_app in Hp as [rest Hp].
      specialize (Hfirst [] rest Hp). cbn [length] in Hfirst. lia.
    + f_equal. apply IH. intros b a H.
      specialize (Hfirst (c :: b) a). cbn [app length] in Hfirst.
      rewrite H in Hfirst. specialize (Hfirst eq_refl). lia.
Qed.

(** A way to see that no occurrence starts before a position: the
    pattern is tried at every earlier position. *)
Lemma first_by_trial (pattern l : list ascii) (n : nat) :
  forallb (fun i => negb (prefix_of false pattern (skipn i l))) (seq 0 n)
  = true ->
  forall b a, l = b ++ pattern ++ a -> n <= length b.
Proof.
  intros Htrial b a Hl.
  destruct (Nat.le_gt_cases n (length b)) as [Hle|Hlt]; [exact Hle|].
  rewrite forallb_forall in Htrial.
  specialize (Htrial (length b)).
  rewrite Hl, drop_app_length in Htrial.
  assert (Hp : prefix_of false pattern (pattern ++ a) = true)
    by (apply prefix_of_app; exists a; reflexivity).
  rewrite Hp in Htrial. discriminate Htrial.
  apply in_seq. lia.
Qed.

Lemma absent_by_trial (pattern l : list ascii) :
  forallb (fun i => negb (prefix_of false pattern (skipn i l)))
    (seq 0 (S (length l))) = true ->
  forall b a, l <> b ++ pattern ++ a.
Proof.
  intros Htrial b a Hl.
  pose proof (first_by_trial pattern l (S (length l)) Htrial b a Hl) as H.
  apply (f_equal (@length ascii)) in Hl. rewrite !length_app in Hl. lia.
Qed.

(** X19. The URL that [fetchPriceForTicker] opens. A template without
    [{TICKER}] is opened as it is. In a template with [{TICKER}], the
    occurrence that starts first is replaced by the encoded ticker, and
    what stands before and after that occurrence stays: a second
    placeholder is not replaced. The encoded ticker is made of
    unreserved characters and percent escapes only, so that no
    character of a ticker (a slash, a question mark, a hash, an
    ampersand, a dollar sign, a blank) can change the structure of the
    URL or of the replacement. *)
Theorem ticker_cannot_bend_url (urlTemplate ticker : string) :
  let placeholder := chars "{TICKER}" in
  let encoded := chars (encodeURIComponent ticker) in
  Forall (fun c => component_char c = true) encoded
  /\ ((forall before after,
         chars urlTemplate <> before ++ placeholder ++ after) ->
      price_url urlTemplate ticker = urlTemplate)
  /\ (forall before after,
        chars urlTemplate = before ++ placeholder ++ after ->
        (forall b a, chars urlTemplate = b ++ placeholder ++ a ->
                     length before <= length b) ->
        chars (price_url urlTemplate ticker) = before ++ encoded ++ after).
Proof.
  intros placeholder encoded. split; [|split].
  - subst encoded. unfold encodeURIComponent. rewrite chars_of_chars.
    induction (chars ticker) as [|c l IH]; cbn [flat_map]; [constructor|].
    apply Forall_app. split; [apply encode_char_component|exact IH].
  - intros Hno. unfold price_url.
    rewrite (replace_str_absent _ _ _ Hno).
    unfold of_chars, chars. apply string_of_list_ascii_of_string.
  - intros before after Htpl Hfirst. unfold price_url.
    rewrite chars_of_chars, Htpl. apply replace_str_first.
    rewrite <- Htpl. exact Hfirst.
Qed.

(** The default template with a second placeholder in its query, and a
    ticker full of URL syntax; and a template without placeholder. *)
Lemma ticker_cannot_bend_url_witness :
  price_url "https://www.belex.rs/eng/trgovanje/hartija/dnevni/{TICKER}?like={TICKER}"
    "NI/IS?x=1&y #z"
  = "https://www.belex.rs/eng/trgovanje/hartija/dnevni/NI%2FIS%3Fx%3D1%26y%20%23z?like={TICKER}"
  /\ price_url "https://www.belex.rs/eng/trgovanje/{ticker}" "NIIS"
     = "https://www.belex.rs/eng/trgovanje/{ticker}".
Proof.
  split.
  - destruct (ticker_cannot_bend_url
                "https://www.belex.rs/eng/trgovanje/hartija/dnevni/{TICKER}?like={TICKER}"
                "NI/IS?x=1&y #z") as (_ & _ & H).
    specialize (H (chars "https://www.belex.rs/eng/trgovanje/hartija/dnevni/")
                  (chars "?like={TICKER}") eq_refl).
    rewrite <- (string_of_list_ascii_of_string (price_url _ _)).
    change (list_ascii_of_string (price_url
      "https://www.belex.rs/eng/trgovanje/hartija/dnevni/{TICKER}?like={TICKER}"
      "NI/IS?x=1&y #z")) with (chars (price_url
      "https://www.belex.rs/eng/trgovanje/hartija/dnevni/{TICKER}?like={TICKER}"
      "NI/IS?x=1&y #z")).
    rewrite H; [reflexivity|].
    apply first_by_trial. vm_compute. reflexivity.
  - destruct (ticker_cannot_bend_url
                "https://www.belex.rs/eng/trgovanje/{ticker}" "NIIS")
      as (_ & H & _).
    apply H. apply absent_by_trial. vm_compute. reflexivity.
Defined.

End TickersFacts.

Module AlertsEdge.
Import JsNumber Async Alerts AlertsLog AlertsFacts FloatFacts.

Lemma nan_Prim2SF (x : float) : is_nan x = true -> Prim2SF x = S754_nan.
Proof.
  intros H. destruct (Prim2SF x) eqn:Hx; try reflexivity;
    (assert (Hn : is_nan x = false)
       by (apply is_nan_Prim2SF; rewrite Hx; discriminate));
    congruence.
Qed.

(** No number is at least [NaN], and none is at most [-NaN]. *)
Lemma nan_not_reached (up change : float) :
  is_nan up = true -> (up <=? change)%float = false.
Proof.
  intros H. rewrite FloatAxioms.leb_spec, (nan_Prim2SF up H). reflexivity.
Qed.

Lemma minus_nan_not_reached (down change : float) :
  is_nan down = true -> (change <=? - down)%float = false.
Proof.
  intros H.
  rewrite FloatAxioms.leb_spec, FloatAxioms.opp_spec, (nan_Prim2SF down H).
  cbn [SFopp]. unfold SFleb, SFcompare. destruct (Prim2SF change); reflexivity.
Qed.

Lemma mails_app (a b : list event) : mails (a ++ b) = mails a ++ mails b.
Proof. apply List.filter_app. Qed.

Section Check.
Variable up down : float.
Variable receiver filename : string.
Hypothesis up_nan : is_nan up = true.
Hypothesis down_nan : is_nan down = true.

Lemma check_ticker_quiet (t : string) (w : turn) (s : state) :
  mails (trace (check_ticker up down receiver filename t w s))
  = mails (trace s)
  /\ length (trace (check_ticker up down receiver filename t w s))
     = (length (trace s)
        + match fetched w with Fulfilled _ => 1 | Failed _ => 0 end)%nat.
Proof.
  unfold check_ticker, record_price.
  destruct (fetched w) as [price|e]; cbn [trace];
    [|split; [reflexivity|lia]].
  assert (Hsave : forall d,
    mails (trace s ++ [SavePrices d filename]) = mails (trace s)
    /\ length (trace s ++ [SavePrices d filename]) = (length (trace s) + 1)%nat).
  { intros d. rewrite mails_app, length_app. cbn. rewrite app_nil_r.
    split; reflexivity. }
  destruct (previous (pricesState s) t) as [oldP|]; [|apply Hsave].
  destruct (pctChange (Some oldP) (Some price)) as [change|]; [|apply Hsave].
  rewrite (nan_not_reached up change up_nan).
  rewrite (minus_nan_not_reached down change down_nan).
  apply Hsave.
Qed.

Lemma check_from_quiet (tickers : list string) (world : nat -> turn) :
  forall (i : nat) (s : state),
    mails (trace (check_from up down receiver filename i tickers world s))
    = mails (trace s)
    /\ length (trace (check_from up down receiver filename i tickers world s))
       = (length (trace s) + length (fetched_turns world i (length tickers)))%nat.
Proof.
  induction tickers as [|t rest IH]; intros i s; cbn [check_from].
  - cbn. split; [reflexivity|lia].
  - destruct (IH (S i) (check_ticker up down receiver filename t (world i) s))
      as [Hm Hl].
    destruct (check_ticker_quiet t (world i) s) as [Hm1 Hl1].
    rewrite Hm, Hm1, Hl, Hl1. split; [reflexivity|].
    unfold fetched_turns. cbn [length seq List.filter].
    destruct (fetched (world i)); cbn [length]; lia.
Qed.
End Check.

(** X20. Thresholds that are not numbers switch the alerts off without
    a word: when ALERT_UP_PERCENT and ALERT_DOWN_PERCENT both parse to
    [NaN], [checkTickersAndAlert] sends no mail, whatever the prices do,
    and it records every price it fetches as if nothing had moved. *)
Theorem nan_thresholds_send_nothing (up down : float)
  (receiver filename : string) (tickers : list string) (data : prices)
  (world : nat -> turn) :
  isNaN up = true -> isNaN down = true ->
  let s' := checkTickersAndAlert up down receiver filename tickers data world in
  mails (trace s') = []
  /\ length (trace s') = length (fetched_turns world 0 (length tickers)).
Proof.
  intros Hup Hdown s'. subst s'. unfold checkTickersAndAlert.
  destruct (check_from_quiet up down receiver filename Hup Hdown tickers world
              0 (mkState data ∅ [])) as [Hm Hl].
  rewrite Hm, Hl. split; reflexivity.
Qed.

(** The price doubles, and nobody is told. *)
Lemma nan_thresholds_send_nothing_witness :
  let s' :=
    checkTickersAndAlert nan nan "alerts@example.com" "prices.json" ["NIIS"]
      {[ "NIIS" := mkEntry (Some 100%float) "2025-09-25T08:00:00.000Z" ]}
      (fun _ => mkTurn (Fulfilled 200%float) (Fulfilled tt)
                  "2025-09-26T08:00:00.000Z") in
  mails (trace s') = []
  /\ length (trace s') = length (fetched_turns
                                   (fun _ => mkTurn (Fulfilled 200%float)
                                               (Fulfilled tt)
                                               "2025-09-26T08:00:00.000Z")
                                   0 (length ["NIIS"])).
Proof.
  apply (nan_thresholds_send_nothing nan nan "alerts@example.com" "prices.json"
           ["NIIS"]); reflexivity.
Defined.

End AlertsEdge.

Module ReplyFacts.
Import JsString JsNumber Reply.

Lemma line_feeds_app (a b : template) :
  line_feeds (a ++ b) = (line_feeds a + line_feeds b)%nat.
Proof.
  induction a as [|[s|x] a IH]; cbn [app line_feeds]; [reflexivity| |exact IH].
  rewrite IH. lia.
Qed.

Lemma line_feeds_line (t : string) (r : option result) :
  line_feeds_of t = 0%nat ->
  (forall e, r = Some (Failure e) -> line_feeds_of e = 0%nat) ->
  line_feeds (line t r) = 0%nat.
Proof.
  intros Ht He. unfold line. destruct r as [[price|error]|];
    cbn [line_feeds]; rewrite ?Ht; try reflexivity.
  destruct (String.eqb error ""); cbn [line_feeds]; rewrite Ht;
    [reflexivity|].
  rewrite (He error eq_refl). reflexivity.
Qed.

Lemma line_feeds_join (lines : list template) :
  Forall (fun l => line_feeds l = 0%nat) lines ->
  line_feeds (join separator lines) = 0%nat.
Proof.
  induction 1 as [|l rest Hl Hrest IH]; [reflexivity|].
  cbn [join]. destruct rest as [|l' rest]; [exact Hl|].
  rewrite line_feeds_app, Hl. cbn [line_feeds Nat.add].
  change (line_feeds_of separator) with 0%nat. exact IH.
Qed.

(** X21. The reply to a price request is not broken into lines: the
    handler joins the lines of the tickers with a backslash followed by
    the letter n, not with a line feed, so that, for tickers and error
    messages without line feed, the whole reply has the two line feeds
    of its header and no other, however many tickers were asked for. *)
Theorem reply_is_one_line (tickers : list string)
  (results : gmap string result) :
  Forall (fun t => line_feeds_of t = 0%nat) tickers ->
  (forall t e, results !! t = Some (Failure e) -> line_feeds_of e = 0%nat) ->
  line_feeds (replyText tickers results) = 2%nat.
Proof.
  intros Ht He. unfold replyText. cbn [line_feeds].
  change (line_feeds_of "Current prices for requested tickers:") with 0%nat.
  change (line_feeds_of (String line_feed (String line_feed ""))) with 2%nat.
  rewrite line_feeds_join; [reflexivity|].
  apply Forall_map. eapply Forall_impl; [exact Ht|].
  intros t Hlf. cbn beta. apply line_feeds_line; [exact Hlf|].
  intros e. apply He.
Qed.

(** Three tickers: a price, an error and a ticker without result. *)
Lemma reply_is_one_line_witness :
  line_feeds
    (replyText ["NIIS"; "JESV"; "AERO"]
       (<["NIIS" := Price 812.5%float]>
          (<["JESV" := Failure "net::ERR_TIMED_OUT"]> ∅)))
  = 2%nat.
Proof.
  apply reply_is_one_line.
  - repeat constructor.
  - intros t e H.
    destruct (decide (t = "NIIS")) as [->|Hn];
      [rewrite lookup_insert_eq in H; discriminate H|].
    rewrite lookup_insert_ne in H by congruence.
    destruct (decide (t = "JESV")) as [->|Hj].
    + rewrite lookup_insert_eq in H. injection H as <-. reflexivity.
    + rewrite lookup_insert_ne, lookup_empty in H by congruence.
      discriminate H.
Defined.

End ReplyFacts.

Module PriceFetchFacts.
Import Async Pool Selector Tickers PriceFetch PoolFacts.
Local Open Scope Z_scope.

Section Fetch.
Variable opt : option Z.
Variable default : Z.
Variable selector urlTemplate : string.
Hypothesis room : 1 <= max_pages opt default.

Lemma release_ready (p : page_id) (w : page_world) (s : state) :
  pagePool s = [] -> goto_ok w = true ->
  releasePage (Some p) opt default w s
  = (push p (set_location p "about:blank" s), [Goto p "about:blank"]).
Proof.
  intros Hpool Hgoto. unfold releasePage, release_begin, release_end.
  rewrite Hpool. cbn [length].
  destruct (Z.ltb_spec (Z.of_nat 0) (max_pages opt default)); [|lia].
  rewrite Hgoto. reflexivity.
Qed.

(** The first call launches the browser and opens the page. *)
Lemma fetch_first (ticker : string) (w : visit) :
  goto_ok (release w) = true ->
  exists r,
    fetchPriceForTicker opt default selector urlTemplate ticker w initial
    = (r, ready,
       [Launch; NewPage 0%nat; Goto 0%nat (price_url urlTemplate ticker);
        Goto 0%nat "about:blank"]).
Proof.
  intros Hgoto. unfold fetchPriceForTicker, visit_page.
  cbn [getPage ensureBrowser initial browser pagePool pages fresh pop rev].
  destruct (goto w) as [[]|e]; eexists;
    (rewrite release_ready by (assumption || reflexivity));
    unfold push, set_location, ready;
    cbn [pagePool pages fresh browser app];
    rewrite ?lookup_insert_eq; cbn [from_option closed];
    rewrite ?insert_insert_eq; reflexivity.
Qed.

(** Every later call takes the page from the pool and puts it back. *)
Lemma fetch_next (ticker : string) (w : visit) :
  goto_ok (release w) = true ->
  exists r,
    fetchPriceForTicker opt default selector urlTemplate ticker w ready
    = (r, ready,
       [Goto 0%nat (price_url urlTemplate ticker); Goto 0%nat "about:blank"]).
Proof.
  intros Hgoto. unfold fetchPriceForTicker, visit_page, ready.
  cbn [getPage ensureBrowser browser pagePool pages fresh pop rev app].
  destruct (goto w) as [[]|e]; eexists;
    (rewrite release_ready by (assumption || reflexivity));
    unfold push, set_location;
    cbn [pagePool pages fresh browser app];
    rewrite ?lookup_insert_eq; cbn [from_option closed];
    rewrite ?insert_insert_eq; reflexivity.
Qed.

Lemma opened_app (a b : list event) : opened (a ++ b) = opened a ++ opened b.
Proof. unfold opened. apply omap_app. Qed.

Lemma launches_app (a b : list event) :
  launches (a ++ b) = (launches a + launches b)%nat.
Proof. unfold launches. rewrite List.filter_app. apply length_app. Qed.

Lemma fetch_all_next (world : nat -> visit) (tickers : list string) :
  (forall i, goto_ok (release (world i)) = true) ->
  forall i,
    let '(rs, s, tr) :=
      fetch_all opt default selector urlTemplate tickers world i ready in
    s = ready /\ opened tr = [] /\ launches tr = 0%nat
    /\ length rs = length tickers.
Proof.
  intros Hgoto. induction tickers as [|t rest IH]; intros i; cbn [fetch_all].
  - repeat split.
  - destruct (fetch_next t (world i) (Hgoto i)) as (r & ->).
    specialize (IH (S i)).
    destruct (fetch_all opt default selector urlTemplate rest world (S i) ready)
      as [[rs s] tr].
    destruct IH as (-> & Hop & Hla & Hlen).
    rewrite opened_app, launches_app, Hop, Hla. cbn [length].
    repeat split. lia.
Qed.
End Fetch.

(** X22. Price fetches made one after the other share one browser page:
    with room for a page in the pool and releases that reach
    about:blank, any number of [fetchPriceForTicker] calls on a fresh
    module launch the browser once and open one page in all, whatever
    the navigations and the extractions do (succeed, fail or throw);
    after the last call that page waits in the pool on about:blank, and
    every call has come back with a price or an error. *)
Theorem fetches_share_one_page (opt : option Z) (default : Z)
  (selector urlTemplate : string) (world : nat -> visit) (t : string)
  (tickers : list string) :
  1 <= max_pages opt default ->
  (forall i, goto_ok (release (world i)) = true) ->
  let '(rs, s, tr) :=
    fetch_all opt default selector urlTemplate (t :: tickers) world 0 initial in
  s = ready
  /\ opened tr = [0%nat]
  /\ launches tr = 1%nat
  /\ length rs = S (length tickers).
Proof.
  intros Hmax Hgoto. cbn [fetch_all].
  destruct (fetch_first opt default selector urlTemplate Hmax t (world 0%nat)
              (Hgoto 0%nat)) as (r & ->).
  pose proof (fetch_all_next opt default selector urlTemplate Hmax world
                tickers Hgoto 1%nat) as Hnext.
  destruct (fetch_all opt default selector urlTemplate tickers world 1 ready)
    as [[rs s] tr].
  destruct Hnext as (-> & Hop & Hla & Hlen).
  rewrite opened_app, launches_app, Hop, Hla. cbn [length].
  repeat split. lia.
Qed.

(** Two tickers; the page of the first does not load. *)
Lemma fetches_share_one_page_witness :
  let world := fun i : nat =>
    mkVisit (match i with
             | O => Failed "net::ERR_TIMED_OUT"
             | S _ => Fulfilled tt
             end)
      (mkPage (Fulfilled []) (Fulfilled tt) (Fulfilled "")
         (Locator.mkPage (Some []) (Some []) (Some [])
            (Fulfilled "JESV 812,50 RSD")))
      (mkWorld true true true) in
  let '(rs, s, tr) :=
    fetch_all None 4 "" "https://www.belex.rs/{TICKER}" ["NIIS"; "JESV"]
      world 0 initial in
  s = ready
  /\ opened tr = [0%nat]
  /\ launches tr = 1%nat
  /\ length rs = S (length ["JESV"]).
Proof.
  intros world.
  apply (fetches_share_one_page None 4 "" "https://www.belex.rs/{TICKER}"
           world "NIIS" ["JESV"]).
  - cbn. lia.
  - intros i. reflexivity.
Defined.

End PriceFetchFacts.

Module AlertsSteady.
Import JsNumber Async Alerts AlertsLog AlertsFacts FloatFacts AlertsEdge.

(** The change from a price to itself is a zero, or [NaN] when the
    price is not a finite number. *)
Lemma change_of_same (p : float) :
  (exists s, Prim2SF ((p - p) / p * 100)%float = S754_zero s)
  \/ Prim2SF ((p - p) / p * 100)%float = S754_nan.
Proof.
  rewrite FloatAxioms.mul_spec, FloatAxioms.div_spec, FloatAxioms.sub_spec.
  change (Prim2SF 100) with (S754_finite false 7036874417766400 (-46)).
  unfold FloatAxioms.SF64mul, FloatAxioms.SF64div, FloatAxioms.SF64sub.
  destruct (Prim2SF p) as [s|s| |s m e].
  - right. destruct s; reflexivity.
  - right. destruct s; reflexivity.
  - right. reflexivity.
  - left. cbn [SFsub]. rewrite Z.sub_diag. cbn [binary_normalize SFdiv SFmul].
    eauto.
Qed.

Lemma positive_threshold (x : float) :
  (0 <? x)%float = true ->
  exists m, Prim2SF x = S754_infinity false \/ exists e, Prim2SF x = S754_finite false m e.
Proof.
  rewrite FloatAxioms.ltb_spec.
  change (Prim2SF 0) with (S754_zero false). unfold SFltb, SFcompare.
  destruct (Prim2SF x) as [s|[]| |[] m e]; try discriminate; intros _.
  - exists 1%positive. left. reflexivity.
  - exists m. right. eauto.
Qed.

(** A price that has not moved reaches neither threshold. *)
Lemma same_price_is_quiet (up down p : float) :
  (0 <? up)%float = true -> (0 <? down)%float = true ->
  (up <=? (p - p) / p * 100)%float = false
  /\ ((p - p) / p * 100 <=? - down)%float = false.
Proof.
  intros Hup Hdown.
  rewrite !FloatAxioms.leb_spec, FloatAxioms.opp_spec.
  destruct (positive_threshold up Hup) as (mu & [Hu|(eu & Hu)]);
    destruct (positive_threshold down Hdown) as (md & [Hd|(ed & Hd)]);
    rewrite Hu, Hd;
    destruct (change_of_same p) as [(s & ->)| ->]; split; reflexivity.
Qed.

Section Check.
Variable up down : float.
Variable receiver filename : string.
Hypothesis up_positive : (0 <? up)%float = true.
Hypothesis down_positive : (0 <? down)%float = true.

Lemma check_ticker_steady (t : string) (w : turn) (s : state) :
  (forall p, fetched w = Fulfilled p -> previous (pricesState s) t = Some p) ->
  mails (trace (check_ticker up down receiver filename t w s))
  = mails (trace s)
  /\ (forall t', previous (pricesState
                             (check_ticker up down receiver filename t w s)) t'
                 = previous (pricesState s) t').
Proof.
  intros Hsame. unfold check_ticker, record_price.
  destruct (fetched w) as [p|e]; cbn [trace pricesState];
    [|split; reflexivity].
  specialize (Hsame p eq_refl). rewrite Hsame.
  assert (Hsave : forall d,
    mails (trace s ++ [SavePrices d filename]) = mails (trace s)).
  { intros d. rewrite mails_app. cbn. apply app_nil_r. }
  assert (Hprev : forall t' u,
    previous (<[t := mkEntry (Some p) u]> (pricesState s)) t'
    = previous (pricesState s) t').
  { intros t' u. unfold previous in *. destruct (decide (t' = t)) as [->|Hne].
    - rewrite lookup_insert_eq. cbn [price]. symmetry. exact Hsame.
    - rewrite lookup_insert_ne by congruence. reflexivity. }
  unfold pctChange.
  destruct (p =? 0)%float;
    [cbn [pricesState trace]; split; [apply Hsave|intros t'; apply Hprev]|].
  destruct (same_price_is_quiet up down p up_positive down_positive)
    as [-> ->].
  cbn [pricesState trace]. split; [apply Hsave|intros t'; apply Hprev].
Qed.

Lemma check_from_steady (tickers : list string) (world : nat -> turn) :
  forall (i : nat) (s : state),
    (forall j t p, tickers !! j = Some t ->
                   fetched (world (i + j)%nat) = Fulfilled p ->
                   previous (pricesState s) t = Some p) ->
    mails (trace (check_from up down receiver filename i tickers world s))
    = mails (trace s).
Proof.
  induction tickers as [|t rest IH]; intros i s Hsame; cbn [check_from];
    [reflexivity|].
  destruct (check_ticker_steady t (world i) s) as [Hm Hprev].
  { intros p Hp. apply (Hsame 0%nat t p); [reflexivity|].
    rewrite Nat.add_0_r. exact Hp. }
  rewrite IH; [exact Hm|].
  intros j t' p Hj Hp. rewrite Hprev. apply (Hsame (S j) t' p); [exact Hj|].
  replace (i + S j)%nat with (S i + j)%nat by lia. exact Hp.
Qed.
End Check.

(** X23. A price that has not moved never raises an alert: with
    thresholds above zero, a run of [checkTickersAndAlert] in which
    every price fetched is the price stored for its ticker sends no
    mail, whatever the stored prices are (finite or not) and whichever
    fetches fail. *)
Theorem unchanged_prices_send_nothing (up down : float)
  (receiver filename : string) (tickers : list string) (data : prices)
  (world : nat -> turn) :
  (0 <? up)%float = true -> (0 <? down)%float = true ->
  (forall i t p, tickers !! i = Some t ->
                 fetched (world i) = Fulfilled p ->
                 previous data t = Some p) ->
  mails (trace (checkTickersAndAlert up down receiver filename tickers data
                  world)) = [].
Proof.
  intros Hup Hdown Hsame. unfold checkTickersAndAlert.
  rewrite (check_from_steady up down receiver filename Hup Hdown); [reflexivity|].
  intros j t p Hj Hp. apply (Hsame j t p Hj Hp).
Qed.

(** A ticker at 812.5 that is fetched at 812.5, twice in a row. *)
Lemma unchanged_prices_send_nothing_witness :
  mails (trace (checkTickersAndAlert 5 5 "alerts@example.com" "prices.json"
                  ["NIIS"; "NIIS"]
                  {[ "NIIS" := mkEntry (Some 812.5%float)
                                 "2025-09-25T08:00:00.000Z" ]}
                  (fun _ => mkTurn (Fulfilled 812.5%float) (Fulfilled tt)
                              "2025-09-26T08:00:00.000Z"))) = [].
Proof.
  apply unchanged_prices_send_nothing; try reflexivity.
  intros i t p Ht [= <-].
  destruct i as [|[|i]]; cbn in Ht; try discriminate; injection Ht as <-;
    reflexivity.
Defined.

End AlertsSteady.

Module StoreMore.
Import Persist PersistFacts.

Lemma last_written (fs : files) (path data : string) (w : write_world) :
  w <> CannotOpen ->
  List.last (writeFile fs path data w) fs
  = <[path := String.substring 0 (written data w) data]> fs.
Proof.
  intros Hw. unfold writeFile.
  destruct w as [|n|]; [| |congruence];
    rewrite seq_S, map_app; cbn [map]; apply List.last_last.
Qed.

(** X24. A save that fails is undone: when [savePrices] fails (the
    write breaks off at any point, or the rename fails), the temporary
    file can be removed and was not there before, the file system ends
    exactly as it was before the call: [prices.json] untouched and no
    temporary file left. *)
Theorem failed_save_is_undone (w : world) (fs : files) (f text : string) :
  succeeds (write w) && rename_ok w = false ->
  unlink_ok w = true ->
  fs !! (f ++ ".tmp")%string = None ->
  List.last (savePrices w fs f text) fs = fs.
Proof.
  intros Hfail Hunlink Hnone. unfold savePrices. rewrite Hfail.
  unfold cleanup.
  assert (Hwritten : write w <> CannotOpen ->
    List.last
      (writeFile fs (f ++ ".tmp") text (write w)
       ++ match List.last (writeFile fs (f ++ ".tmp") text (write w)) fs
                !! (f ++ ".tmp")%string with
          | Some _ =>
              if unlink_ok w
              then [delete (f ++ ".tmp")%string
                      (List.last (writeFile fs (f ++ ".tmp") text (write w)) fs)]
              else []
          | None => []
          end) fs = fs).
  { intros Hw.
    rewrite (last_written fs _ text (write w) Hw), lookup_insert_eq, Hunlink.
    rewrite List.last_last, delete_insert_eq. apply delete_id, Hnone. }
  destruct (write w) eqn:Hw; try (apply Hwritten; discriminate).
  cbn [writeFile List.last app]. rewrite Hnone. reflexivity.
Qed.

(** The disk is full after ten characters. *)
Lemma failed_save_is_undone_witness :
  let fs : files := {[ "/srv/prices.json" := "{}" ]} in
  List.last
    (savePrices (mkWorld (FailsAfter 10) true true) fs "/srv/prices.json"
       "{ NIIS: { price: 812 } }") fs
  = fs.
Proof.
  intros fs.
  apply (failed_save_is_undone (mkWorld (FailsAfter 10) true true) fs
           "/srv/prices.json" "{ NIIS: { price: 812 } }");
    reflexivity.
Defined.

End StoreMore.

Module SenderFacts.
Import JsString Regex Sender ExtractFacts RegexFacts DateFacts.

Lemma run_stop_unbounded (cls : ascii -> bool) (D : list ascii) :
  forall (c : ascii) (t : list ascii),
    Forall (fun x => cls x = true) D -> cls c = false ->
    run cls None (D ++ c :: t) = length D.
Proof.
  induction D as [|d D IH]; intros c t HD Hc.
  - cbn [app run length]. rewrite Hc. reflexivity.
  - inversion HD as [|? ? Hd HD']; subst.
    cbn [app run length option_map]. rewrite Hd. f_equal.
    apply IH; assumption.
Qed.

Lemma exec_angle_other (c : ascii) (l : list ascii) (pos : nat) :
  isLt c = false -> exec re_angle (c :: l) pos = None.
Proof. intros H. unfold re_angle. cbn. rewrite H. reflexivity. Qed.

Lemma search_angle_skip (pre : list ascii) :
  forall (l : list ascii) (pos : nat),
    Forall (fun c => isLt c = false) pre ->
    search_from re_angle (pre ++ l) pos
    = search_from re_angle l (pos + length pre).
Proof.
  induction pre as [|c pre IH]; intros l pos Hpre.
  - cbn [app length]. rewrite Nat.add_0_r. reflexivity.
  - inversion Hpre as [|? ? Hc Hpre']; subst.
    cbn [app search_from]. rewrite (exec_angle_other c _ pos Hc).
    rewrite IH by exact Hpre'. cbn [length]. f_equal. lia.
Qed.

Lemma search_angle_none (l : list ascii) (pos : nat) :
  Forall (fun c => isLt c = false) l -> search_from re_angle l pos = None.
Proof.
  intros H. revert pos. induction H as [|c l Hc Hl IH]; intros pos.
  - reflexivity.
  - cbn [search_from]. rewrite (exec_angle_other c l pos Hc). apply IH.
Qed.

(** X25. The address a reply goes to: when the From header reads a name
    without [<], then [<], an address without [>] that is not empty,
    then [>], the poll loop takes the address between the angle
    brackets, whatever follows; and a header without any [<] is taken
    as it is. *)
Theorem sender_between_brackets (name addr rest : list ascii) :
  Forall (fun c => isLt c = false) name ->
  Forall (fun c => isGt c = false) addr ->
  addr <> [] ->
  fromEmail (of_chars (name ++ "<"%char :: addr ++ ">"%char :: rest))
  = of_chars addr
  /\ fromEmail (of_chars name) = of_chars name.
Proof.
  intros Hname Haddr Hne. unfold fromEmail, matches. rewrite !chars_of_chars.
  split; [|rewrite (search_angle_none name 0 Hname); reflexivity].
  rewrite (search_angle_skip name _ 0 Hname). cbn [Nat.add].
  assert (Hnot : Forall (fun c => notGt c = true) addr).
  { eapply Forall_impl; [exact Haddr|]. intros c Hc. unfold notGt.
    cbn beta in Hc. rewrite Hc. reflexivity. }
  assert (Hlen : (1 <= length addr)%nat)
    by (destruct addr; [congruence|cbn; lia]).
  assert (Hexec :
    exec re_angle ("<"%char :: addr ++ ">"%char :: rest) (length name)
    = Some ((length name + 1 + length addr + 1)%nat,
            [(length name + 1)%nat; (length name + 1 + length addr)%nat])).
  { unfold re_angle.
    apply exec_rep_first; rewrite (run_one isLt "<"%char _ eq_refl); [lia|].
    cbn [skipn]. rewrite skipn_O.
    apply exec_mark_first, exec_rep_first;
      rewrite (run_stop_unbounded notGt addr ">"%char rest Hnot eq_refl);
      [exact Hlen|].
    rewrite drop_app_length.
    apply exec_mark_first, exec_rep_first;
      rewrite (run_one isGt ">"%char _ eq_refl); [lia|].
    reflexivity. }
  rewrite (search_from_here _ _ _ _ Hexec). cbn [groups nth].
  replace (name ++ "<"%char :: addr ++ ">"%char :: rest)
    with ((name ++ ["<"%char]) ++ addr ++ ">"%char :: rest)
    by (rewrite <- app_assoc; reflexivity).
  rewrite (substring_at (name ++ ["<"%char]) addr _ (length name + 1))
    by (rewrite length_app; reflexivity).
  reflexivity.
Qed.

Lemma sender_between_brackets_witness :
  fromEmail "Pera Peric <pera@example.com>" = "pera@example.com"
  /\ fromEmail "Pera Peric " = "Pera Peric ".
Proof.
  apply (sender_between_brackets (chars "Pera Peric ")
           (chars "pera@example.com") []);
    [repeat constructor..|discriminate].
Defined.

End SenderFacts.

Module PoolRaceFacts.
Import Pool PoolRace PoolFacts.
Local Open Scope Z_scope.

Lemma resume_all (ps : list page_id) :
  forall s, pagePool (fold_left resume ps s) = pagePool s ++ ps.
Proof.
  induction ps as [|p ps IH]; intros s; cbn [fold_left].
  - symmetry. apply app_nil_r.
  - rewrite IH. cbn [resume push set_location pagePool].
    rewrite <- app_assoc. reflexivity.
Qed.

(** X26. The capacity of the pool holds for releases that do not
    overlap only. One release alone is its test followed by its push;
    but when several releases make their test before the navigation of
    any of them has resolved, each of them finds the same room and all
    of them push: the pool ends with all the pages, however many that
    is, and so beyond PUPPETEER_MAX_PAGES as soon as more pages are
    given back than there was room for. *)
Theorem overlapping_releases_overshoot (opt : option Z) (default : Z)
  (ps : list page_id) (s : state) :
  Z.of_nat (length (pagePool s)) < max_pages opt default ->
  (forall p w, goto_ok w = true ->
     Some (fst (releasePage (Some p) opt default w s))
     = overlapping_releases opt default [p] s)
  /\ (exists s',
        overlapping_releases opt default ps s = Some s'
        /\ pagePool s' = pagePool s ++ ps
        /\ (max_pages opt default
            < Z.of_nat (length (pagePool s)) + Z.of_nat (length ps) ->
            max_pages opt default < Z.of_nat (length (pagePool s')))).
Proof.
  intros Hroom. unfold overlapping_releases, has_room.
  destruct (Z.ltb_spec (Z.of_nat (length (pagePool s))) (max_pages opt default));
    [|lia].
  split.
  - intros p w Hgoto. unfold releasePage, release_begin, release_end.
    destruct (Z.ltb_spec (Z.of_nat (length (pagePool s)))
                (max_pages opt default)); [|lia].
    rewrite Hgoto. reflexivity.
  - eexists. split; [reflexivity|]. rewrite resume_all. split; [reflexivity|].
    rewrite length_app. lia.
Qed.

(** Room for one page, and three workers that give their pages back at
    the same time. *)
Lemma overlapping_releases_overshoot_witness :
  exists s',
    overlapping_releases (Some 1) 4 [0%nat; 1%nat; 2%nat]
      (mkState true [] ∅ 3%nat) = Some s'
    /\ pagePool s' = [] ++ [0%nat; 1%nat; 2%nat]
    /\ (max_pages (Some 1) 4 < Z.of_nat 0 + Z.of_nat 3 ->
        max_pages (Some 1) 4 < Z.of_nat (length (pagePool s'))).
Proof.
  apply (overlapping_releases_overshoot (Some 1) 4 [0%nat; 1%nat; 2%nat]
           (mkState true [] ∅ 3%nat)).
  cbn. lia.
Defined.

End PoolRaceFacts.
